(** * Virtual-Memory-Simulator-GO: page replacement simulators (main.go)

    A shallow embedding of the simulation core of [main.go]: the trace
    preprocessing done in [main], [fifoAlgorithm] and
    [optimalAlgorithmOptimized], followed by the properties of the
    specification that concern them.

    Conventions of the embedding.
    - A Go [int] (64 bits) is a [Z].  Every integer of the simulators is an index into
      the trace, a length, or a counter bounded by the trace length (see
      [fifo_faults_le_length] and [opt_faults_le_length]), so no
      wrap-around can occur and none is written.
    - [map[string]struct{}] is a [gset string], [map[string]int] a
      [gmap string Z] read with the zero value as default,
      [map[string][]int] a [gmap string (list Z)] read with the nil slice
      as default.
    - [container/list] is a [list string] with [Front] the head and
      [PushBack] an append; a slice is a [list].
    - [fmt.Printf] appends a structured [line] to the printed output.
    - A run-time panic and [os.Exit] end the computation.  The check that
      the run-time system makes in [make] is modelled ([makeslice], for a
      64-bit platform); the memory of the machine is not, so that an
      allocation which passes this check succeeds. *)

From Stdlib Require Import ZArith Lia.
From stdpp Require Import gmap strings list fin_maps fin_sets sorting.

Local Open Scope Z_scope.

(** ** Results, panics and printed output *)

Record SimulationResult := mkResult {
  pageFaults : Z;
  loadCounts : gmap string Z
}.

Inductive panic :=
| NilDereference          (* [Front()] of an empty list is nil; [.Value] *)
| IndexOutOfRange         (* [memoryFrames[victimIndex]] *)
| MakesliceCapOutOfRange. (* [make([]string, 0, numFrames)] *)

Inductive outcome (A : Type) :=
| Returned (a : A)
| Panicked (p : panic)
| Exited (code : Z).
Arguments Returned {A} a.
Arguments Panicked {A} p.
Arguments Exited {A} code.

Inductive algorithm := FIFO | Otimo.

(** One [line] per [fmt.Printf] of the didactic mode. *)
Inductive line :=
| LStep (alg : algorithm) (step : Z) (page : string)
| LFault
| LEvicted (page : string)
| LInserted (page : string)
| LHit
| LMemory (framesState : list string).

(** Computations that print and may panic. *)
Definition M (A : Type) : Type := list line → outcome A * list line.

Definition ret {A} (a : A) : M A := λ out, (Returned a, out).
Definition bind {A B} (k : A → M B) (m : M A) : M B := λ out,
  match m out with
  | (Returned a, out') => k a out'
  | (Panicked p, out') => (Panicked p, out')
  | (Exited c, out') => (Exited c, out')
  end.
#[global] Instance M_ret : MRet M := @ret.
#[global] Instance M_bind : MBind M := @bind.
Definition raise {A} (p : panic) : M A := λ out, (Panicked p, out).
Definition exit {A} (code : Z) : M A := λ out, (Exited code, out).
Definition printf (l : line) : M unit := λ out, (Returned tt, out ++ [l]).
Definition when (b : bool) (m : M unit) : M unit := if b then m else ret tt.

(** What a call returns, and what it prints, from an empty output. *)
Definition result_of {A} (m : M A) : outcome A := fst (m []).
Definition printed_by {A} (m : M A) : list line := snd (m []).

(** [len(s)] and [s[i]] of Go. *)
Definition len {A} (s : list A) : Z := Z.of_nat (length s).
Definition index {A} (s : list A) (i : Z) : option A :=
  if i <? 0 then None else s !! Z.to_nat i.

(** [result.pageFaults++; result.loadCounts[page]++] (main.go 66-67, 124-125). *)
Definition countFault (page : string) (result : SimulationResult) : SimulationResult :=
  {| pageFaults := pageFaults result + 1;
     loadCounts := <[page := default 0 (loadCounts result !! page) + 1]> (loadCounts result) |}.

(** ** fifoAlgorithm (main.go 55-100) *)

Record fifoState := mkFifo {
  f_pageInMemorySet : gset string;
  f_memoryFrames : list string;
  f_result : SimulationResult
}.

Definition fifoInit : fifoState :=
  {| f_pageInMemorySet := ∅; f_memoryFrames := [];
     f_result := {| pageFaults := 0; loadCounts := ∅ |} |}.

(** The body of the [range] loop, for index [i] and reference [page]. *)
Definition fifoStep (numFrames : Z) (didacticMode : bool) (i : Z) (page : string)
    (st : fifoState) : M fifoState :=
  when didacticMode (printf (LStep FIFO (i + 1) page)) ;;
  st' ← (if decide (page ∈ f_pageInMemorySet st) then
           when didacticMode (printf LHit) ;;
           ret st
         else
           let result := countFault page (f_result st) in
           ev ← (if len (f_memoryFrames st) =? numFrames then
                   match f_memoryFrames st with
                   | [] => raise NilDereference
                   | evictedPage :: rest =>
                       ret (evictedPage, f_pageInMemorySet st ∖ {[evictedPage]}, rest)
                   end
                 else ret (EmptyString, f_pageInMemorySet st, f_memoryFrames st));
           let '(evictedPage, pageInMemorySet, memoryFrames) := ev in
           let memoryFrames := memoryFrames ++ [page] in
           let pageInMemorySet := {[page]} ∪ pageInMemorySet in
           when didacticMode
             (printf LFault ;;
              when (bool_decide (evictedPage ≠ EmptyString)) (printf (LEvicted evictedPage)) ;;
              printf (LInserted page)) ;;
           ret {| f_pageInMemorySet := pageInMemorySet;
                  f_memoryFrames := memoryFrames;
                  f_result := result |});
  when didacticMode (printf (LMemory (f_memoryFrames st'))) ;;
  ret st'.

Fixpoint fifoLoop (numFrames : Z) (didacticMode : bool) (i : Z)
    (pageReferences : list string) (st : fifoState) : M fifoState :=
  match pageReferences with
  | [] => ret st
  | page :: rest =>
      st' ← fifoStep numFrames didacticMode i page st;
      fifoLoop numFrames didacticMode (i + 1) rest st'
  end.

Definition fifoAlgorithm (pageReferences : list string) (numFrames : Z)
    (didacticMode : bool) : M SimulationResult :=
  st ← fifoLoop numFrames didacticMode 0 pageReferences fifoInit;
  ret (f_result st).

(** ** optimalAlgorithmOptimized (main.go 112-183) *)

Record optState := mkOpt {
  o_pageInMemorySet : gset string;
  o_memoryFrames : list string;
  o_result : SimulationResult;
  o_nextUseCursor : gmap string Z
}.

Definition optInit : optState :=
  {| o_pageInMemorySet := ∅; o_memoryFrames := [];
     o_result := {| pageFaults := 0; loadCounts := ∅ |};
     o_nextUseCursor := ∅ |}.

(** [for cursor < len(positions) && positions[cursor] <= i { cursor++ }]
    (main.go 140-142), run over [positions[cursor:]].  A cursor is read from
    a map that starts empty and is only ever incremented, so it is never
    negative. *)
Fixpoint advanceCursor (tail : list Z) (cursor i : Z) : Z :=
  match tail with
  | pos :: tail' => if pos <=? i then advanceCursor tail' (cursor + 1) i else cursor
  | [] => cursor
  end.

Definition skipPast (positions : list Z) (cursor i : Z) : Z :=
  advanceCursor (drop (Z.to_nat cursor) positions) cursor i.

(** The next position of [framePage] after [i], or [-1] (main.go 136-146);
    also returns the advanced cursor. *)
Definition nextUse (pagePositions : gmap string (list Z)) (nextUseCursor : gmap string Z)
    (i : Z) (framePage : string) : Z * Z :=
  let positions := default [] (pagePositions !! framePage) in
  let cursor := default 0 (nextUseCursor !! framePage) in
  let cursor := skipPast positions cursor i in
  let nextPos := if cursor <? len positions
                 then default (-1) (index positions cursor) else -1 in
  (cursor, nextPos).

(** The scan of the frames for a victim (main.go 135-156): the frames still
    to visit, the index of the first of them, and the loop variables. *)
Fixpoint scanFrames (pagePositions : gmap string (list Z)) (i : Z)
    (frames : list string) (frameIdx farthest victimIndex : Z)
    (nextUseCursor : gmap string Z) : Z * gmap string Z :=
  match frames with
  | [] => (victimIndex, nextUseCursor)
  | framePage :: rest =>
      let '(cursor, nextPos) := nextUse pagePositions nextUseCursor i framePage in
      let nextUseCursor := <[framePage := cursor]> nextUseCursor in
      if nextPos =? -1 then (frameIdx, nextUseCursor)
      else if nextPos >? farthest
           then scanFrames pagePositions i rest (frameIdx + 1) nextPos frameIdx nextUseCursor
           else scanFrames pagePositions i rest (frameIdx + 1) farthest victimIndex nextUseCursor
  end.

Definition optStep (numFrames : Z) (pagePositions : gmap string (list Z))
    (didacticMode : bool) (i : Z) (page : string) (st : optState) : M optState :=
  when didacticMode (printf (LStep Otimo (i + 1) page)) ;;
  st' ← (if decide (page ∈ o_pageInMemorySet st) then
           when didacticMode (printf LHit) ;;
           ret st
         else
           let result := countFault page (o_result st) in
           ev ← (if len (o_memoryFrames st) <? numFrames then
                   ret (EmptyString,
                        {| o_pageInMemorySet := {[page]} ∪ o_pageInMemorySet st;
                           o_memoryFrames := o_memoryFrames st ++ [page];
                           o_result := result;
                           o_nextUseCursor := o_nextUseCursor st |})
                 else
                   let '(victimIndex, nextUseCursor) :=
                     scanFrames pagePositions i (o_memoryFrames st) 0 (-1) (-1)
                       (o_nextUseCursor st) in
                   match index (o_memoryFrames st) victimIndex with
                   | None => raise IndexOutOfRange
                   | Some evictedPage =>
                       ret (evictedPage,
                            {| o_pageInMemorySet :=
                                 {[page]} ∪ (o_pageInMemorySet st ∖ {[evictedPage]});
                               o_memoryFrames :=
                                 <[Z.to_nat victimIndex := page]> (o_memoryFrames st);
                               o_result := result;
                               o_nextUseCursor := nextUseCursor |})
                   end);
           let '(evictedPage, st1) := ev in
           when didacticMode
             (printf LFault ;;
              when (bool_decide (evictedPage ≠ EmptyString)) (printf (LEvicted evictedPage)) ;;
              printf (LInserted page)) ;;
           ret st1);
  when didacticMode
    (printf (LMemory (merge_sort String.leb (o_memoryFrames st')))) ;;
  ret st'.

Fixpoint optLoop (numFrames : Z) (pagePositions : gmap string (list Z))
    (didacticMode : bool) (i : Z) (pageReferences : list string) (st : optState)
    : M optState :=
  match pageReferences with
  | [] => ret st
  | page :: rest =>
      st' ← optStep numFrames pagePositions didacticMode i page st;
      optLoop numFrames pagePositions didacticMode (i + 1) rest st'
  end.

(** [make([]string, 0, capacity)] (main.go 114).  The run-time function
    [makeslice] panics with [cap out of range] when the capacity is
    negative, and when that many elements take more than the largest
    allocation: a [string] takes 16 bytes, and [maxAlloc] is 2^48 bytes on a
    64-bit platform. *)
Definition stringSize : Z := 16.
Definition maxAlloc : Z := 2 ^ 48.

Definition makeslice (capacity : Z) : M unit :=
  if (capacity <? 0) || (maxAlloc <? stringSize * capacity)
  then raise MakesliceCapOutOfRange
  else ret tt.

(** The largest capacity that [makeslice] accepts for strings. *)
Definition maxFrames : Z := 2 ^ 44.

Definition optimalAlgorithmOptimized (pageReferences : list string) (numFrames : Z)
    (pagePositions : gmap string (list Z)) (didacticMode : bool) : M SimulationResult :=
  makeslice numFrames ;;
  st ← optLoop numFrames pagePositions didacticMode 0 pageReferences optInit;
  ret (o_result st).

(** ** The preprocessing and the driver in main (main.go 207-258) *)

(** [pagePositions[page] = append(pagePositions[page], i)] over the trace
    (main.go 233-236). *)
Fixpoint buildPositionsFrom (i : Z) (pageReferences : list string)
    (pagePositions : gmap string (list Z)) : gmap string (list Z) :=
  match pageReferences with
  | [] => pagePositions
  | page :: rest =>
      buildPositionsFrom (i + 1) rest
        (<[page := default [] (pagePositions !! page) ++ [i]]> pagePositions)
  end.

Definition buildPagePositions (pageReferences : list string) : gmap string (list Z) :=
  buildPositionsFrom 0 pageReferences ∅.

Definition pageSizeBytes : Z := 4 * 1024.

(** [main] from the memory-size check on (main.go 207-258), given the parsed
    memory size and the lines of the input file.  The messages of [main]
    itself (usage, progress, report) are not part of the printed output
    modelled here, which holds the lines of the simulators only. *)
Definition mainSimulate (physicalMemoryBytes : Z) (pageReferences : list string)
    (didacticMode : bool) : M (SimulationResult * SimulationResult) :=
  if physicalMemoryBytes <? pageSizeBytes then exit 1
  else
    let pagePositions := buildPagePositions pageReferences in
    let numFrames := Z.quot physicalMemoryBytes pageSizeBytes in
    optimalResult ← optimalAlgorithmOptimized pageReferences numFrames pagePositions didacticMode;
    fifoResult ← fifoAlgorithm pageReferences numFrames didacticMode;
    ret (optimalResult, fifoResult).

(** The textbook trace of the specification's scenario. *)
Definition textbook : list string :=
  ["A"; "B"; "C"; "A"; "B"; "D"; "A"; "B"; "C"; "D"]%string.

(** The optimal simulator after the first five references of [textbook], with
    three frames. *)
Definition textbookAfter5 : optState :=
  {| o_pageInMemorySet := {["A"; "B"; "C"]}%string;
     o_memoryFrames := ["A"; "B"; "C"]%string;
     o_result := {| pageFaults := 3;
                   loadCounts := {["A" := 1; "B" := 1; "C" := 1]}%string |};
     o_nextUseCursor := ∅ |}.

(** A positions map that is not that of a trace: the pages A and B have
    the same position 5 to come; and the optimal simulator, reading it, after
    the first two references of the trace [A,B,C] with two frames. *)
Definition tiedPositions : gmap string (list Z) :=
  {["A" := [0; 5]; "B" := [1; 5]; "C" := [2]]}%string.

Definition tiedTrace : list string := ["A"; "B"; "C"]%string.

Definition tiedAfter2 : optState :=
  {| o_pageInMemorySet := {["A"; "B"]}%string;
     o_memoryFrames := ["A"; "B"]%string;
     o_result := {| pageFaults := 2; loadCounts := {["A" := 1; "B" := 1]}%string |};
     o_nextUseCursor := ∅ |}.

(** ** The simulators without their printing

    [fifoNext] and [optNext] are the loop bodies with every [fmt.Printf]
    removed; [fifo_step_erase] and [opt_step_erase] prove that the bodies
    above return exactly these, whatever the mode and the output so far. *)

Definition fifoNext (numFrames : Z) (page : string) (st : fifoState) : outcome fifoState :=
  if decide (page ∈ f_pageInMemorySet st) then Returned st
  else if len (f_memoryFrames st) =? numFrames then
    match f_memoryFrames st with
    | [] => Panicked NilDereference
    | evictedPage :: rest =>
        Returned {| f_pageInMemorySet := {[page]} ∪ (f_pageInMemorySet st ∖ {[evictedPage]});
                    f_memoryFrames := rest ++ [page];
                    f_result := countFault page (f_result st) |}
    end
  else Returned {| f_pageInMemorySet := {[page]} ∪ f_pageInMemorySet st;
                   f_memoryFrames := f_memoryFrames st ++ [page];
                   f_result := countFault page (f_result st) |}.

Fixpoint fifoRun (numFrames : Z) (pageReferences : list string) (st : fifoState)
    : outcome fifoState :=
  match pageReferences with
  | [] => Returned st
  | page :: rest =>
      match fifoNext numFrames page st with
      | Returned st' => fifoRun numFrames rest st'
      | Panicked p => Panicked p
      | Exited c => Exited c
      end
  end.

Definition optNext (numFrames : Z) (pagePositions : gmap string (list Z)) (i : Z)
    (page : string) (st : optState) : outcome optState :=
  if decide (page ∈ o_pageInMemorySet st) then Returned st
  else if len (o_memoryFrames st) <? numFrames then
    Returned {| o_pageInMemorySet := {[page]} ∪ o_pageInMemorySet st;
                o_memoryFrames := o_memoryFrames st ++ [page];
                o_result := countFault page (o_result st);
                o_nextUseCursor := o_nextUseCursor st |}
  else
    let scan := scanFrames pagePositions i (o_memoryFrames st) 0 (-1) (-1)
                  (o_nextUseCursor st) in
    match index (o_memoryFrames st) (fst scan) with
    | None => Panicked IndexOutOfRange
    | Some evictedPage =>
        Returned {| o_pageInMemorySet := {[page]} ∪ (o_pageInMemorySet st ∖ {[evictedPage]});
                    o_memoryFrames := <[Z.to_nat (fst scan) := page]> (o_memoryFrames st);
                    o_result := countFault page (o_result st);
                    o_nextUseCursor := snd scan |}
    end.

Fixpoint optRun (numFrames : Z) (pagePositions : gmap string (list Z)) (i : Z)
    (pageReferences : list string) (st : optState) : outcome optState :=
  match pageReferences with
  | [] => Returned st
  | page :: rest =>
      match optNext numFrames pagePositions i page st with
      | Returned st' => optRun numFrames pagePositions (i + 1) rest st'
      | Panicked p => Panicked p
      | Exited c => Exited c
      end
  end.

Definition omap {A B} (f : A → B) (o : outcome A) : outcome B :=
  match o with
  | Returned a => Returned (f a)
  | Panicked p => Panicked p
  | Exited c => Exited c
  end.

(** ** Definitions used to state the properties *)

(** [sum(loadCounts.values())]. *)
Definition sumValues (m : gmap string Z) : Z :=
  map_fold (λ _ v acc, v + acc) 0 m.

(** The invariant of the set, the frames and the result of a simulator after
    the references [seen], for [numFrames] frames. *)
Record bookkeeping (numFrames : Z) (seen : list string) (resident : gset string)
    (frames : list string) (r : SimulationResult) : Prop := {
  bk_nodup : NoDup frames;
  bk_mirror : resident = list_to_set frames;
  bk_len : len frames = Z.min (pageFaults r) numFrames;
  bk_sum : pageFaults r = sumValues (loadCounts r);
  bk_dom : dom (loadCounts r) = list_to_set seen;
  bk_pos : ∀ p c, loadCounts r !! p = Some c → 1 ≤ c;
  bk_seen : resident ⊆ list_to_set seen;
  bk_faults : 0 ≤ pageFaults r ≤ len seen
}.

(** The indices, counted from [i], at which [q] occurs in [refs]. *)
Fixpoint occFrom (i : Z) (refs : list string) (q : string) : list Z :=
  match refs with
  | [] => []
  | page :: rest =>
      if decide (page = q) then i :: occFrom (i + 1) rest q else occFrom (i + 1) rest q
  end.

(** The next position of [q] in [rest], whose first index is [b], or [-1]. *)
Definition nextPosOf (b : Z) (rest : list string) (q : string) : Z :=
  match occFrom b rest q with
  | [] => -1
  | j :: _ => j
  end.

(** Cursor invariant after the references [seen]: each cursor is within the
    positions already passed. *)
Definition cursorsWithin (seen : list string) (cur : gmap string Z) : Prop :=
  ∀ q, 0 ≤ default 0 (cur !! q) ≤ len (occFrom 0 seen q).

(** The scan of main.go 135-156 on the next positions alone. *)
Fixpoint pickVictim (nexts : list Z) (frameIdx farthest victimIndex : Z) : Z :=
  match nexts with
  | [] => victimIndex
  | nextPos :: rest =>
      if nextPos =? -1 then frameIdx
      else if nextPos >? farthest
           then pickVictim rest (frameIdx + 1) nextPos frameIdx
           else pickVictim rest (frameIdx + 1) farthest victimIndex
  end.

(** How the scan chooses, from its initial loop variables: the first frame
    with no next position if there is one, otherwise the first frame among
    those with the largest next position. *)
Definition chosen (nexts : list Z) (k : nat) : Prop :=
  (nexts !! k = Some (-1) ∧ ∀ k' : nat, (k' < k)%nat → nexts !! k' ≠ Some (-1))
  ∨ ((-1 ∉ nexts) ∧ ∃ m, nexts !! k = Some m ∧
       (∀ (k' : nat) m', (k' < k)%nat → nexts !! k' = Some m' → m' < m) ∧
       (∀ (k' : nat) m', nexts !! k' = Some m' → m' ≤ m)).

(** The next position that the scan reads for [q] at index [i], whatever
    the positions map: the first entry of [pagePositions[q]] that is greater
    than [i], or [-1] when there is none. *)
Definition nextInPositions (pagePositions : gmap string (list Z)) (i : Z) (q : string)
    : Z :=
  default (-1) (head (filter (λ pos, i < pos) (default [] (pagePositions !! q)))).

(** Cursor invariant for any positions map: each cursor is within its list,
    and every entry before it is below [b]. *)
Definition cursorsBehind (pagePositions : gmap string (list Z)) (b : Z)
    (cur : gmap string Z) : Prop :=
  ∀ q, 0 ≤ default 0 (cur !! q) ≤ len (default [] (pagePositions !! q))
       ∧ Forall (λ pos, pos < b)
           (take (Z.to_nat (default 0 (cur !! q))) (default [] (pagePositions !! q))).

(** The number of distinct pages among the references [refs]. *)
Definition distinctPages (refs : list string) : Z :=
  Z.of_nat (size (list_to_set (C:=gset string) refs)).

(** The invariants of the two loops, after the references [seen]. *)
Definition fifoInv (numFrames : Z) (seen : list string) (st : fifoState) : Prop :=
  bookkeeping numFrames seen (f_pageInMemorySet st) (f_memoryFrames st) (f_result st).

Definition optInv (numFrames : Z) (seen : list string) (st : optState) : Prop :=
  bookkeeping numFrames seen (o_pageInMemorySet st) (o_memoryFrames st) (o_result st)
  ∧ cursorsWithin seen (o_nextUseCursor st).

(** The state of each loop after the first [n] references of [trace]; the
    optimal simulator reads the positions of the whole trace. *)
Definition fifoAfter (numFrames : Z) (trace : list string) (n : nat) : outcome fifoState :=
  fifoRun numFrames (take n trace) fifoInit.

Definition optAfter (numFrames : Z) (trace : list string) (n : nat) : outcome optState :=
  optRun numFrames (buildPagePositions trace) 0 (take n trace) optInit.

(** A call refuses to run when it does not return. *)
Definition refusesToRun {A} (o : outcome A) : Prop := ∀ a, o ≠ Returned a.

(** [j] is the index of the next occurrence of [q] in [trace] after index [n]. *)
Definition nextOccurrenceIs (trace : list string) (n : nat) (q : string) (j : nat) : Prop :=
  (n < j)%nat ∧ trace !! j = Some q ∧ ∀ j' : nat, (n < j' < j)%nat → trace !! j' ≠ Some q.

(** The pages of [X] that occur in [u]. *)
Definition cnt (u : list string) (X : gset string) : nat :=
  size (filter (λ x, x ∈ u) X).

(** 1 if [p] occurs in [u], 0 otherwise. *)
Definition occurs (u : list string) (p : string) : nat :=
  if decide (p ∈ u) then 1%nat else 0%nat.

(** [Y] holds at most [d] more of the pages referenced next than [X] does,
    over every prefix of the references to come. *)
Definition lag (rest : list string) (X Y : gset string) (d : nat) : Prop :=
  ∀ m : nat, (cnt (take m rest) Y ≤ cnt (take m rest) X + d)%nat.

(** [ev] is referenced again no sooner than every page of [X]. *)
Definition farthest (rest : list string) (X : gset string) (ev : string) : Prop :=
  ∀ m : nat, ev ∈ take m rest → ∀ x, x ∈ X → x ∈ take m rest.

(** ** Definitions used to state the further properties *)

(** A paging schedule for [cap] frames: from the resident set [T], the
    references [refs] are served with [n] faults.  After each reference the
    referenced page is resident; nothing else is ever loaded; anything may be
    evicted at any time. *)
Inductive demandSchedule (cap : Z) : gset string → list string → Z → Prop :=
| ds_done T : demandSchedule cap T [] 0
| ds_hit T T' page rest n :
    page ∈ T → page ∈ T' → T' ⊆ T → Z.of_nat (size T') ≤ cap →
    demandSchedule cap T' rest n →
    demandSchedule cap T (page :: rest) n
| ds_miss T T' page rest n :
    page ∉ T → page ∈ T' → T' ⊆ {[page]} ∪ T → Z.of_nat (size T') ≤ cap →
    demandSchedule cap T' rest n →
    demandSchedule cap T (page :: rest) (n + 1).

(** One fault for each distinct page of [trace], each page loaded once. *)
Definition coldResult (trace : list string) : SimulationResult :=
  {| pageFaults := Z.of_nat (size (list_to_set (C:=gset string) trace));
     loadCounts := gset_to_gmap 1 (list_to_set trace) |}.

(** The state of a run that has not evicted yet, after the references [seen]. *)
Definition coldInv (seen : list string) (resident : gset string) (frames : list string)
    (r : SimulationResult) : Prop :=
  NoDup frames ∧ resident = list_to_set frames ∧ resident = list_to_set seen
  ∧ r = coldResult seen.

(** The pages that miss in the run of FIFO over [refs] from [st], in order. *)
Fixpoint fifoMisses (numFrames : Z) (refs : list string) (st : fifoState) : list string :=
  match refs with
  | [] => []
  | page :: rest =>
      match fifoNext numFrames page st with
      | Returned st' =>
          (if decide (page ∈ f_pageInMemorySet st) then [] else [page])
          ++ fifoMisses numFrames rest st'
      | _ => []
      end
  end.

(** The last [k] elements of [l]. *)
Definition lastn {A} (k : nat) (l : list A) : list A := drop (length l - k) l.

(** The step headers of an output, the number of its lines of one kind. *)
Fixpoint stepsOf (out : list line) : list (algorithm * Z * string) :=
  match out with
  | [] => []
  | LStep alg step page :: rest => (alg, step, page) :: stepsOf rest
  | _ :: rest => stepsOf rest
  end.

Fixpoint countLines (kind : line → bool) (out : list line) : Z :=
  match out with
  | [] => 0
  | l :: rest => (if kind l then 1 else 0) + countLines kind rest
  end.

Definition isFault (l : line) : bool := match l with LFault => true | _ => false end.
Definition isHit (l : line) : bool := match l with LHit => true | _ => false end.
Definition isInserted (l : line) : bool :=
  match l with LInserted _ => true | _ => false end.
Definition isMemory (l : line) : bool := match l with LMemory _ => true | _ => false end.

(** The headers of the references [refs], the first of which has index [i]. *)
Fixpoint headersFrom (alg : algorithm) (i : Z) (refs : list string)
    : list (algorithm * Z * string) :=
  match refs with
  | [] => []
  | page :: rest => (alg, i + 1, page) :: headersFrom alg (i + 1) rest
  end.

(** What the lines printed by one step add to an output. *)
Definition narrates (alg : algorithm) (i : Z) (page : string) (faults : Z)
    (out out' : list line) : Prop :=
  stepsOf out' = stepsOf out ++ [(alg, i + 1, page)]
  ∧ countLines isFault out' = countLines isFault out + faults
  ∧ countLines isInserted out' = countLines isInserted out + faults
  ∧ countLines isHit out' = countLines isHit out + (1 - faults)
  ∧ countLines isMemory out' = countLines isMemory out + 1.

(** What the lines printed by a whole loop add to an output. *)
Definition narratesAll (alg : algorithm) (i : Z) (refs : list string) (faults : Z)
    (out out' : list line) : Prop :=
  stepsOf out' = stepsOf out ++ headersFrom alg i refs
  ∧ countLines isFault out' = countLines isFault out + faults
  ∧ countLines isInserted out' = countLines isInserted out + faults
  ∧ countLines isHit out' = countLines isHit out + (len refs - faults)
  ∧ countLines isMemory out' = countLines isMemory out + len refs.

(** The results of the two simulators on [textbook] with three frames. *)
Definition textbookFifoResult : SimulationResult :=
  {| pageFaults := 8;
     loadCounts := {["A" := 2; "B" := 2; "C" := 2; "D" := 2]}%string |}.
Definition textbookOptimalResult : SimulationResult :=
  {| pageFaults := 5;
     loadCounts := {["A" := 1; "B" := 1; "C" := 2; "D" := 1]}%string |}.

(** The number of references to [p] in [refs]. *)
Definition timesReferenced (p : string) (refs : list string) : Z :=
  len (filter (λ x, x = p) refs).

(** A result after one more reference to [page]: untouched, or one more fault
    counted for [page]. *)
Definition countedOnce (page : string) (r r' : SimulationResult) : Prop :=
  r' = r ∨ r' = countFault page r.

(** Counters of [r'] are those of [r] plus at most the references of [refs]. *)
Definition countedWithin (refs : list string) (r r' : SimulationResult) : Prop :=
  pageFaults r ≤ pageFaults r' ≤ pageFaults r + len refs
  ∧ ∀ p, default 0 (loadCounts r !! p) ≤ default 0 (loadCounts r' !! p)
         ≤ default 0 (loadCounts r !! p) + timesReferenced p refs.

(** No position is below [-1]. *)
Definition positionsValid (pagePositions : gmap string (list Z)) : Prop :=
  ∀ p l pos, pagePositions !! p = Some l → pos ∈ l → -1 ≤ pos.

(** The bytes of a string. *)
Definition bytes (s : string) : list Ascii.ascii := String.list_ascii_of_string s.

(** [strings.HasSuffix] and [strings.TrimSuffix]. *)
Definition HasSuffix (s suf : string) : bool :=
  bool_decide (bytes suf `suffix_of` bytes s).

Definition TrimSuffix (s suf : string) : string :=
  if HasSuffix s suf
  then String.string_of_list_ascii (take (length (bytes s) - length (bytes suf)) (bytes s))
  else s.

(** The value of a decimal digit, [None] for any other byte. *)
Definition digitValue (c : Ascii.ascii) : option Z :=
  let n := Z.of_N (Ascii.N_of_ascii c) in
  if (48 <=? n) && (n <=? 57) then Some (n - 48) else None.

Fixpoint parseDigits (acc : Z) (cs : list Ascii.ascii) : option Z :=
  match cs with
  | [] => Some acc
  | c :: rest =>
      match digitValue c with
      | Some d => parseDigits (10 * acc + d) rest
      | None => None
      end
  end.

(** The bytes ['-'] and ['+']. *)
Definition minusSign : Ascii.ascii := Ascii.ascii_of_nat 45.
Definition plusSign : Ascii.ascii := Ascii.ascii_of_nat 43.

(** [strconv.ParseInt(s, 10, 64)]: an optional sign and one or more decimal
    digits, with a value that fits 64 bits; [None] stands for its error
    (of syntax or of range), which this program never inspects. *)
Definition ParseInt (s : string) : option Z :=
  match bytes s with
  | [] => None
  | c :: rest =>
      let neg := bool_decide (c = minusSign) in
      let digits := if bool_decide (c = plusSign) || neg then rest else c :: rest in
      match digits with
      | [] => None
      | _ =>
          match parseDigits 0 digits with
          | None => None
          | Some un =>
              if negb neg && (2 ^ 63 <=? un) then None
              else if neg && (2 ^ 63 <? un) then None
              else Some (if neg then - un else un)
          end
      end
  end.

(** The error value of [parseMemorySize]. *)
Inductive numError := NumError.

(** Arithmetic of [int64]. *)
Definition wrap64 (z : Z) : Z := (z + 2 ^ 63) mod 2 ^ 64 - 2 ^ 63.

(** [parseMemorySize]; [strings.ToUpper] and [strings.TrimSpace], which
    depend on the Unicode tables, are parameters. *)
Definition parseMemorySize (ToUpper TrimSpace : string → string) (sizeStr : string)
    : Z * option numError :=
  let sizeStr := ToUpper (TrimSpace sizeStr) in
  let '(multiplier, sizeStr) :=
    if HasSuffix sizeStr "KB" then (1024, TrimSuffix sizeStr "KB")
    else if HasSuffix sizeStr "MB" then (1024 * 1024, TrimSuffix sizeStr "MB")
    else if HasSuffix sizeStr "GB" then (1024 * 1024 * 1024, TrimSuffix sizeStr "GB")
    else (1, sizeStr) in
  match ParseInt sizeStr with
  | None => (0, Some NumError)
  | Some value => (wrap64 (value * multiplier), None)
  end.

(** The multiplier of each unit that [parseMemorySize] knows. *)
Definition unitMultiplier (unit : string) : option Z :=
  if decide (unit = EmptyString) then Some 1
  else if decide (unit = "KB"%string) then Some 1024
  else if decide (unit = "MB"%string) then Some (1024 * 1024)
  else if decide (unit = "GB"%string) then Some (1024 * 1024 * 1024)
  else None.

(** The number written by decimal digits. *)
Definition decimalValue (ds : list Ascii.ascii) : Z :=
  fold_left (λ acc c, 10 * acc + default 0 (digitValue c)) ds 0.

Definition isDigit (c : Ascii.ascii) : Prop := is_Some (digitValue c).

(** [main] up to the two simulations.  [osArgs] is [os.Args]; [readLines]
    gives, for a path, the lines that the scanner yields from that file, or
    [None] when the file cannot be opened.  The messages of [main] itself
    are not modelled. *)
Definition mainProgram (ToUpper TrimSpace : string → string)
    (readLines : string → option (list string)) (osArgs : list string)
    : M (SimulationResult * SimulationResult) :=
  if len osArgs <? 3 then exit 1
  else
    let args := drop 1 osArgs in
    let '(didacticMode, args) :=
      if bool_decide (args !! 0%nat = Some "--didatico"%string)
      then (true, drop 1 args) else (false, args) in
    if negb (len args =? 2) then exit 1
    else
      let memorySizeStr := default EmptyString (args !! 1%nat) in
      let physicalMemoryBytes := fst (parseMemorySize ToUpper TrimSpace memorySizeStr) in
      if physicalMemoryBytes <? pageSizeBytes then exit 1
      else
        let filePath := default EmptyString (args !! 0%nat) in
        match readLines filePath with
        | None => exit 1
        | Some pageReferences =>
            let pagePositions := buildPagePositions pageReferences in
            let numFrames := Z.quot physicalMemoryBytes pageSizeBytes in
            optimalResult ← optimalAlgorithmOptimized pageReferences numFrames
                              pagePositions didacticMode;
            fifoResult ← fifoAlgorithm pageReferences numFrames didacticMode;
            ret (optimalResult, fifoResult)
        end.

(** The command line [prog [--didatico] filePath memorySizeStr]. *)
Definition commandLine (prog : string) (didacticMode : bool) (filePath memorySizeStr : string)
    : list string :=
  prog :: (if didacticMode then ["--didatico"%string] else []) ++ [filePath; memorySizeStr].

(** The rows of the table: the distinct pages, which [main] takes out of a
    map in the unspecified order [order], sorted, each with its load counts
    under the optimal policy and under FIFO. *)
Definition loadTable (order : list string) (optimalResult fifoResult : SimulationResult)
    : list (string * Z * Z) :=
  (λ page, (page, default 0 (loadCounts optimalResult !! page),
                  default 0 (loadCounts fifoResult !! page)))
    <$> merge_sort String.leb order.

(** [order] lists the distinct pages of [trace], each once. *)
Definition enumerates (trace order : list string) : Prop :=
  NoDup order ∧ ∀ p, p ∈ order ↔ p ∈ trace.

Definition sumList (l : list Z) : Z := foldr Z.add 0 l.

(** * Properties *)

(** ** Erasure of the printing *)

Ltac unfold_M :=
  unfold mbind, mret, M_bind, M_ret, bind, ret, raise, exit, printf, when in *.

Lemma fifo_step_erase numFrames didacticMode i page st out :
  fst (fifoStep numFrames didacticMode i page st out) = fifoNext numFrames page st.
Proof.
  unfold fifoStep, fifoNext. unfold_M.
  destruct didacticMode; simpl;
    destruct (decide (page ∈ f_pageInMemorySet st)); simpl; try reflexivity;
    destruct (len (f_memoryFrames st) =? numFrames); simpl; try reflexivity;
    destruct (f_memoryFrames st) as [|e rest]; simpl; try reflexivity;
    destruct (bool_decide (e ≠ EmptyString)); reflexivity.
Qed.

Lemma fifo_loop_erase numFrames didacticMode pageReferences : ∀ i st out,
  fst (fifoLoop numFrames didacticMode i pageReferences st out)
  = fifoRun numFrames pageReferences st.
Proof.
  induction pageReferences as [|page rest IH]; intros i st out; [reflexivity|].
  simpl. unfold mbind, M_bind, bind.
  pose proof (fifo_step_erase numFrames didacticMode i page st out) as E.
  destruct (fifoStep numFrames didacticMode i page st out) as [[st'|p|c] out'];
    simpl in E; rewrite <- E; [apply IH | reflexivity | reflexivity].
Qed.

Lemma fifo_erase_from pageReferences numFrames didacticMode out :
  fst (fifoAlgorithm pageReferences numFrames didacticMode out)
  = omap f_result (fifoRun numFrames pageReferences fifoInit).
Proof.
  unfold fifoAlgorithm, mbind, M_bind, bind.
  pose proof (fifo_loop_erase numFrames didacticMode pageReferences 0 fifoInit out) as E.
  destruct (fifoLoop numFrames didacticMode 0 pageReferences fifoInit out)
    as [[st'|p|c] out']; simpl in E; rewrite <- E; reflexivity.
Qed.

Lemma fifo_erase pageReferences numFrames didacticMode :
  result_of (fifoAlgorithm pageReferences numFrames didacticMode)
  = omap f_result (fifoRun numFrames pageReferences fifoInit).
Proof. apply fifo_erase_from. Qed.

Lemma opt_step_erase numFrames pagePositions didacticMode i page st out :
  fst (optStep numFrames pagePositions didacticMode i page st out)
  = optNext numFrames pagePositions i page st.
Proof.
  unfold optStep, optNext. unfold_M.
  destruct didacticMode; simpl;
    destruct (decide (page ∈ o_pageInMemorySet st)); simpl; try reflexivity;
    destruct (len (o_memoryFrames st) <? numFrames); simpl; try reflexivity;
    destruct (scanFrames pagePositions i (o_memoryFrames st) 0 (-1) (-1)
                (o_nextUseCursor st)) as [v cur]; simpl;
    destruct (index (o_memoryFrames st) v) as [e|]; simpl; try reflexivity;
    destruct (bool_decide (e ≠ EmptyString)); reflexivity.
Qed.

Lemma opt_loop_erase numFrames pagePositions didacticMode pageReferences : ∀ i st out,
  fst (optLoop numFrames pagePositions didacticMode i pageReferences st out)
  = optRun numFrames pagePositions i pageReferences st.
Proof.
  induction pageReferences as [|page rest IH]; intros i st out; [reflexivity|].
  simpl. unfold mbind, M_bind, bind.
  pose proof (opt_step_erase numFrames pagePositions didacticMode i page st out) as E.
  destruct (optStep numFrames pagePositions didacticMode i page st out)
    as [[st'|p|c] out']; simpl in E; rewrite <- E; [apply IH | reflexivity | reflexivity].
Qed.

Lemma makeslice_accepts capacity out :
  0 ≤ capacity ≤ maxFrames → makeslice capacity out = (Returned tt, out).
Proof.
  intros Hn. unfold makeslice, maxAlloc, stringSize. unfold maxFrames in Hn.
  destruct (Z.ltb_spec capacity 0); [lia|].
  destruct (Z.ltb_spec (2 ^ 48) (16 * capacity)); [lia|done].
Qed.

Lemma makeslice_panics capacity out :
  capacity < 0 ∨ maxFrames < capacity →
  makeslice capacity out = (Panicked MakesliceCapOutOfRange, out).
Proof.
  intros Hn. unfold makeslice, maxAlloc, stringSize. unfold maxFrames in Hn.
  destruct (Z.ltb_spec capacity 0); [done|].
  destruct (Z.ltb_spec (2 ^ 48) (16 * capacity)); [done|lia].
Qed.

Lemma opt_erase_from pageReferences numFrames pagePositions didacticMode out :
  0 ≤ numFrames ≤ maxFrames →
  fst (optimalAlgorithmOptimized pageReferences numFrames pagePositions didacticMode out)
  = omap o_result (optRun numFrames pagePositions 0 pageReferences optInit).
Proof.
  intros Hn. unfold optimalAlgorithmOptimized, mbind, M_bind, bind.
  rewrite makeslice_accepts by done.
  pose proof (opt_loop_erase numFrames pagePositions didacticMode pageReferences 0 optInit out)
    as E.
  destruct (optLoop numFrames pagePositions didacticMode 0 pageReferences optInit out)
    as [[st'|p|c] out']; simpl in E; rewrite <- E; reflexivity.
Qed.

Lemma opt_erase pageReferences numFrames pagePositions didacticMode :
  0 ≤ numFrames ≤ maxFrames →
  result_of (optimalAlgorithmOptimized pageReferences numFrames pagePositions didacticMode)
  = omap o_result (optRun numFrames pagePositions 0 pageReferences optInit).
Proof. apply opt_erase_from. Qed.

Lemma opt_negative_frames pageReferences numFrames pagePositions didacticMode :
  numFrames < 0 →
  result_of (optimalAlgorithmOptimized pageReferences numFrames pagePositions didacticMode)
  = Panicked MakesliceCapOutOfRange.
Proof.
  intros Hn. unfold result_of, optimalAlgorithmOptimized, mbind, M_bind, bind.
  rewrite makeslice_panics; [reflexivity | by left].
Qed.

Lemma opt_too_many_frames pageReferences numFrames pagePositions didacticMode :
  maxFrames < numFrames →
  result_of (optimalAlgorithmOptimized pageReferences numFrames pagePositions didacticMode)
  = Panicked MakesliceCapOutOfRange.
Proof.
  intros Hn. unfold result_of, optimalAlgorithmOptimized, mbind, M_bind, bind.
  rewrite makeslice_panics; [reflexivity | by right].
Qed.

(** ** Bookkeeping shared by the two simulators *)

Lemma sumValues_empty : sumValues ∅ = 0.
Proof. apply map_fold_empty. Qed.

Lemma sumValues_insert_fresh (m : gmap string Z) k v :
  m !! k = None → sumValues (<[k:=v]> m) = v + sumValues m.
Proof.
  intros Hk. unfold sumValues. rewrite map_fold_insert_L; [reflexivity| |exact Hk].
  intros; lia.
Qed.

Lemma sumValues_insert (m : gmap string Z) k v :
  sumValues (<[k:=v]> m) = sumValues m - default 0 (m !! k) + v.
Proof.
  destruct (m !! k) as [old|] eqn:Hk; simpl.
  - rewrite <- (insert_delete_eq m k v).
    rewrite <- (insert_delete_id m k old Hk) at 2.
    rewrite !sumValues_insert_fresh by apply lookup_delete_eq. lia.
  - rewrite sumValues_insert_fresh by exact Hk. lia.
Qed.

Lemma sumValues_ge_size (m : gmap string Z) :
  (∀ k v, m !! k = Some v → 1 ≤ v) → Z.of_nat (size m) ≤ sumValues m.
Proof.
  induction m as [|k v m Hk _ IH] using map_first_key_ind; intros Hpos.
  - rewrite sumValues_empty, map_size_empty. lia.
  - rewrite sumValues_insert_fresh, map_size_insert_None by exact Hk.
    assert (1 ≤ v) by (apply (Hpos k); apply lookup_insert_eq).
    assert (Z.of_nat (size m) ≤ sumValues m).
    { apply IH. intros k' v' Hk'. apply (Hpos k').
      rewrite lookup_insert_ne; [exact Hk'|]. intros ->. congruence. }
    lia.
Qed.

Lemma len_app {A} (l1 l2 : list A) : len (l1 ++ l2) = len l1 + len l2.
Proof. unfold len. rewrite length_app. lia. Qed.

Lemma len_nonneg {A} (l : list A) : 0 ≤ len l.
Proof. unfold len. lia. Qed.

Lemma list_to_set_replace (frames : list string) (v : nat) (old page : string) :
  NoDup frames → frames !! v = Some old →
  list_to_set (C:=gset string) (<[v:=page]> frames)
  = {[page]} ∪ (list_to_set frames ∖ {[old]}).
Proof.
  intros Hnd Hv.
  assert (Hlt : (v < length frames)%nat) by (eapply lookup_lt_Some; eauto).
  rewrite insert_take_drop by exact Hlt.
  rewrite <- (take_drop_middle frames v old Hv) in Hnd |- * at 3.
  apply NoDup_app in Hnd as (_ & Hdisj & Hnd2).
  apply NoDup_cons in Hnd2 as [Hold _].
  rewrite !list_to_set_app_L, !list_to_set_cons.
  assert (old ∉ take v frames).
  { intros Hin. apply (Hdisj old Hin). left. }
  set_solver.
Qed.

Lemma NoDup_replace (frames : list string) (v : nat) (old page : string) :
  NoDup frames → frames !! v = Some old → page ∉ frames →
  NoDup (<[v:=page]> frames).
Proof.
  intros Hnd Hv Hp.
  assert (Hlt : (v < length frames)%nat) by (eapply lookup_lt_Some; eauto).
  rewrite insert_take_drop by exact Hlt.
  rewrite <- (take_drop_middle frames v old Hv) in Hnd, Hp.
  apply NoDup_app in Hnd as (Hnd1 & Hdisj & Hnd2).
  apply NoDup_cons in Hnd2 as [Hold Hnd2].
  apply NoDup_app. split; [exact Hnd1|]. split.
  - intros x Hx Hx'. apply elem_of_cons in Hx' as [->|Hx'].
    + apply Hp. apply elem_of_app. left. exact Hx.
    + apply (Hdisj x Hx). right. exact Hx'.
  - apply NoDup_cons. split; [|exact Hnd2].
    intros Hin. apply Hp. apply elem_of_app. right. right. exact Hin.
Qed.

Lemma bookkeeping_init numFrames :
  0 ≤ numFrames → bookkeeping numFrames [] ∅ [] {| pageFaults := 0; loadCounts := ∅ |}.
Proof.
  intros Hn. split; simpl; try done; try constructor; unfold len; simpl; lia.
Qed.

Lemma countFault_sum page r :
  pageFaults r = sumValues (loadCounts r) →
  pageFaults (countFault page r) = sumValues (loadCounts (countFault page r)).
Proof. simpl. intros ->. rewrite sumValues_insert. lia. Qed.

Lemma countFault_pos page r :
  (∀ p c, loadCounts r !! p = Some c → 1 ≤ c) →
  ∀ p c, loadCounts (countFault page r) !! p = Some c → 1 ≤ c.
Proof.
  intros Hpos p c. simpl. destruct (decide (page = p)) as [->|Hne].
  - rewrite lookup_insert_eq. intros [= <-].
    destruct (loadCounts r !! p) as [c0|] eqn:E; simpl; [|lia].
    specialize (Hpos p c0 E). lia.
  - rewrite lookup_insert_ne by exact Hne. apply Hpos.
Qed.

Lemma bookkeeping_hit numFrames seen S frames r page :
  bookkeeping numFrames seen S frames r → page ∈ S →
  bookkeeping numFrames (seen ++ [page]) S frames r.
Proof.
  intros [] Hin. split; try done.
  - rewrite list_to_set_app_L. set_solver.
  - rewrite list_to_set_app_L. set_solver.
  - rewrite len_app. unfold len at 2. simpl. lia.
Qed.

Lemma bookkeeping_fault_common numFrames seen S frames r page S' frames' :
  bookkeeping numFrames seen S frames r →
  NoDup frames' → S' = list_to_set frames' → S' ⊆ {[page]} ∪ S →
  len frames' = Z.min (pageFaults r + 1) numFrames →
  page ∉ S →
  bookkeeping numFrames (seen ++ [page]) S' frames' (countFault page r).
Proof.
  intros [] Hnd Hmirror Hsub Hlen Hnotin. split; try done.
  - by apply countFault_sum.
  - simpl. rewrite dom_insert_L, list_to_set_app_L. set_solver.
  - by apply countFault_pos.
  - rewrite list_to_set_app_L. set_solver.
  - simpl. rewrite len_app. unfold len at 2. simpl.
    lia.
Qed.

(** ** The preprocessing: positions of a page *)

Lemma occFrom_app refs1 : ∀ i refs2 q,
  occFrom i (refs1 ++ refs2) q = occFrom i refs1 q ++ occFrom (i + len refs1) refs2 q.
Proof.
  induction refs1 as [|p refs1 IH]; intros i refs2 q; simpl.
  - unfold len; simpl. by rewrite Z.add_0_r.
  - rewrite IH. replace (i + 1 + len refs1) with (i + len (p :: refs1))
      by (unfold len; simpl; lia).
    by destruct (decide (p = q)).
Qed.

Lemma occFrom_elem refs : ∀ i q j,
  j ∈ occFrom i refs q ↔ i ≤ j ∧ refs !! Z.to_nat (j - i) = Some q.
Proof.
  induction refs as [|p refs IH]; intros i q j; simpl.
  - split; [by intros ?%elem_of_nil | by intros [_ ?]].
  - assert (Hstep : j ∈ occFrom (i + 1) refs q ↔ i < j ∧ (p :: refs) !! Z.to_nat (j - i) = Some q).
    { rewrite IH. split; intros [H1 H2]; (split; [lia|]).
      - replace (Z.to_nat (j - i)) with (S (Z.to_nat (j - (i + 1)))) by lia. exact H2.
      - replace (Z.to_nat (j - i)) with (S (Z.to_nat (j - (i + 1)))) in H2 by lia. exact H2. }
    destruct (decide (p = q)) as [->|Hne].
    + rewrite elem_of_cons, Hstep. split.
      * intros [->|[? ?]]; [|split; [lia|done]].
        split; [lia|]. by rewrite Z.sub_diag.
      * intros [Hle Hl]. destruct (decide (j = i)) as [|]; [by left|right].
        split; [lia|done].
    + rewrite Hstep. split; [intros [? ?]; split; [lia|done]|].
      intros [Hle Hl]. split; [|done].
      destruct (decide (j = i)) as [->|]; [|lia].
      rewrite Z.sub_diag in Hl. simpl in Hl. congruence.
Qed.

Lemma occFrom_bounds refs i q j :
  j ∈ occFrom i refs q → i ≤ j < i + len refs.
Proof.
  rewrite occFrom_elem. intros [Hle Hl]. apply lookup_lt_Some in Hl.
  unfold len. lia.
Qed.

Lemma occFrom_sorted refs : ∀ i q, StronglySorted Z.lt (occFrom i refs q).
Proof.
  induction refs as [|p refs IH]; intros i q; simpl; [constructor|].
  destruct (decide (p = q)); [|apply IH].
  constructor; [apply IH|].
  apply Forall_forall. intros j Hj%occFrom_bounds. lia.
Qed.

Lemma occFrom_nil refs i q : occFrom i refs q = [] ↔ q ∉ refs.
Proof.
  revert i. induction refs as [|p refs IH]; intros i; simpl.
  - split; [intros _; apply not_elem_of_nil | done].
  - rewrite not_elem_of_cons. destruct (decide (p = q)) as [->|Hne].
    + split; [done | intros [? _]; done].
    + rewrite IH. split; [intros ?; split; [congruence|done] | by intros [_ ?]].
Qed.

Lemma occFrom_head refs : ∀ i q j tl (m : nat),
  occFrom i refs q = j :: tl → (q ∈ take m refs ↔ j < i + Z.of_nat m).
Proof.
  induction refs as [|p refs IH]; intros i q j tl m; simpl; [done|].
  destruct (decide (p = q)) as [->|Hne].
  - intros [= <- _]. destruct m as [|m]; simpl.
    + split; [by intros ?%elem_of_nil | lia].
    + split; [lia | intros _; left].
  - intros Hocc. pose proof (occFrom_bounds refs (i + 1) q j) as Hb.
    rewrite Hocc in Hb. specialize (Hb ltac:(left)).
    destruct m as [|m]; simpl.
    + split; [by intros ?%elem_of_nil | lia].
    + rewrite elem_of_cons, (IH (i + 1) q j tl m Hocc).
      split; [intros [?|?]; [congruence|lia] | intros ?; right; lia].
Qed.

Lemma buildPositionsFrom_lookup refs : ∀ i (m : gmap string (list Z)) q,
  buildPositionsFrom i refs m !! q
  = match occFrom i refs q with
    | [] => m !! q
    | l => Some (default [] (m !! q) ++ l)
    end.
Proof.
  induction refs as [|p refs IH]; intros i m q; simpl; [done|].
  rewrite IH. destruct (decide (p = q)) as [->|Hne].
  - rewrite lookup_insert_eq. simpl.
    destruct (occFrom (i + 1) refs q); [done|]. by rewrite <- app_assoc.
  - by rewrite lookup_insert_ne.
Qed.

Lemma buildPagePositions_lookup refs q :
  default [] (buildPagePositions refs !! q) = occFrom 0 refs q.
Proof.
  unfold buildPagePositions. rewrite buildPositionsFrom_lookup, lookup_empty.
  by destruct (occFrom 0 refs q).
Qed.

(** ** The forward cursor *)

Lemma advanceCursor_past past : ∀ rest cursor i,
  Forall (λ pos, pos ≤ i) past →
  advanceCursor (past ++ rest) cursor i = advanceCursor rest (cursor + len past) i.
Proof.
  induction past as [|x past IH]; intros rest cursor i Hall; simpl.
  - unfold len; simpl. by rewrite Z.add_0_r.
  - apply Forall_cons in Hall as [Hx Hall].
    destruct (Z.leb_spec x i); [|lia]. rewrite IH by exact Hall.
    f_equal. unfold len; simpl. lia.
Qed.

Lemma advanceCursor_stop rest cursor i :
  (∀ pos, head rest = Some pos → i < pos) → advanceCursor rest cursor i = cursor.
Proof.
  destruct rest as [|x rest]; simpl; [done|]. intros H.
  specialize (H x eq_refl). destruct (Z.leb_spec x i); [lia|done].
Qed.

Lemma nextUse_spec seen page rest cur q :
  cursorsWithin seen cur → q ≠ page →
  nextUse (buildPagePositions (seen ++ page :: rest)) cur (len seen) q
  = (len (occFrom 0 seen q), nextPosOf (len seen + 1) rest q).
Proof.
  intros Hcur Hne. unfold nextUse, nextPosOf.
  rewrite buildPagePositions_lookup, occFrom_app. simpl.
  destruct (decide (page = q)) as [|_]; [congruence|].
  rewrite Z.add_0_l.
  set (old := occFrom 0 seen q). set (new := occFrom (len seen + 1) rest q).
  specialize (Hcur q). fold old in Hcur.
  set (c := default 0 (cur !! q)) in *.
  assert (Hskip : skipPast (old ++ new) c (len seen) = len old).
  { unfold skipPast. rewrite drop_app_le by (unfold len in Hcur; lia).
    rewrite advanceCursor_past.
    - rewrite advanceCursor_stop.
      + unfold len. rewrite length_drop. unfold len in Hcur. lia.
      + intros pos Hpos. assert (pos ∈ new) as Hin.
        { destruct new; simplify_eq/=. left. }
        apply occFrom_bounds in Hin. lia.
    - apply Forall_forall. intros pos Hpos.
      assert (pos ∈ old) as Hin by (eapply subseteq_drop; eauto).
      apply occFrom_bounds in Hin. lia. }
  rewrite Hskip. f_equal.
  rewrite len_app. destruct new as [|j tl] eqn:Hnew.
  - unfold len at 3; simpl. rewrite Z.add_0_r, Z.ltb_irrefl. done.
  - destruct (Z.ltb_spec (len old) (len old + len (j :: tl)));
      [|unfold len in *; simpl in *; lia].
    unfold index. destruct (Z.ltb_spec (len old) 0); [unfold len in *; lia|].
    unfold len. rewrite Nat2Z.id, lookup_app_r by lia.
    by rewrite Nat.sub_diag.
Qed.

(** ** The choice of the victim *)

Lemma cursorsWithin_insert seen cur q :
  cursorsWithin seen cur → cursorsWithin seen (<[q := len (occFrom 0 seen q)]> cur).
Proof.
  intros Hcur q'. destruct (decide (q = q')) as [->|Hne].
  - rewrite lookup_insert_eq. simpl. pose proof (len_nonneg (occFrom 0 seen q')). lia.
  - rewrite lookup_insert_ne by exact Hne. apply Hcur.
Qed.

Lemma cursorsWithin_snoc seen page cur :
  cursorsWithin seen cur → cursorsWithin (seen ++ [page]) cur.
Proof.
  intros Hcur q. specialize (Hcur q). rewrite occFrom_app, len_app.
  pose proof (len_nonneg (occFrom (0 + len seen) [page] q)). lia.
Qed.

Lemma scanFrames_spec seen page rest frames : ∀ idx far vic cur,
  cursorsWithin seen cur → page ∉ frames →
  let scan := scanFrames (buildPagePositions (seen ++ page :: rest)) (len seen)
                frames idx far vic cur in
  fst scan = pickVictim (map (nextPosOf (len seen + 1) rest) frames) idx far vic
  ∧ cursorsWithin seen (snd scan).
Proof.
  induction frames as [|q frames IH]; intros idx far vic cur Hcur Hnotin;
    cbv zeta; cbn [scanFrames map].
  - done.
  - apply not_elem_of_cons in Hnotin as [Hne Hnotin].
    rewrite (nextUse_spec seen page rest cur q Hcur) by congruence.
    cbv zeta; cbn [fst snd].
    pose proof (cursorsWithin_insert seen cur q Hcur) as Hcur'.
    cbn [pickVictim].
    destruct (nextPosOf (len seen + 1) rest q =? -1); [split; [done|exact Hcur']|].
    destruct (nextPosOf (len seen + 1) rest q >? far); by apply IH.
Qed.

Lemma pickVictim_first_never nexts : ∀ (k : nat) idx far vic,
  nexts !! k = Some (-1) →
  (∀ k' : nat, (k' < k)%nat → nexts !! k' ≠ Some (-1)) →
  pickVictim nexts idx far vic = idx + Z.of_nat k.
Proof.
  induction nexts as [|np nexts IH]; intros k idx far vic Hk Hfirst; [done|].
  simpl. destruct k as [|k]; simpl in Hk.
  - injection Hk as ->. simpl. lia.
  - destruct (Z.eqb_spec np (-1)) as [->|Hnp].
    + exfalso. apply (Hfirst 0%nat); [lia|done].
    + assert (Hrec : ∀ f v, pickVictim nexts (idx + 1) f v = idx + 1 + Z.of_nat k).
      { intros f v. apply IH; [exact Hk|].
        intros k' Hlt. apply (Hfirst (S k')). lia. }
      destruct (np >? far); rewrite Hrec; lia.
Qed.

Lemma pickVictim_farthest nexts : ∀ idx far vic,
  -1 ∉ nexts →
  (Forall (λ np, np ≤ far) nexts ∧ pickVictim nexts idx far vic = vic)
  ∨ (∃ (k : nat) m,
        pickVictim nexts idx far vic = idx + Z.of_nat k ∧
        nexts !! k = Some m ∧ far < m ∧
        (∀ (k' : nat) m', (k' < k)%nat → nexts !! k' = Some m' → m' < m) ∧
        (∀ (k' : nat) m', nexts !! k' = Some m' → m' ≤ m)).
Proof.
  induction nexts as [|np nexts IH]; intros idx far vic Hno; simpl.
  - left. split; [constructor|done].
  - apply not_elem_of_cons in Hno as [Hne Hno].
    destruct (Z.eqb_spec np (-1)) as [|_]; [congruence|].
    destruct (Z.gtb_spec np far) as [Hgt|Hle].
    + right. destruct (IH (idx + 1) np idx Hno) as [[Hall ->]|(k & m & -> & Hk & Hm & Hbefore & Hmax)].
      * exists 0%nat, np. simpl. repeat split; try lia; try done.
        intros [|k'] m' Hk'; simpl in Hk'; [injection Hk' as <-; lia|].
        rewrite Forall_forall in Hall. apply Hall.
        eapply list_elem_of_lookup_2; eauto.
      * exists (S k), m. simpl. repeat split; try lia; try done.
        -- intros [|k'] m' Hlt Hk'; simpl in Hk'; [injection Hk' as <-; lia|].
           apply (Hbefore k'); [lia|done].
        -- intros [|k'] m' Hk'; simpl in Hk'; [injection Hk' as <-; lia|].
           by apply (Hmax k').
    + destruct (IH (idx + 1) far vic Hno) as [[Hall ->]|(k & m & -> & Hk & Hm & Hbefore & Hmax)].
      * left. split; [|done]. constructor; [lia|done].
      * right. exists (S k), m. simpl. repeat split; try lia; try done.
        -- intros [|k'] m' Hlt Hk'; simpl in Hk'; [injection Hk' as <-; lia|].
           apply (Hbefore k'); [lia|done].
        -- intros [|k'] m' Hk'; simpl in Hk'; [injection Hk' as <-; lia|].
           by apply (Hmax k').
Qed.

Lemma pickVictim_chosen nexts :
  nexts ≠ [] → Forall (λ np, -1 ≤ np) nexts →
  ∃ k : nat, pickVictim nexts 0 (-1) (-1) = Z.of_nat k ∧ chosen nexts k.
Proof.
  intros Hne Hall.
  destruct (list_find (λ np, np = -1) nexts) as [[k np]|] eqn:Hfind.
  - apply list_find_Some in Hfind as (Hk & -> & Hfirst).
    exists k. split.
    + rewrite (pickVictim_first_never nexts k); [lia|done|].
      intros k' Hlt Hk'. by apply (Hfirst k' (-1)).
    + left. split; [done|]. intros k' Hlt Hk'. by apply (Hfirst k' (-1)).
  - apply list_find_None in Hfind.
    assert (Hno : -1 ∉ nexts).
    { intros Hin. rewrite Forall_forall in Hfind. by apply (Hfind (-1)). }
    destruct (pickVictim_farthest nexts 0 (-1) (-1) Hno)
      as [[Hle _]|(k & m & Hv & Hk & Hm & Hbefore & Hmax)].
    + exfalso. destruct nexts as [|np nexts]; [done|].
      apply Forall_cons in Hle as [Hle _]. apply Forall_cons in Hall as [Hge _].
      apply Hno. replace np with (-1) by lia. left.
    + exists k. split; [lia|]. right. split; [done|]. by exists m.
Qed.

Lemma nextPosOf_range b rest q : 0 ≤ b → nextPosOf b rest q = -1 ∨ b ≤ nextPosOf b rest q.
Proof.
  intros Hb. unfold nextPosOf. destruct (occFrom b rest q) as [|j tl] eqn:E; [by left|].
  right. assert (j ∈ occFrom b rest q) as Hin by (rewrite E; left).
  apply occFrom_bounds in Hin. lia.
Qed.

Lemma nextPosOf_never b rest q : 0 ≤ b → nextPosOf b rest q = -1 ↔ q ∉ rest.
Proof.
  intros Hb. rewrite <- (occFrom_nil rest b q). unfold nextPosOf.
  destruct (occFrom b rest q) as [|j tl] eqn:E; [done|].
  assert (j ∈ occFrom b rest q) as Hin by (rewrite E; left).
  apply occFrom_bounds in Hin. split; [lia|done].
Qed.

Lemma nextPosOf_take b rest q (m : nat) :
  0 ≤ b → q ∈ take m rest ↔ nextPosOf b rest q ≠ -1 ∧ nextPosOf b rest q < b + Z.of_nat m.
Proof.
  intros Hb. unfold nextPosOf. destruct (occFrom b rest q) as [|j tl] eqn:E.
  - apply occFrom_nil in E. split; [|by intros [? _]].
    intros Hin. exfalso. apply E. eapply subseteq_take; eauto.
  - rewrite (occFrom_head rest b q j tl m E).
    assert (j ∈ occFrom b rest q) as Hin by (rewrite E; left).
    apply occFrom_bounds in Hin. split; [intros ?; split; lia | by intros [_ ?]].
Qed.

(** ** Invariants of the two runs *)

Lemma fifoInv_init numFrames : 0 ≤ numFrames → fifoInv numFrames [] fifoInit.
Proof. apply bookkeeping_init. Qed.

Lemma optInv_init numFrames : 0 ≤ numFrames → optInv numFrames [] optInit.
Proof.
  intros Hn. split; [by apply bookkeeping_init|].
  intros q. simpl. rewrite lookup_empty. simpl. unfold len; simpl. lia.
Qed.

(** The three ways a step of FIFO goes. *)
Lemma fifoNext_hit numFrames page st :
  page ∈ f_pageInMemorySet st → fifoNext numFrames page st = Returned st.
Proof. intros Hin. unfold fifoNext. by destruct (decide _). Qed.

Lemma fifoNext_room numFrames page st :
  page ∉ f_pageInMemorySet st → len (f_memoryFrames st) ≠ numFrames →
  fifoNext numFrames page st
  = Returned {| f_pageInMemorySet := {[page]} ∪ f_pageInMemorySet st;
                f_memoryFrames := f_memoryFrames st ++ [page];
                f_result := countFault page (f_result st) |}.
Proof.
  intros Hin Hlen. unfold fifoNext. destruct (decide _); [done|].
  by destruct (Z.eqb_spec (len (f_memoryFrames st)) numFrames).
Qed.

Lemma fifoNext_evict numFrames page st oldest rest :
  page ∉ f_pageInMemorySet st → len (f_memoryFrames st) = numFrames →
  f_memoryFrames st = oldest :: rest →
  fifoNext numFrames page st
  = Returned {| f_pageInMemorySet := {[page]} ∪ (f_pageInMemorySet st ∖ {[oldest]});
                f_memoryFrames := rest ++ [page];
                f_result := countFault page (f_result st) |}.
Proof.
  intros Hin Hlen Hfr. unfold fifoNext. destruct (decide _); [done|].
  destruct (Z.eqb_spec (len (f_memoryFrames st)) numFrames); [|done].
  by rewrite Hfr.
Qed.

Lemma fifoNext_inv numFrames seen page st :
  1 ≤ numFrames → fifoInv numFrames seen st →
  ∃ st', fifoNext numFrames page st = Returned st' ∧ fifoInv numFrames (seen ++ [page]) st'.
Proof.
  intros Hn Hinv. destruct (decide (page ∈ f_pageInMemorySet st)) as [Hin|Hnotin].
  - exists st. split; [by apply fifoNext_hit | by apply bookkeeping_hit].
  - pose proof Hinv as [Hnd Hmir Hlen _ _ _ _ _].
    assert (Hpf : page ∉ f_memoryFrames st) by (rewrite Hmir in Hnotin; set_solver).
    destruct (decide (len (f_memoryFrames st) = numFrames)) as [Hfull|Hroom].
    + destruct (f_memoryFrames st) as [|oldest rest] eqn:Hfr;
        [unfold len in Hfull; simpl in Hfull; lia|].
      eexists. split; [apply (fifoNext_evict _ _ _ oldest rest); by rewrite ?Hfr|].
      apply NoDup_cons in Hnd as [Hold Hnd]. apply not_elem_of_cons in Hpf as [Hne Hpf].
      apply (bookkeeping_fault_common _ _ _ _ _ _ _ _ Hinv); simpl.
      * apply NoDup_app. split; [done|]. split; [|apply NoDup_singleton].
        intros x Hx ->%list_elem_of_singleton. done.
      * rewrite Hmir, list_to_set_app_L. set_solver.
      * set_solver.
      * rewrite len_app. unfold len in *. simpl in *. lia.
      * done.
    + eexists. split; [by eapply fifoNext_room|].
      apply (bookkeeping_fault_common _ _ _ _ _ _ _ _ Hinv); simpl.
      * apply NoDup_app. split; [done|]. split; [|apply NoDup_singleton].
        intros x Hx ->%list_elem_of_singleton. done.
      * rewrite Hmir, list_to_set_app_L. set_solver.
      * set_solver.
      * rewrite len_app. unfold len at 2. simpl. lia.
      * done.
Qed.

Lemma fifoRun_inv numFrames refs : ∀ seen st,
  1 ≤ numFrames → fifoInv numFrames seen st →
  ∃ st', fifoRun numFrames refs st = Returned st' ∧ fifoInv numFrames (seen ++ refs) st'.
Proof.
  induction refs as [|page rest IH]; intros seen st Hn Hinv; simpl.
  - exists st. by rewrite app_nil_r.
  - destruct (fifoNext_inv numFrames seen page st Hn Hinv) as (st1 & -> & Hinv1).
    destruct (IH (seen ++ [page]) st1 Hn Hinv1) as (st' & -> & Hinv').
    exists st'. split; [done|]. by rewrite <- app_assoc in Hinv'.
Qed.

(** The ways a step of the optimal simulator goes. *)
Lemma optNext_hit numFrames pagePositions i page st :
  page ∈ o_pageInMemorySet st → optNext numFrames pagePositions i page st = Returned st.
Proof. intros Hin. unfold optNext. by destruct (decide _). Qed.

Lemma optNext_room numFrames pagePositions i page st :
  page ∉ o_pageInMemorySet st → len (o_memoryFrames st) < numFrames →
  optNext numFrames pagePositions i page st
  = Returned {| o_pageInMemorySet := {[page]} ∪ o_pageInMemorySet st;
                o_memoryFrames := o_memoryFrames st ++ [page];
                o_result := countFault page (o_result st);
                o_nextUseCursor := o_nextUseCursor st |}.
Proof.
  intros Hin Hlen. unfold optNext. destruct (decide _); [done|].
  destruct (Z.ltb_spec (len (o_memoryFrames st)) numFrames); [done|lia].
Qed.

(** A miss with every frame taken: the victim is the frame [chosen] from the
    next positions of the resident pages, and is overwritten in place. *)
Lemma optNext_evict numFrames seen page rest st :
  1 ≤ numFrames → optInv numFrames seen st →
  page ∉ o_pageInMemorySet st → ¬ len (o_memoryFrames st) < numFrames →
  ∃ (k : nat) evictedPage nextUseCursor,
    chosen (map (nextPosOf (len seen + 1) rest) (o_memoryFrames st)) k ∧
    o_memoryFrames st !! k = Some evictedPage ∧
    cursorsWithin seen nextUseCursor ∧
    optNext numFrames (buildPagePositions (seen ++ page :: rest)) (len seen) page st
    = Returned {| o_pageInMemorySet := {[page]} ∪ (o_pageInMemorySet st ∖ {[evictedPage]});
                  o_memoryFrames := <[k := page]> (o_memoryFrames st);
                  o_result := countFault page (o_result st);
                  o_nextUseCursor := nextUseCursor |}.
Proof.
  intros Hn [Hbk Hcur] Hnotin Hfull.
  pose proof Hbk as [Hnd Hmir Hlen _ _ _ _ _].
  assert (Hpf : page ∉ o_memoryFrames st) by (rewrite Hmir in Hnotin; set_solver).
  destruct (scanFrames_spec seen page rest (o_memoryFrames st) 0 (-1) (-1)
              (o_nextUseCursor st) Hcur Hpf) as [Hfst Hsnd].
  set (nexts := map (nextPosOf (len seen + 1) rest) (o_memoryFrames st)) in *.
  destruct (pickVictim_chosen nexts) as (k & Hk & Hch).
  { intros Hnil. apply (f_equal length) in Hnil. unfold nexts in Hnil.
    rewrite length_map in Hnil. unfold len in *. simpl in Hnil. lia. }
  { apply Forall_forall. intros np (q & -> & _)%list_elem_of_fmap.
    destruct (nextPosOf_range (len seen + 1) rest q) as [->|?];
      [pose proof (len_nonneg seen); lia|lia|pose proof (len_nonneg seen); lia]. }
  assert (is_Some (o_memoryFrames st !! k)) as [evicted Hev].
  { apply lookup_lt_is_Some. 
    assert (is_Some (nexts !! k)) as Hs.
    { destruct Hch as [[-> _]|[_ (m & -> & _)]]; eauto. }
    apply lookup_lt_is_Some in Hs. unfold nexts in Hs. by rewrite length_map in Hs. }
  exists k, evicted, (snd (scanFrames (buildPagePositions (seen ++ page :: rest)) (len seen)
                       (o_memoryFrames st) 0 (-1) (-1) (o_nextUseCursor st))).
  split; [done|]. split; [done|]. split; [done|].
  unfold optNext. destruct (decide _); [done|].
  destruct (Z.ltb_spec (len (o_memoryFrames st)) numFrames); [lia|].
  cbv zeta. rewrite Hfst, Hk.
  unfold index. destruct (Z.ltb_spec (Z.of_nat k) 0); [lia|].
  by rewrite Nat2Z.id, Hev.
Qed.

Lemma optNext_inv numFrames seen page rest st :
  1 ≤ numFrames → optInv numFrames seen st →
  ∃ st', optNext numFrames (buildPagePositions (seen ++ page :: rest)) (len seen) page st
         = Returned st'
         ∧ optInv numFrames (seen ++ [page]) st'.
Proof.
  intros Hn Hinv. pose proof Hinv as [Hbk Hcur].
  destruct (decide (page ∈ o_pageInMemorySet st)) as [Hin|Hnotin].
  - exists st. split; [by apply optNext_hit|].
    split; [by apply bookkeeping_hit | by apply cursorsWithin_snoc].
  - pose proof Hbk as [Hnd Hmir Hlen _ _ _ _ _].
    assert (Hpf : page ∉ o_memoryFrames st) by (rewrite Hmir in Hnotin; set_solver).
    destruct (decide (len (o_memoryFrames st) < numFrames)) as [Hroom|Hfull].
    + eexists. split; [by eapply optNext_room|].
      split; [|by apply cursorsWithin_snoc].
      apply (bookkeeping_fault_common _ _ _ _ _ _ _ _ Hbk); simpl.
      * apply NoDup_app. split; [done|]. split; [|apply NoDup_singleton].
        intros x Hx ->%list_elem_of_singleton. done.
      * rewrite Hmir, list_to_set_app_L. set_solver.
      * set_solver.
      * rewrite len_app. unfold len at 2. simpl. lia.
      * done.
    + destruct (optNext_evict numFrames seen page rest st Hn Hinv Hnotin Hfull)
        as (k & evicted & cur' & _ & Hev & Hcur' & ->).
      eexists. split; [done|].
      split; [|by apply cursorsWithin_snoc].
      apply (bookkeeping_fault_common _ _ _ _ _ _ _ _ Hbk); simpl.
      * by eapply NoDup_replace.
      * rewrite Hmir. symmetry. by apply list_to_set_replace.
      * set_solver.
      * unfold len in *. rewrite length_insert. lia.
      * done.
Qed.

Lemma optRun_inv numFrames rest : ∀ seen more st,
  1 ≤ numFrames → optInv numFrames seen st →
  ∃ st', optRun numFrames (buildPagePositions (seen ++ rest ++ more)) (len seen) rest st
         = Returned st'
         ∧ optInv numFrames (seen ++ rest) st'.
Proof.
  induction rest as [|page rest IH]; intros seen more st Hn Hinv; simpl.
  - exists st. by rewrite app_nil_r.
  - destruct (optNext_inv numFrames seen page (rest ++ more) st Hn Hinv) as (st1 & -> & Hinv1).
    destruct (IH (seen ++ [page]) more st1 Hn Hinv1) as (st' & Hrun & Hinv').
    exists st'. rewrite <- !app_assoc in Hrun, Hinv'. simpl in Hrun.
    rewrite len_app in Hrun. by split.
Qed.

(** ** The state after [n] references *)

Lemma fifoRun_app numFrames refs1 : ∀ refs2 st,
  fifoRun numFrames (refs1 ++ refs2) st
  = match fifoRun numFrames refs1 st with
    | Returned st' => fifoRun numFrames refs2 st'
    | Panicked p => Panicked p
    | Exited c => Exited c
    end.
Proof.
  induction refs1 as [|page refs1 IH]; intros refs2 st; simpl; [done|].
  destruct (fifoNext numFrames page st); [apply IH|done|done].
Qed.

Lemma optRun_app numFrames pagePositions refs1 : ∀ i refs2 st,
  optRun numFrames pagePositions i (refs1 ++ refs2) st
  = match optRun numFrames pagePositions i refs1 st with
    | Returned st' => optRun numFrames pagePositions (i + len refs1) refs2 st'
    | Panicked p => Panicked p
    | Exited c => Exited c
    end.
Proof.
  induction refs1 as [|page refs1 IH]; intros i refs2 st; simpl.
  - unfold len; simpl. by rewrite Z.add_0_r.
  - destruct (optNext numFrames pagePositions i page st); [|done|done].
    rewrite IH. replace (i + 1 + len refs1) with (i + len (page :: refs1))
      by (unfold len; simpl; lia). done.
Qed.

Lemma fifoAfter_inv numFrames trace n :
  1 ≤ numFrames →
  ∃ st, fifoAfter numFrames trace n = Returned st ∧ fifoInv numFrames (take n trace) st.
Proof.
  intros Hn. apply (fifoRun_inv numFrames (take n trace) [] fifoInit Hn).
  apply fifoInv_init. lia.
Qed.

Lemma optAfter_inv numFrames trace n :
  1 ≤ numFrames →
  ∃ st, optAfter numFrames trace n = Returned st ∧ optInv numFrames (take n trace) st.
Proof.
  intros Hn.
  destruct (optRun_inv numFrames (take n trace) [] (drop n trace) optInit Hn)
    as (st & Hrun & Hinv); [apply optInv_init; lia|].
  simpl in Hrun, Hinv. rewrite take_drop in Hrun. by exists st.
Qed.

Lemma fifoAfter_all numFrames trace :
  fifoAfter numFrames trace (length trace) = fifoRun numFrames trace fifoInit.
Proof. unfold fifoAfter. by rewrite firstn_all. Qed.

Lemma optAfter_all numFrames trace :
  optAfter numFrames trace (length trace)
  = optRun numFrames (buildPagePositions trace) 0 trace optInit.
Proof. unfold optAfter. by rewrite firstn_all. Qed.

Lemma fifoAfter_S numFrames trace n page st :
  trace !! n = Some page → fifoAfter numFrames trace n = Returned st →
  fifoAfter numFrames trace (S n) = fifoNext numFrames page st.
Proof.
  intros Hn Hst. unfold fifoAfter in *.
  rewrite (take_S_r _ _ _ Hn), fifoRun_app, Hst. simpl.
  by destruct (fifoNext numFrames page st).
Qed.

Lemma optAfter_S numFrames trace n page st :
  trace !! n = Some page → optAfter numFrames trace n = Returned st →
  optAfter numFrames trace (S n)
  = optNext numFrames (buildPagePositions trace) (Z.of_nat n) page st.
Proof.
  intros Hn Hst. unfold optAfter in *.
  rewrite (take_S_r _ _ _ Hn), optRun_app, Hst. cbn [optRun]. rewrite Z.add_0_l.
  assert (len (take n trace) = Z.of_nat n) as ->.
  { unfold len. rewrite length_take. apply lookup_lt_Some in Hn. lia. }
  by destruct (optNext numFrames (buildPagePositions trace) (Z.of_nat n) page st).
Qed.

(** Both simulators return, with their invariant, for at least one frame. *)
Lemma fifo_returns trace numFrames didacticMode :
  1 ≤ numFrames →
  ∃ st, fifoRun numFrames trace fifoInit = Returned st
        ∧ fifoInv numFrames trace st
        ∧ result_of (fifoAlgorithm trace numFrames didacticMode) = Returned (f_result st).
Proof.
  intros Hn. destruct (fifoRun_inv numFrames trace [] fifoInit Hn) as (st & Hrun & Hinv);
    [apply fifoInv_init; lia|].
  exists st. split; [done|]. split; [done|]. by rewrite fifo_erase, Hrun.
Qed.

Lemma opt_returns trace numFrames didacticMode :
  1 ≤ numFrames →
  ∃ st, optRun numFrames (buildPagePositions trace) 0 trace optInit = Returned st
        ∧ optInv numFrames trace st
        ∧ (numFrames ≤ maxFrames →
           result_of (optimalAlgorithmOptimized trace numFrames (buildPagePositions trace)
                        didacticMode) = Returned (o_result st)).
Proof.
  intros Hn. destruct (optAfter_inv numFrames trace (length trace) Hn) as (st & Hrun & Hinv).
  rewrite optAfter_all in Hrun. rewrite firstn_all in Hinv.
  exists st. split; [done|]. split; [done|]. intros Hmax.
  rewrite opt_erase by lia. by rewrite Hrun.
Qed.

(** The counters cannot overflow: they are bounded by the trace length. *)
Lemma fifo_faults_le_length trace numFrames st :
  1 ≤ numFrames → fifoRun numFrames trace fifoInit = Returned st →
  0 ≤ pageFaults (f_result st) ≤ len trace.
Proof.
  intros Hn Hrun. destruct (fifo_returns trace numFrames false Hn) as (st' & Hrun' & Hinv & _).
  rewrite Hrun in Hrun'. injection Hrun' as <-. apply Hinv.
Qed.

Lemma opt_faults_le_length trace numFrames st :
  1 ≤ numFrames →
  optRun numFrames (buildPagePositions trace) 0 trace optInit = Returned st →
  0 ≤ pageFaults (o_result st) ≤ len trace.
Proof.
  intros Hn Hrun. destruct (opt_returns trace numFrames false Hn) as (st' & Hrun' & Hinv & _).
  rewrite Hrun in Hrun'. injection Hrun' as <-. apply Hinv.
Qed.

Lemma bookkeeping_size numFrames seen S frames r :
  bookkeeping numFrames seen S frames r →
  Z.of_nat (size S) = Z.min (pageFaults r) numFrames.
Proof.
  intros []. subst S. rewrite size_list_to_set by done. done.
Qed.

Lemma bookkeeping_distinct numFrames seen S frames r :
  bookkeeping numFrames seen S frames r →
  Z.of_nat (size (dom (loadCounts r))) ≤ pageFaults r.
Proof.
  intros []. rewrite size_dom, bk_sum0. by apply sumValues_ge_size.
Qed.

Lemma take_subseteq_take {A} (l : list A) (n m : nat) :
  (n ≤ m)%nat → take n l ⊆ take m l.
Proof.
  intros Hle. replace (take n l) with (take n (take m l)).
  - apply subseteq_take.
  - rewrite take_take. f_equal. lia.
Qed.

Lemma trace_split (trace : list string) (n : nat) (page : string) :
  trace !! n = Some page →
  trace = take n trace ++ page :: drop (S n) trace ∧ len (take n trace) = Z.of_nat n.
Proof.
  intros Hn. split; [by rewrite take_drop_middle|].
  unfold len. rewrite length_take. apply lookup_lt_Some in Hn. lia.
Qed.

Lemma fifoNext_miss numFrames seen page st :
  1 ≤ numFrames → fifoInv numFrames seen st → page ∉ f_pageInMemorySet st →
  ∃ st', fifoNext numFrames page st = Returned st'
         ∧ f_result st' = countFault page (f_result st).
Proof.
  intros Hn Hinv Hnotin.
  destruct (decide (len (f_memoryFrames st) = numFrames)) as [Hfull|Hroom].
  - destruct (f_memoryFrames st) as [|oldest rest] eqn:Hfr.
    + pose proof (bk_len _ _ _ _ _ Hinv) as Hlen. rewrite Hfr in Hlen.
      unfold len in Hfull. simpl in Hfull. lia.
    + eexists. split; [apply (fifoNext_evict _ _ _ oldest rest); by rewrite ?Hfr|done].
  - eexists. split; [by apply fifoNext_room|done].
Qed.

Lemma optNext_miss numFrames seen page rest st :
  1 ≤ numFrames → optInv numFrames seen st → page ∉ o_pageInMemorySet st →
  ∃ st', optNext numFrames (buildPagePositions (seen ++ page :: rest)) (len seen) page st
         = Returned st'
         ∧ o_result st' = countFault page (o_result st).
Proof.
  intros Hn Hinv Hnotin.
  destruct (decide (len (o_memoryFrames st) < numFrames)) as [Hroom|Hfull].
  - eexists. split; [by apply optNext_room|done].
  - destruct (optNext_evict numFrames seen page rest st Hn Hinv Hnotin Hfull)
      as (k & evicted & cur' & _ & _ & _ & ->).
    eexists. split; [done|done].
Qed.

Lemma countFault_first page r :
  loadCounts r !! page = None → loadCounts (countFault page r) !! page = Some 1.
Proof. intros H. simpl. by rewrite lookup_insert_eq, H. Qed.

Lemma buildPositionsFrom_snoc refs : ∀ i (m : gmap string (list Z)) page,
  buildPositionsFrom i (refs ++ [page]) m
  = <[page := default [] (buildPositionsFrom i refs m !! page) ++ [i + len refs]]>
      (buildPositionsFrom i refs m).
Proof.
  induction refs as [|p refs IH]; intros i m page; simpl.
  - unfold len; simpl. by rewrite Z.add_0_r.
  - rewrite IH. do 3 f_equal. unfold len; simpl. lia.
Qed.

(** ** Capacity below one frame *)

Lemma pageSizeBytes_quot mem : pageSizeBytes ≤ mem → 1 ≤ Z.quot mem pageSizeBytes.
Proof.
  unfold pageSizeBytes. intros H. rewrite Z.quot_div_nonneg by lia.
  apply Z.div_le_lower_bound; lia.
Qed.

(** ** The victim of the optimal simulator *)

Lemma occFrom_head_first refs b q j tl :
  occFrom b refs q = j :: tl →
  b ≤ j ∧ refs !! Z.to_nat (j - b) = Some q
  ∧ ∀ d : nat, (d < Z.to_nat (j - b))%nat → refs !! d ≠ Some q.
Proof.
  intros Hocc.
  assert (j ∈ occFrom b refs q) as Hin by (rewrite Hocc; left).
  apply occFrom_elem in Hin as [Hle Hq]. split; [done|]. split; [done|].
  intros d Hd Hdq.
  assert (b + Z.of_nat d ∈ occFrom b refs q) as Hin'.
  { apply occFrom_elem. split; [lia|].
    replace (Z.to_nat (b + Z.of_nat d - b)) with d by lia. done. }
  pose proof (occFrom_sorted refs b q) as Hs. rewrite Hocc in Hs, Hin'.
  apply StronglySorted_inv in Hs as [_ Hall].
  apply elem_of_cons in Hin' as [Heq|Hin']; [lia|].
  rewrite Forall_forall in Hall. specialize (Hall _ Hin'). lia.
Qed.

Lemma nextPosOf_is seen page rest q :
  nextPosOf (len seen + 1) rest q ≠ -1 →
  nextOccurrenceIs (seen ++ page :: rest) (length seen) q
    (Z.to_nat (nextPosOf (len seen + 1) rest q)).
Proof.
  unfold nextPosOf. destruct (occFrom (len seen + 1) rest q) as [|j tl] eqn:E; [done|].
  intros _. destruct (occFrom_head_first rest _ q j tl E) as (Hle & Hq & Hfirst).
  unfold len in *. split; [lia|]. split.
  - rewrite lookup_app_r by lia.
    replace (Z.to_nat j - length seen)%nat with (S (Z.to_nat (j - (Z.of_nat (length seen) + 1))))
      by lia. done.
  - intros j' Hj'. rewrite lookup_app_r by lia.
    destruct (j' - length seen)%nat as [|d] eqn:Hd; [lia|]. simpl.
    apply Hfirst. lia.
Qed.

(** ** Optimality: the optimal simulator never faults more than FIFO *)

Lemma cnt_nil X : cnt [] X = 0%nat.
Proof.
  unfold cnt. replace (filter (λ x, x ∈ []) X) with (∅ : gset string);
    [apply size_empty|].
  apply set_eq. intros x. rewrite elem_of_filter. set_solver.
Qed.

Lemma cnt_le_size u X : (cnt u X ≤ size X)%nat.
Proof. apply subseteq_size. intros x. rewrite elem_of_filter. tauto. Qed.

Lemma cnt_mono u X Y : X ⊆ Y → (cnt u X ≤ cnt u Y)%nat.
Proof.
  intros Hsub. apply subseteq_size. intros x. rewrite !elem_of_filter. set_solver.
Qed.

Lemma cnt_all u X : (∀ x, x ∈ X → x ∈ u) → cnt u X = size X.
Proof.
  intros Hall. unfold cnt. f_equal. apply set_eq. intros x.
  rewrite elem_of_filter. split; [tauto|]. intros Hx. split; [by apply Hall|done].
Qed.

Lemma cnt_insert u X p :
  p ∉ X → cnt u ({[p]} ∪ X) = (occurs u p + cnt u X)%nat.
Proof.
  intros Hp. unfold cnt, occurs.
  rewrite filter_union_L by apply _.
  rewrite size_union by (apply disjoint_filter; set_solver).
  f_equal. destruct (decide (p ∈ u)) as [Hin|Hout].
  - rewrite (filter_singleton_True_L (λ x, x ∈ u) p Hin). apply size_singleton.
  - rewrite (filter_singleton_False_L (λ x, x ∈ u) p Hout). apply size_empty.
Qed.

Lemma cnt_cons_fresh u X p : p ∉ X → cnt (p :: u) X = cnt u X.
Proof.
  intros Hp. unfold cnt. f_equal. apply set_eq. intros x.
  rewrite !elem_of_filter, elem_of_cons. split; [|tauto].
  intros [[->|Hu] Hx]; [done|tauto].
Qed.

Lemma cnt_remove u X p :
  p ∈ X → cnt u X = (occurs u p + cnt u (X ∖ {[p]}))%nat.
Proof.
  intros Hp. rewrite <- cnt_insert by set_solver. f_equal.
  apply set_eq. intros x. destruct (decide (x = p)); set_solver.
Qed.

Lemma cnt_cons_member u X p :
  p ∈ X → (cnt (p :: u) X + occurs u p = 1 + cnt u X)%nat.
Proof.
  intros Hp. rewrite (cnt_remove (p :: u) X p Hp), (cnt_remove u X p Hp).
  rewrite cnt_cons_fresh by set_solver.
  unfold occurs at 1. destruct (decide (p ∈ p :: u)) as [|Hn]; [lia|].
  exfalso. apply Hn. left.
Qed.

Lemma cnt_remove_absent u X p : p ∉ u → cnt u (X ∖ {[p]}) = cnt u X.
Proof.
  intros Hp. unfold cnt. f_equal. apply set_eq. intros x.
  rewrite !elem_of_filter. split; [set_solver|].
  intros [Hu Hx]. split; [done|]. apply elem_of_difference. split; [done|].
  intros ->%elem_of_singleton. done.
Qed.

Lemma size_remove (X : gset string) p : p ∈ X → size X = S (size (X ∖ {[p]})).
Proof.
  intros Hp. rewrite size_difference by set_solver. rewrite size_singleton.
  assert (size X ≠ 0%nat); [|lia].
  intros H0. apply size_empty_inv in H0. set_solver.
Qed.

Lemma lag_same rest X d : lag rest X X d.
Proof. intros m. lia. Qed.

Lemma lag_hit_hit page rest X Y d :
  page ∈ X → page ∈ Y → lag (page :: rest) X Y d → lag rest X Y d.
Proof.
  intros HX HY Hlag m. specialize (Hlag (S m)). cbn [take] in Hlag.
  pose proof (cnt_cons_member (take m rest) X page HX).
  pose proof (cnt_cons_member (take m rest) Y page HY). lia.
Qed.

Lemma lag_hit_miss page rest X Y Y' d :
  page ∈ X → page ∉ Y → Y' ⊆ {[page]} ∪ Y →
  lag (page :: rest) X Y d → lag rest X Y' (S d).
Proof.
  intros HX HY Hsub Hlag m. specialize (Hlag (S m)). cbn [take] in Hlag.
  pose proof (cnt_cons_member (take m rest) X page HX).
  rewrite (cnt_cons_fresh _ Y page HY) in Hlag.
  pose proof (cnt_mono (take m rest) _ _ Hsub) as Hm.
  rewrite (cnt_insert _ Y page HY) in Hm.
  unfold occurs in *. destruct (decide (page ∈ take m rest)); lia.
Qed.

Lemma lag_miss_positive page rest X Y d :
  page ∉ X → page ∈ Y → lag (page :: rest) X Y d → (1 ≤ d)%nat.
Proof.
  intros HX HY Hlag. specialize (Hlag 1%nat). cbn [take] in Hlag. rewrite take_0 in Hlag.
  rewrite (cnt_cons_fresh _ X page HX), cnt_nil in Hlag.
  pose proof (cnt_cons_member [] Y page HY) as H. rewrite cnt_nil in H.
  unfold occurs in H. destruct (decide (page ∈ [])) as [Hin|]; [|lia].
  by apply elem_of_nil in Hin.
Qed.

Lemma lag_miss_hit page rest X Y ev d :
  page ∉ X → page ∈ Y → ev ∈ X → farthest rest X ev → (size Y ≤ size X)%nat →
  lag (page :: rest) X Y (S d) →
  lag rest ({[page]} ∪ (X ∖ {[ev]})) Y d.
Proof.
  intros HX HY Hev Hfar Hsize Hlag m. specialize (Hlag (S m)). cbn [take] in Hlag.
  set (u := take m rest) in *.
  rewrite (cnt_cons_fresh _ X page HX) in Hlag.
  pose proof (cnt_cons_member u Y page HY) as HY'.
  rewrite cnt_insert by set_solver.
  destruct (decide (ev ∈ u)) as [Hin|Hout].
  - assert (cnt u (X ∖ {[ev]}) = size (X ∖ {[ev]})) as ->.
    { apply cnt_all. intros x Hx. apply (Hfar m Hin). set_solver. }
    pose proof (size_remove X ev Hev).
    pose proof (cnt_remove u Y page HY) as HYr.
    pose proof (cnt_le_size u (Y ∖ {[page]})).
    pose proof (size_remove Y page HY). lia.
  - rewrite (cnt_remove_absent u X ev Hout). lia.
Qed.

Lemma lag_miss_miss page rest X Y Y' ev d :
  page ∉ X → page ∉ Y → ev ∈ X → farthest rest X ev →
  Y' ⊆ Y → (size Y' < size X)%nat →
  lag (page :: rest) X Y d →
  lag rest ({[page]} ∪ (X ∖ {[ev]})) ({[page]} ∪ Y') d.
Proof.
  intros HX HY Hev Hfar Hsub Hsize Hlag m. specialize (Hlag (S m)).
  cbn [take] in Hlag. set (u := take m rest) in *.
  rewrite (cnt_cons_fresh _ X page HX), (cnt_cons_fresh _ Y page HY) in Hlag.
  rewrite !cnt_insert by set_solver.
  pose proof (cnt_mono u _ _ Hsub).
  destruct (decide (ev ∈ u)) as [Hin|Hout].
  - assert (cnt u (X ∖ {[ev]}) = size (X ∖ {[ev]})) as ->.
    { apply cnt_all. intros x Hx. apply (Hfar m Hin). set_solver. }
    pose proof (size_remove X ev Hev).
    pose proof (cnt_le_size u Y'). lia.
  - rewrite (cnt_remove_absent u X ev Hout). lia.
Qed.

Lemma chosen_farthest b rest (frames : list string) (k : nat) ev :
  0 ≤ b → chosen (map (nextPosOf b rest) frames) k → frames !! k = Some ev →
  farthest rest (list_to_set frames) ev.
Proof.
  intros Hb Hch Hev m Hin x Hx.
  apply (nextPosOf_take b rest ev m Hb) in Hin as [Hne Hlt].
  apply elem_of_list_to_set, list_elem_of_lookup_1 in Hx as [k' Hx].
  assert (Hmap : ∀ (i : nat) q, frames !! i = Some q →
            map (nextPosOf b rest) frames !! i = Some (nextPosOf b rest q)).
  { intros i q Hq. by rewrite list_lookup_fmap, Hq. }
  destruct Hch as [[Hk _]|(Hno & mx & Hk & _ & Hmax)].
  - rewrite (Hmap k ev Hev) in Hk. by injection Hk.
  - rewrite (Hmap k ev Hev) in Hk. injection Hk as <-.
    apply (nextPosOf_take b rest x m Hb). split.
    + intros Heq. apply Hno. rewrite <- Heq.
      eapply list_elem_of_lookup_2. by apply Hmap.
    + pose proof (Hmax k' _ (Hmap k' x Hx)). lia.
Qed.

(** A miss of FIFO, by what becomes of the resident set. *)
Lemma fifoNext_miss_shape numFrames seen page st :
  1 ≤ numFrames → fifoInv numFrames seen st → page ∉ f_pageInMemorySet st →
  ∃ st', fifoNext numFrames page st = Returned st'
    ∧ pageFaults (f_result st') = pageFaults (f_result st) + 1
    ∧ ((f_pageInMemorySet st' = {[page]} ∪ f_pageInMemorySet st
        ∧ Z.of_nat (size (f_pageInMemorySet st)) < numFrames)
       ∨ (∃ oldest, oldest ∈ f_pageInMemorySet st
            ∧ f_pageInMemorySet st' = {[page]} ∪ (f_pageInMemorySet st ∖ {[oldest]})
            ∧ Z.of_nat (size (f_pageInMemorySet st)) = numFrames)).
Proof.
  intros Hn Hinv Hnotin.
  pose proof (bookkeeping_size _ _ _ _ _ Hinv) as Hsz.
  pose proof (bk_len _ _ _ _ _ Hinv) as Hlen.
  destruct (decide (len (f_memoryFrames st) = numFrames)) as [Hfull|Hroom].
  - destruct (f_memoryFrames st) as [|oldest rest] eqn:Hfr;
      [unfold len in Hfull; simpl in Hfull; lia|].
    eexists. split; [apply (fifoNext_evict _ _ _ oldest rest); by rewrite ?Hfr|].
    split; [done|]. right. exists oldest. simpl. split; [|split; [done|lia]].
    rewrite (bk_mirror _ _ _ _ _ Hinv), Hfr. set_solver.
  - eexists. split; [by apply fifoNext_room|]. split; [done|]. left. simpl.
    split; [done|lia].
Qed.

(** A miss of the optimal simulator, by what becomes of the resident set. *)
Lemma optNext_miss_shape numFrames seen page rest st :
  1 ≤ numFrames → optInv numFrames seen st → page ∉ o_pageInMemorySet st →
  ∃ st', optNext numFrames (buildPagePositions (seen ++ page :: rest)) (len seen) page st
         = Returned st'
    ∧ pageFaults (o_result st') = pageFaults (o_result st) + 1
    ∧ ((o_pageInMemorySet st' = {[page]} ∪ o_pageInMemorySet st
        ∧ Z.of_nat (size (o_pageInMemorySet st)) < numFrames)
       ∨ (∃ ev, ev ∈ o_pageInMemorySet st
            ∧ farthest rest (o_pageInMemorySet st) ev
            ∧ o_pageInMemorySet st' = {[page]} ∪ (o_pageInMemorySet st ∖ {[ev]})
            ∧ Z.of_nat (size (o_pageInMemorySet st)) = numFrames)).
Proof.
  intros Hn Hinv Hnotin. pose proof Hinv as [Hbk _].
  pose proof (bookkeeping_size _ _ _ _ _ Hbk) as Hsz.
  pose proof (bk_len _ _ _ _ _ Hbk) as Hlen.
  pose proof (bk_mirror _ _ _ _ _ Hbk) as Hmir.
  destruct (decide (len (o_memoryFrames st) < numFrames)) as [Hroom|Hfull].
  - eexists. split; [by apply optNext_room|]. split; [done|]. left. simpl.
    split; [done|lia].
  - destruct (optNext_evict numFrames seen page rest st Hn Hinv Hnotin Hfull)
      as (k & ev & cur' & Hch & Hev & _ & ->).
    eexists. split; [done|]. split; [done|]. right. exists ev. simpl.
    split; [|split; [|split; [done|lia]]].
    + rewrite Hmir. apply elem_of_list_to_set. by eapply list_elem_of_lookup_2.
    + rewrite Hmir. apply (chosen_farthest (len seen + 1) rest _ k); [|done|done].
      pose proof (len_nonneg seen). lia.
Qed.

(** The exchange argument, along the two runs: from states where FIFO is at
    most [d] pages ahead, the optimal simulator faults at most [d] times more
    than FIFO over the rest of the trace. *)
Lemma opt_le_fifo_from numFrames rest : ∀ seen so sf (d : nat),
  1 ≤ numFrames → optInv numFrames seen so → fifoInv numFrames seen sf →
  (numFrames ≤ pageFaults (o_result so)
   ∨ o_pageInMemorySet so = f_pageInMemorySet sf) →
  lag rest (o_pageInMemorySet so) (f_pageInMemorySet sf) d →
  ∃ so' sf',
    optRun numFrames (buildPagePositions (seen ++ rest)) (len seen) rest so = Returned so'
    ∧ fifoRun numFrames rest sf = Returned sf'
    ∧ pageFaults (o_result so') - pageFaults (o_result so)
      ≤ pageFaults (f_result sf') - pageFaults (f_result sf) + Z.of_nat d.
Proof.
  induction rest as [|page rest IH]; intros seen so sf d Hn Hoinv Hfinv Hfull Hlag.
  { exists so, sf. simpl. repeat split; lia. }
  pose proof (bookkeeping_size _ _ _ _ _ (proj1 Hoinv)) as HszO.
  pose proof (bookkeeping_size _ _ _ _ _ Hfinv) as HszF.
  destruct (optNext_inv numFrames seen page rest so Hn Hoinv) as (so1 & Ho1 & Hoinv1).
  destruct (fifoNext_inv numFrames seen page sf Hn Hfinv) as (sf1 & Hf1 & Hfinv1).
  assert (Hgoal : ∀ d1 : nat,
            (numFrames ≤ pageFaults (o_result so1)
             ∨ o_pageInMemorySet so1 = f_pageInMemorySet sf1) →
            lag rest (o_pageInMemorySet so1) (f_pageInMemorySet sf1) d1 →
            pageFaults (o_result so1) - pageFaults (o_result so) + Z.of_nat d1
            ≤ pageFaults (f_result sf1) - pageFaults (f_result sf) + Z.of_nat d →
            ∃ so' sf',
              optRun numFrames (buildPagePositions (seen ++ page :: rest)) (len seen)
                (page :: rest) so = Returned so'
              ∧ fifoRun numFrames (page :: rest) sf = Returned sf'
              ∧ pageFaults (o_result so') - pageFaults (o_result so)
                ≤ pageFaults (f_result sf') - pageFaults (f_result sf) + Z.of_nat d).
  { intros d1 Hfull1 Hlag1 Hcount.
    destruct (IH (seen ++ [page]) so1 sf1 d1 Hn Hoinv1 Hfinv1 Hfull1 Hlag1)
      as (so' & sf' & Hro & Hrf & Hle).
    rewrite <- app_assoc, len_app in Hro. simpl in Hro.
    exists so', sf'. simpl. rewrite Ho1, Hf1.
    split; [exact Hro|]. split; [exact Hrf|]. lia. }
  destruct (decide (page ∈ o_pageInMemorySet so)) as [HinO|HoutO];
    destruct (decide (page ∈ f_pageInMemorySet sf)) as [HinF|HoutF].
  - (* both hit *)
    rewrite optNext_hit in Ho1 by done. rewrite fifoNext_hit in Hf1 by done.
    injection Ho1 as <-. injection Hf1 as <-.
    apply (Hgoal d); [done| |lia]. by eapply lag_hit_hit.
  - (* the optimal simulator hits, FIFO misses *)
    rewrite optNext_hit in Ho1 by done. injection Ho1 as <-.
    destruct (fifoNext_miss_shape numFrames seen page sf Hn Hfinv HoutF)
      as (sf1' & Hf1' & Hpf & Hshape).
    rewrite Hf1 in Hf1'. injection Hf1' as <-.
    assert (Hne : numFrames ≤ pageFaults (o_result so)).
    { destruct Hfull as [|Heq]; [done|]. rewrite Heq in HinO. done. }
    apply (Hgoal (S d)); [by left| |lia].
    apply (lag_hit_miss page rest _ (f_pageInMemorySet sf)); [done|done| |done].
    destruct Hshape as [[-> _]|(old & _ & -> & _)]; set_solver.
  - (* the optimal simulator misses, FIFO hits *)
    rewrite fifoNext_hit in Hf1 by done. injection Hf1 as <-.
    destruct (optNext_miss_shape numFrames seen page rest so Hn Hoinv HoutO)
      as (so1' & Ho1' & Hpf & Hshape).
    rewrite Ho1 in Ho1'. injection Ho1' as <-.
    assert (Hne : numFrames ≤ pageFaults (o_result so)).
    { destruct Hfull as [|Heq]; [done|]. rewrite <- Heq in HinF. done. }
    destruct Hshape as [[_ Hroom]|(ev & Hev & Hfar & Hset & Hsize)]; [lia|].
    pose proof (lag_miss_positive page rest _ _ d HoutO HinF Hlag) as Hd.
    destruct d as [|d']; [lia|].
    apply (Hgoal d'); [left; lia| |lia].
    rewrite Hset. apply lag_miss_hit; try done. lia.
  - (* both miss *)
    destruct (optNext_miss_shape numFrames seen page rest so Hn Hoinv HoutO)
      as (so1' & Ho1' & HpfO & HshapeO).
    rewrite Ho1 in Ho1'. injection Ho1' as <-.
    destruct (fifoNext_miss_shape numFrames seen page sf Hn Hfinv HoutF)
      as (sf1' & Hf1' & HpfF & HshapeF).
    rewrite Hf1 in Hf1'. injection Hf1' as <-.
    destruct HshapeO as [[HsetO HroomO]|(ev & Hev & Hfar & HsetO & HsizeO)].
    + assert (Heq : o_pageInMemorySet so = f_pageInMemorySet sf).
      { destruct Hfull as [|Heq]; [lia|done]. }
      destruct HshapeF as [[HsetF _]|(old & _ & _ & HsizeF)];
        [|rewrite <- Heq in HsizeF; lia].
      apply (Hgoal d); [right; by rewrite HsetO, HsetF, Heq| |lia].
      rewrite HsetO, HsetF, Heq. apply lag_same.
    + apply (Hgoal d); [left; lia| |lia].
      rewrite HsetO.
      destruct HshapeF as [[-> HroomF]|(old & Hold & -> & HsizeF)].
      * apply (lag_miss_miss page rest _ (f_pageInMemorySet sf)); try done. lia.
      * apply (lag_miss_miss page rest _ (f_pageInMemorySet sf)); try done; [set_solver|].
        pose proof (size_remove _ old Hold). lia.
Qed.

(** ** The scan of the frames on any positions map *)

Lemma filter_none (i : Z) (l : list Z) :
  Forall (λ pos, pos ≤ i) l → filter (λ pos, i < pos) l = [].
Proof.
  induction 1 as [|x l Hx _ IH]; [done|].
  rewrite filter_cons. destruct (decide (i < x)); [lia|done].
Qed.

Lemma filter_all (i : Z) (l : list Z) :
  Forall (λ pos, i < pos) l → filter (λ pos, i < pos) l = l.
Proof.
  induction 1 as [|x l Hx _ IH]; [done|].
  rewrite filter_cons. destruct (decide (i < x)); [by rewrite IH|lia].
Qed.

Lemma advanceCursor_split tail : ∀ cursor i,
  ∃ past rest, tail = past ++ rest
    ∧ Forall (λ pos, pos ≤ i) past
    ∧ (∀ pos, head rest = Some pos → i < pos)
    ∧ advanceCursor tail cursor i = cursor + len past.
Proof.
  induction tail as [|x tail IH]; intros cursor i; simpl.
  - exists [], []. split; [done|]. split; [constructor|]. split; [done|].
    unfold len; simpl; lia.
  - destruct (Z.leb_spec x i) as [Hle|Hgt].
    + destruct (IH (cursor + 1) i) as (past & rest & -> & Hall & Hhead & ->).
      exists (x :: past), rest. split; [done|]. split; [by constructor|].
      split; [done|]. unfold len; simpl; lia.
    + exists [], (x :: tail). split; [done|]. split; [constructor|]. split.
      * intros pos [= <-]. done.
      * unfold len; simpl; lia.
Qed.

(** The inner loop of main.go 140-146 on one list: from a cursor whose
    earlier entries are all at most [i], it stops at the first entry of the
    list that is greater than [i]. *)
Lemma skipPast_first_after (l : list Z) (c i : Z) :
  0 ≤ c ≤ len l → Forall (λ pos, pos < i + 1) (take (Z.to_nat c) l) →
  c ≤ skipPast l c i ≤ len l
  ∧ Forall (λ pos, pos < i + 1) (take (Z.to_nat (skipPast l c i)) l)
  ∧ (if skipPast l c i <? len l then default (-1) (index l (skipPast l c i)) else -1)
    = default (-1) (head (filter (λ pos, i < pos) l)).
Proof.
  intros Hc Hbefore. unfold skipPast.
  destruct (advanceCursor_split (drop (Z.to_nat c) l) c i)
    as (past & rest & Hdrop & Hpast & Hhead & ->).
  pose proof (take_drop (Z.to_nat c) l) as Hl. rewrite Hdrop in Hl.
  assert (HA : length (take (Z.to_nat c) l) = Z.to_nat c).
  { rewrite length_take. unfold len in Hc. lia. }
  clear Hdrop. revert Hbefore HA Hl. generalize (take (Z.to_nat c) l). intros A Hbefore HA Hl.
  subst l. rewrite !len_app in *.
  pose proof (len_nonneg past). pose proof (len_nonneg rest).
  assert (HcA : c = len A) by (unfold len; lia).
  assert (Hle : ∀ k, Forall (λ pos, pos < i + 1) k → Forall (λ pos, pos ≤ i) k).
  { intros k Hk. eapply Forall_impl; [exact Hk|]. intros; simpl in *; lia. }
  split; [lia|]. split.
  - replace (Z.to_nat (c + len past)) with (length (A ++ past))
      by (rewrite length_app; unfold len in *; lia).
    rewrite app_assoc, take_app_length. apply Forall_app. split; [done|].
    eapply Forall_impl; [exact Hpast|]. intros; simpl in *; lia.
  - rewrite !filter_app, (filter_none i A), (filter_none i past) by auto. simpl.
    destruct rest as [|x rest].
    + change (len (@nil Z)) with 0.
      destruct (Z.ltb_spec (c + len past) (len A + (len past + 0))); [lia|done].
    + specialize (Hhead x eq_refl).
      rewrite filter_cons. destruct (decide (i < x)); [|lia]. simpl.
      destruct (Z.ltb_spec (c + len past) (len A + (len past + len (x :: rest))));
        [|unfold len in *; simpl length in *; lia].
      unfold index. destruct (Z.ltb_spec (c + len past) 0); [lia|].
      replace (Z.to_nat (c + len past)) with (length A + length past)%nat
        by (unfold len in *; lia).
      rewrite lookup_app_r by lia. rewrite lookup_app_r by lia.
      replace (length A + length past - length A - length past)%nat with 0%nat by lia.
      done.
Qed.

Lemma nextUse_any pagePositions cur i q :
  cursorsBehind pagePositions (i + 1) cur →
  snd (nextUse pagePositions cur i q) = nextInPositions pagePositions i q
  ∧ cursorsBehind pagePositions (i + 1) (<[q := fst (nextUse pagePositions cur i q)]> cur).
Proof.
  intros Hcur. unfold nextUse, nextInPositions. cbv zeta. cbn [fst snd].
  destruct (Hcur q) as [Hc Hbefore].
  destruct (skipPast_first_after _ _ i Hc Hbefore) as (Hc' & Hbefore' & Hnext).
  split; [exact Hnext|].
  intros q'. destruct (decide (q = q')) as [<-|Hne].
  - rewrite lookup_insert_eq. simpl. split; [lia|done].
  - rewrite lookup_insert_ne by done. apply Hcur.
Qed.

Lemma cursorsBehind_mono pagePositions b b' cur :
  b ≤ b' → cursorsBehind pagePositions b cur → cursorsBehind pagePositions b' cur.
Proof.
  intros Hb Hcur q. destruct (Hcur q) as [Hc Hbefore]. split; [done|].
  eapply Forall_impl; [exact Hbefore|]. intros; simpl in *; lia.
Qed.

Lemma scanFrames_any pagePositions i frames : ∀ idx far vic cur,
  cursorsBehind pagePositions (i + 1) cur →
  let scan := scanFrames pagePositions i frames idx far vic cur in
  fst scan = pickVictim (map (nextInPositions pagePositions i) frames) idx far vic
  ∧ cursorsBehind pagePositions (i + 1) (snd scan).
Proof.
  induction frames as [|q frames IH]; intros idx far vic cur Hcur;
    cbv zeta; cbn [scanFrames map]; [done|].
  destruct (nextUse_any pagePositions cur i q Hcur) as [Hnext Hcur'].
  destruct (nextUse pagePositions cur i q) as [c np]. cbn [fst snd] in Hnext, Hcur'.
  subst np. cbn [pickVictim].
  destruct (nextInPositions pagePositions i q =? -1); [split; [done|exact Hcur']|].
  destruct (nextInPositions pagePositions i q >? far); by apply IH.
Qed.

Lemma nextInPositions_range pagePositions i q :
  nextInPositions pagePositions i q = -1 ∨ i < nextInPositions pagePositions i q.
Proof.
  unfold nextInPositions.
  destruct (filter _ _) as [|x tl] eqn:E; [by left|]. right. simpl.
  assert (x ∈ filter (λ pos, i < pos) (default [] (pagePositions !! q))) as Hin
    by (rewrite E; left).
  by apply list_elem_of_filter in Hin as [? _].
Qed.

(** A miss of the optimal simulator with every frame taken, on any positions
    map: the scan returns the frame that [chosen] describes. *)
Lemma optNext_victim numFrames pagePositions seen i page st :
  1 ≤ numFrames → 0 ≤ i →
  bookkeeping numFrames seen (o_pageInMemorySet st) (o_memoryFrames st) (o_result st) →
  cursorsBehind pagePositions i (o_nextUseCursor st) →
  page ∉ o_pageInMemorySet st → ¬ len (o_memoryFrames st) < numFrames →
  ∃ (k : nat) evictedPage nextUseCursor,
    chosen (map (nextInPositions pagePositions i) (o_memoryFrames st)) k
    ∧ o_memoryFrames st !! k = Some evictedPage
    ∧ cursorsBehind pagePositions (i + 1) nextUseCursor
    ∧ optNext numFrames pagePositions i page st
      = Returned {| o_pageInMemorySet := {[page]} ∪ (o_pageInMemorySet st ∖ {[evictedPage]});
                    o_memoryFrames := <[k := page]> (o_memoryFrames st);
                    o_result := countFault page (o_result st);
                    o_nextUseCursor := nextUseCursor |}.
Proof.
  intros Hn Hi Hbk Hcur Hnotin Hfull.
  assert (Hcur1 : cursorsBehind pagePositions (i + 1) (o_nextUseCursor st))
    by (eapply cursorsBehind_mono; [|exact Hcur]; lia).
  destruct (scanFrames_any pagePositions i (o_memoryFrames st) 0 (-1) (-1)
              (o_nextUseCursor st) Hcur1) as [Hscan Hcur'].
  set (nexts := map (nextInPositions pagePositions i) (o_memoryFrames st)) in *.
  destruct (pickVictim_chosen nexts) as (k & Hk & Hch).
  { intros Hnil. apply (f_equal length) in Hnil. unfold nexts in Hnil.
    rewrite length_map in Hnil. simpl in Hnil. unfold len in Hfull. lia. }
  { apply Forall_forall. intros np (q & -> & _)%list_elem_of_fmap.
    destruct (nextInPositions_range pagePositions i q); lia. }
  assert (is_Some (nexts !! k)) as Hlt.
  { destruct Hch as [[Hk' _]|(_ & m & Hk' & _)]; rewrite Hk'; eauto. }
  apply lookup_lt_is_Some in Hlt. unfold nexts in Hlt. rewrite length_map in Hlt.
  destruct (lookup_lt_is_Some_2 (o_memoryFrames st) k Hlt) as [ev Hev].
  exists k, ev. eexists. split; [exact Hch|]. split; [exact Hev|]. split; [exact Hcur'|].
  unfold optNext. destruct (decide _); [done|].
  destruct (Z.ltb_spec (len (o_memoryFrames st)) numFrames); [lia|]. cbv zeta.
  rewrite Hscan, Hk. unfold index. destruct (Z.ltb_spec (Z.of_nat k) 0); [lia|].
  by rewrite Nat2Z.id, Hev.
Qed.

Lemma optNext_any_inv numFrames pagePositions seen i page st :
  1 ≤ numFrames → 0 ≤ i →
  bookkeeping numFrames seen (o_pageInMemorySet st) (o_memoryFrames st) (o_result st) →
  cursorsBehind pagePositions i (o_nextUseCursor st) →
  ∃ st', optNext numFrames pagePositions i page st = Returned st'
    ∧ bookkeeping numFrames (seen ++ [page]) (o_pageInMemorySet st') (o_memoryFrames st')
        (o_result st')
    ∧ cursorsBehind pagePositions (i + 1) (o_nextUseCursor st').
Proof.
  intros Hn Hi Hbk Hcur.
  assert (Hcur1 : cursorsBehind pagePositions (i + 1) (o_nextUseCursor st))
    by (eapply cursorsBehind_mono; [|exact Hcur]; lia).
  destruct (decide (page ∈ o_pageInMemorySet st)) as [Hin|Hout].
  { exists st. split; [by apply optNext_hit|]. split; [by apply bookkeeping_hit|done]. }
  pose proof Hbk as [Hnd Hmir Hlen _ _ _ _ _].
  assert (Hpf : page ∉ o_memoryFrames st) by (rewrite Hmir in Hout; set_solver).
  destruct (decide (len (o_memoryFrames st) < numFrames)) as [Hroom|Hfull].
  - eexists. split; [by apply optNext_room|]. split; [|done].
    apply (bookkeeping_fault_common _ _ _ _ _ _ _ _ Hbk); simpl.
    + apply NoDup_app. split; [done|]. split; [|apply NoDup_singleton].
      intros x Hx ->%list_elem_of_singleton. done.
    + rewrite Hmir, list_to_set_app_L. set_solver.
    + set_solver.
    + rewrite len_app. unfold len at 2. simpl. lia.
    + done.
  - destruct (optNext_victim numFrames pagePositions seen i page st Hn Hi Hbk Hcur Hout Hfull)
      as (k & ev & cur' & _ & Hev & Hcur' & ->).
    eexists. split; [done|]. split; [|done].
    apply (bookkeeping_fault_common _ _ _ _ _ _ _ _ Hbk); simpl.
    + by eapply NoDup_replace.
    + rewrite Hmir. symmetry. by apply list_to_set_replace.
    + set_solver.
    + unfold len in *. rewrite length_insert. lia.
    + done.
Qed.

Lemma optRun_any_inv numFrames pagePositions refs : ∀ seen i st,
  1 ≤ numFrames → 0 ≤ i →
  bookkeeping numFrames seen (o_pageInMemorySet st) (o_memoryFrames st) (o_result st) →
  cursorsBehind pagePositions i (o_nextUseCursor st) →
  ∃ st', optRun numFrames pagePositions i refs st = Returned st'
    ∧ bookkeeping numFrames (seen ++ refs) (o_pageInMemorySet st') (o_memoryFrames st')
        (o_result st')
    ∧ cursorsBehind pagePositions (i + len refs) (o_nextUseCursor st').
Proof.
  induction refs as [|page rest IH]; intros seen i st Hn Hi Hbk Hcur; simpl.
  { exists st. rewrite app_nil_r. change (len (@nil string)) with 0. rewrite Z.add_0_r.
    done. }
  destruct (optNext_any_inv numFrames pagePositions seen i page st Hn Hi Hbk Hcur)
    as (st1 & -> & Hbk1 & Hcur1).
  destruct (IH (seen ++ [page]) (i + 1) st1 Hn ltac:(lia) Hbk1 Hcur1)
    as (st' & Hrun & Hbk' & Hcur').
  exists st'. split; [done|]. rewrite <- app_assoc in Hbk'. split; [done|].
  replace (i + len (page :: rest)) with (i + 1 + len rest) by (unfold len; simpl; lia).
  done.
Qed.

Lemma cursorsBehind_init pagePositions b : cursorsBehind pagePositions b ∅.
Proof.
  intros q. rewrite lookup_empty. simpl.
  pose proof (len_nonneg (default [] (pagePositions !! q))). split; [lia|constructor].
Qed.

(** With the positions of the trace, the position read is that of the next
    occurrence in the trace. *)
Lemma nextInPositions_trace seen page rest q :
  nextInPositions (buildPagePositions (seen ++ page :: rest)) (len seen) q
  = nextPosOf (len seen + 1) rest q.
Proof.
  unfold nextInPositions, nextPosOf.
  rewrite buildPagePositions_lookup, occFrom_app, filter_app. rewrite Z.add_0_l.
  rewrite (filter_none (len seen) (occFrom 0 seen q)).
  2:{ apply Forall_forall. intros pos Hpos%occFrom_bounds. lia. }
  assert (Hrest : filter (λ pos, len seen < pos) (occFrom (len seen + 1) rest q)
                  = occFrom (len seen + 1) rest q).
  { apply filter_all, Forall_forall. intros pos Hpos%occFrom_bounds. lia. }
  simpl. destruct (decide (page = q)).
  - rewrite filter_cons. destruct (decide (len seen < len seen)); [lia|].
    rewrite Hrest. by destruct (occFrom _ rest q).
  - rewrite Hrest. by destruct (occFrom _ rest q).
Qed.

(** ** Resident pages against the distinct pages referenced *)

Lemma distinctPages_snoc seen page :
  distinctPages (seen ++ [page])
  = distinctPages seen + (if decide (page ∈ seen) then 0 else 1).
Proof.
  unfold distinctPages. rewrite list_to_set_app_L.
  destruct (decide (page ∈ seen)) as [Hin|Hout].
  - replace (list_to_set seen ∪ list_to_set [page])
      with (list_to_set (C:=gset string) seen) by set_solver.
    lia.
  - rewrite size_union by set_solver.
    replace (list_to_set (C:=gset string) [page]) with ({[page]} : gset string)
      by set_solver.
    rewrite size_singleton. lia.
Qed.

Lemma resident_distinct_step numFrames seen X frames r page X' frames' r' :
  bookkeeping numFrames seen X frames r →
  bookkeeping numFrames (seen ++ [page]) X' frames' r' →
  Z.of_nat (size X) = Z.min (distinctPages seen) numFrames →
  (page ∈ X ∧ X' = X) ∨ ((page ∉ X) ∧ pageFaults r' = pageFaults r + 1) →
  Z.of_nat (size X') = Z.min (distinctPages (seen ++ [page])) numFrames.
Proof.
  intros Hbk Hbk' Hsize Hstep. rewrite distinctPages_snoc.
  pose proof (bookkeeping_size _ _ _ _ _ Hbk) as Hsz.
  pose proof (bookkeeping_size _ _ _ _ _ Hbk') as Hsz'.
  pose proof (bk_seen _ _ _ _ _ Hbk) as Hseen.
  destruct Hstep as [[Hin ->]|[Hout Hpf]].
  - destruct (decide (page ∈ seen)) as [|Hnew]; [lia|].
    exfalso. apply Hnew. apply Hseen in Hin. by apply elem_of_list_to_set in Hin.
  - destruct (decide (pageFaults r < numFrames)) as [Hroom|Hfull].
    + assert (Heq : X ≡ list_to_set seen).
      { apply set_subseteq_size_equiv; [done|]. unfold distinctPages in Hsize. lia. }
      destruct (decide (page ∈ seen)) as [Hold|_].
      * exfalso. apply Hout. apply Heq. by apply elem_of_list_to_set.
      * lia.
    + destruct (decide (page ∈ seen)); lia.
Qed.

Lemma fifoAfter_distinct numFrames trace n :
  1 ≤ numFrames →
  ∃ st, fifoAfter numFrames trace n = Returned st
        ∧ fifoInv numFrames (take n trace) st
        ∧ Z.of_nat (size (f_pageInMemorySet st))
          = Z.min (distinctPages (take n trace)) numFrames.
Proof.
  intros Hn. induction n as [|n (st & Hst & Hinv & Hsize)].
  { exists fifoInit. rewrite take_0. split; [done|]. split; [by apply fifoInv_init; lia|].
    change (0 = Z.min 0 numFrames). lia. }
  destruct (trace !! n) as [page|] eqn:Hpage.
  - rewrite (take_S_r _ _ _ Hpage), (fifoAfter_S _ _ _ _ _ Hpage Hst).
    destruct (fifoNext_inv numFrames (take n trace) page st Hn Hinv) as (st' & Hnext & Hinv').
    exists st'. split; [done|]. split; [done|].
    apply (resident_distinct_step _ _ _ _ _ _ _ _ _ Hinv Hinv' Hsize).
    destruct (decide (page ∈ f_pageInMemorySet st)) as [Hin|Hout].
    + left. rewrite fifoNext_hit in Hnext by done. by injection Hnext as <-.
    + right. split; [done|].
      destruct (fifoNext_miss numFrames _ page st Hn Hinv Hout) as (st1 & Hnext1 & Hres).
      rewrite Hnext in Hnext1. injection Hnext1 as <-. by rewrite Hres.
  - apply lookup_ge_None in Hpage. exists st.
    unfold fifoAfter in *. rewrite take_ge in * by lia. done.
Qed.

Lemma optAfter_distinct numFrames trace n :
  1 ≤ numFrames →
  ∃ st, optAfter numFrames trace n = Returned st
        ∧ optInv numFrames (take n trace) st
        ∧ Z.of_nat (size (o_pageInMemorySet st))
          = Z.min (distinctPages (take n trace)) numFrames.
Proof.
  intros Hn. induction n as [|n (st & Hst & Hinv & Hsize)].
  { exists optInit. rewrite take_0. split; [done|]. split; [by apply optInv_init; lia|].
    change (0 = Z.min 0 numFrames). lia. }
  destruct (trace !! n) as [page|] eqn:Hpage.
  - rewrite (take_S_r _ _ _ Hpage), (optAfter_S _ _ _ _ _ Hpage Hst).
    destruct (trace_split trace n page Hpage) as [Hsplit Hlen].
    destruct (optNext_inv numFrames (take n trace) page (drop (S n) trace) st Hn Hinv)
      as (st' & Hnext & Hinv').
    rewrite <- Hsplit, Hlen in Hnext.
    exists st'. split; [done|]. split; [done|].
    apply (resident_distinct_step _ _ _ _ _ _ _ _ _ (proj1 Hinv) (proj1 Hinv') Hsize).
    destruct (decide (page ∈ o_pageInMemorySet st)) as [Hin|Hout].
    + left. rewrite optNext_hit in Hnext by done. by injection Hnext as <-.
    + right. split; [done|].
      destruct (optNext_miss numFrames _ page (drop (S n) trace) st Hn Hinv Hout)
        as (st1 & Hnext1 & Hres).
      rewrite <- Hsplit, Hlen in Hnext1.
      rewrite Hnext in Hnext1. injection Hnext1 as <-. by rewrite Hres.
  - apply lookup_ge_None in Hpage. exists st.
    unfold optAfter in *. rewrite take_ge in * by lia. done.
Qed.

Lemma distinctPages_take_mono (trace : list string) (n m : nat) :
  (n ≤ m)%nat → distinctPages (take n trace) ≤ distinctPages (take m trace).
Proof.
  intros Hle. unfold distinctPages. apply inj_le, subseteq_size.
  intros p Hp%elem_of_list_to_set. apply elem_of_list_to_set.
  by apply (take_subseteq_take trace n m Hle).
Qed.

(** * The properties claimed by the specification *)

(** C1 (as stated, refuted): on the trace [A,B,C,A,B,D,A,B,C,D] with three
    frames the simulators do not report 9 faults for FIFO and 7 for the
    optimal policy. *)
Lemma textbook_not_nine_and_seven :
  ¬ (omap pageFaults (result_of (fifoAlgorithm textbook 3 false)) = Returned 9
     ∧ omap pageFaults
         (result_of (optimalAlgorithmOptimized textbook 3 (buildPagePositions textbook)
                       false)) = Returned 7).
Proof. intros [H _]. vm_compute in H. discriminate H. Qed.

(** C1 (amended): on the trace [A,B,C,A,B,D,A,B,C,D] with three frames,
    [fifoAlgorithm] returns [pageFaults = 8] and [optimalAlgorithmOptimized],
    given the positions of that trace, returns [pageFaults = 5], in either
    mode. *)
Theorem textbook_fault_counts (didacticMode : bool) :
  omap pageFaults (result_of (fifoAlgorithm textbook 3 didacticMode)) = Returned 8
  ∧ omap pageFaults
      (result_of (optimalAlgorithmOptimized textbook 3 (buildPagePositions textbook)
                    didacticMode)) = Returned 5.
Proof. destruct didacticMode; split; vm_compute; reflexivity. Qed.

(** C2 (as stated, refuted): with [numFrames = -1], [fifoAlgorithm] does not
    refuse to run; it returns a result. *)
Lemma negative_frames_fifo_runs :
  -1 < 1 ∧ ¬ refusesToRun (result_of (fifoAlgorithm ["A"; "B"; "A"]%string (-1) false)).
Proof.
  split; [lia|]. intros H.
  assert (∃ r, result_of (fifoAlgorithm ["A"; "B"; "A"]%string (-1) false) = Returned r)
    as [r Hr] by (vm_compute; eauto).
  exact (H r Hr).
Qed.

(** C2 (amended): the capacity is checked by [main], not by the simulators.
    [main] exits with status 1, printing nothing of the simulation, when the
    memory is smaller than one page, and otherwise calls the simulators with
    [numFrames ≥ 1].  Called with [numFrames = 0], each simulator panics on
    the first reference of a non-empty trace, and
    [optimalAlgorithmOptimized] panics for every negative [numFrames]. *)
Theorem capacity_checked_by_main :
  (∀ mem refs d, mem < pageSizeBytes →
     result_of (mainSimulate mem refs d) = Exited 1
     ∧ printed_by (mainSimulate mem refs d) = [])
  ∧ (∀ mem refs d, pageSizeBytes ≤ mem →
       1 ≤ Z.quot mem pageSizeBytes
       ∧ mainSimulate mem refs d
         = (optimalResult ← optimalAlgorithmOptimized refs (Z.quot mem pageSizeBytes)
                               (buildPagePositions refs) d;
            fifoResult ← fifoAlgorithm refs (Z.quot mem pageSizeBytes) d;
            ret (optimalResult, fifoResult)))
  ∧ (∀ page refs pagePositions d,
       result_of (optimalAlgorithmOptimized (page :: refs) 0 pagePositions d)
       = Panicked IndexOutOfRange)
  ∧ (∀ page refs d,
       result_of (fifoAlgorithm (page :: refs) 0 d) = Panicked NilDereference)
  ∧ (∀ numFrames refs pagePositions d, numFrames < 0 →
       result_of (optimalAlgorithmOptimized refs numFrames pagePositions d)
       = Panicked MakesliceCapOutOfRange).
Proof.
  split; [|split; [|split; [|split]]].
  - intros mem refs d Hlt. unfold result_of, printed_by, mainSimulate.
    destruct (Z.ltb_spec mem pageSizeBytes); [done|lia].
  - intros mem refs d Hge. split; [by apply pageSizeBytes_quot|].
    unfold mainSimulate. destruct (Z.ltb_spec mem pageSizeBytes); [lia|reflexivity].
  - intros page refs pagePositions d. by rewrite opt_erase by (unfold maxFrames; lia).
  - intros page refs d. by rewrite fifo_erase.
  - intros numFrames refs pagePositions d Hneg. by apply opt_negative_frames.
Qed.

Lemma capacity_checked_by_main_witness :
  (4095 < pageSizeBytes
   ∧ result_of (mainSimulate 4095 textbook false) = Exited 1
   ∧ printed_by (mainSimulate 4095 textbook false) = [])
  ∧ (pageSizeBytes ≤ 12288
     ∧ 1 ≤ Z.quot 12288 pageSizeBytes
     ∧ mainSimulate 12288 textbook false
       = (optimalResult ← optimalAlgorithmOptimized textbook (Z.quot 12288 pageSizeBytes)
                             (buildPagePositions textbook) false;
          fifoResult ← fifoAlgorithm textbook (Z.quot 12288 pageSizeBytes) false;
          ret (optimalResult, fifoResult)))
  ∧ (-1 < 0
     ∧ result_of (optimalAlgorithmOptimized textbook (-1) (buildPagePositions textbook) false)
       = Panicked MakesliceCapOutOfRange).
Proof.
  split; [|split].
  - split; [reflexivity|].
    apply (proj1 capacity_checked_by_main 4095 textbook false). reflexivity.
  - split; [discriminate|].
    apply (proj1 (proj2 capacity_checked_by_main) 12288 textbook false). discriminate.
  - split; [reflexivity|].
    apply (proj2 (proj2 (proj2 (proj2 capacity_checked_by_main)))). reflexivity.
Defined.

(** C3: with at least one frame, on every trace FIFO returns, and the
    optimal simulator, given the positions of that trace, returns a
    [pageFaults] no larger than that returned by FIFO.  The optimal
    simulator returns for every [numFrames] that [make] accepts, up to
    [maxFrames]; beyond, it panics in [make] and returns no count. *)
Theorem optimal_at_most_fifo (trace : list string) (numFrames : Z)
    (didacticMode : bool) :
  1 ≤ numFrames →
  ∃ rf,
    result_of (fifoAlgorithm trace numFrames didacticMode) = Returned rf
    ∧ (numFrames ≤ maxFrames →
       ∃ ro,
         result_of (optimalAlgorithmOptimized trace numFrames (buildPagePositions trace)
                      didacticMode) = Returned ro
         ∧ pageFaults ro ≤ pageFaults rf)
    ∧ (maxFrames < numFrames →
       result_of (optimalAlgorithmOptimized trace numFrames (buildPagePositions trace)
                    didacticMode) = Panicked MakesliceCapOutOfRange).
Proof.
  intros Hn.
  destruct (opt_le_fifo_from numFrames trace [] optInit fifoInit 0 Hn)
    as (so & sf & Hro & Hrf & Hle).
  - apply optInv_init. lia.
  - apply fifoInv_init. lia.
  - by right.
  - apply lag_same.
  - simpl in Hro, Hle. change (len (@nil string)) with 0 in Hro.
    exists (f_result sf). rewrite fifo_erase, Hrf. simpl.
    split; [done|]. split; [|apply opt_too_many_frames].
    intros Hmax. exists (o_result so). rewrite opt_erase by lia. rewrite Hro. simpl.
    split; [done|]. lia.
Qed.

Lemma optimal_at_most_fifo_witness :
  (1 ≤ 3 ∧ 3 ≤ maxFrames
   ∧ ∃ rf ro,
       result_of (fifoAlgorithm textbook 3 false) = Returned rf
       ∧ result_of (optimalAlgorithmOptimized textbook 3 (buildPagePositions textbook) false)
         = Returned ro
       ∧ pageFaults ro ≤ pageFaults rf)
  ∧ (1 ≤ maxFrames + 1 ∧ maxFrames < maxFrames + 1
     ∧ result_of (optimalAlgorithmOptimized textbook (maxFrames + 1)
                    (buildPagePositions textbook) false)
       = Panicked MakesliceCapOutOfRange).
Proof.
  split.
  - split; [lia|]. split; [discriminate|].
    destruct (optimal_at_most_fifo textbook 3 false ltac:(lia)) as (rf & Hrf & Hle & _).
    destruct (Hle ltac:(discriminate)) as (ro & Hro & Hfaults).
    exists rf, ro. split; [exact Hrf|]. split; [exact Hro | exact Hfaults].
  - split; [discriminate|]. split; [reflexivity|].
    destruct (optimal_at_most_fifo textbook (maxFrames + 1) false ltac:(discriminate))
      as (rf & _ & _ & Hpanic).
    apply Hpanic. reflexivity.
Defined.

(** C4: with at least one frame, in the result of each simulator and in its
    state after every number of references, [pageFaults] is the sum of the
    values of [loadCounts].  FIFO returns such a result for every
    [numFrames]; the optimal simulator for every [numFrames] that [make]
    accepts, up to [maxFrames], and beyond it panics in [make] and returns
    no result. *)
Theorem faults_equal_sum_of_loads (trace : list string) (numFrames : Z)
    (didacticMode : bool) :
  1 ≤ numFrames →
  (∃ r, result_of (fifoAlgorithm trace numFrames didacticMode) = Returned r
        ∧ pageFaults r = sumValues (loadCounts r))
  ∧ (numFrames ≤ maxFrames →
     ∃ r, result_of (optimalAlgorithmOptimized trace numFrames (buildPagePositions trace)
                       didacticMode) = Returned r
          ∧ pageFaults r = sumValues (loadCounts r))
  ∧ (maxFrames < numFrames →
     result_of (optimalAlgorithmOptimized trace numFrames (buildPagePositions trace)
                  didacticMode) = Panicked MakesliceCapOutOfRange)
  ∧ (∀ n, ∃ st, fifoAfter numFrames trace n = Returned st
                ∧ pageFaults (f_result st) = sumValues (loadCounts (f_result st)))
  ∧ (∀ n, ∃ st, optAfter numFrames trace n = Returned st
                ∧ pageFaults (o_result st) = sumValues (loadCounts (o_result st))).
Proof.
  intros Hn. split; [|split; [|split; [|split]]].
  - destruct (fifo_returns trace numFrames didacticMode Hn) as (st & _ & Hinv & ->).
    exists (f_result st). split; [done|]. apply Hinv.
  - intros Hmax.
    destruct (opt_returns trace numFrames didacticMode Hn) as (st & _ & [Hinv _] & Hres).
    exists (o_result st). split; [by apply Hres|]. apply Hinv.
  - apply opt_too_many_frames.
  - intros n. destruct (fifoAfter_inv numFrames trace n Hn) as (st & -> & Hinv).
    exists st. split; [done|]. apply Hinv.
  - intros n. destruct (optAfter_inv numFrames trace n Hn) as (st & -> & [Hinv _]).
    exists st. split; [done|]. apply Hinv.
Qed.

Lemma faults_equal_sum_of_loads_witness :
  (1 ≤ 3 ∧ 3 ≤ maxFrames
   ∧ (∃ r, result_of (fifoAlgorithm textbook 3 false) = Returned r
           ∧ pageFaults r = sumValues (loadCounts r))
   ∧ (∃ r, result_of (optimalAlgorithmOptimized textbook 3 (buildPagePositions textbook)
                        false) = Returned r
           ∧ pageFaults r = sumValues (loadCounts r))
   ∧ (∀ n, ∃ st, fifoAfter 3 textbook n = Returned st
                 ∧ pageFaults (f_result st) = sumValues (loadCounts (f_result st)))
   ∧ (∀ n, ∃ st, optAfter 3 textbook n = Returned st
                 ∧ pageFaults (o_result st) = sumValues (loadCounts (o_result st))))
  ∧ (1 ≤ maxFrames + 1 ∧ maxFrames < maxFrames + 1
     ∧ result_of (optimalAlgorithmOptimized textbook (maxFrames + 1)
                    (buildPagePositions textbook) false)
       = Panicked MakesliceCapOutOfRange).
Proof.
  split.
  - split; [lia|]. split; [discriminate|].
    destruct (faults_equal_sum_of_loads textbook 3 false ltac:(lia))
      as (Hf & Ho & _ & Hfn & Hon).
    split; [exact Hf|]. split; [apply Ho; discriminate|]. split; [exact Hfn | exact Hon].
  - split; [discriminate|]. split; [reflexivity|].
    destruct (faults_equal_sum_of_loads textbook (maxFrames + 1) false ltac:(discriminate))
      as (_ & _ & Hpanic & _).
    apply Hpanic. reflexivity.
Defined.

(** C5: on a miss of [optimalAlgorithmOptimized] with every frame taken,
    whatever positions map it reads.  Let the next position of a resident
    page be the first entry of its position list after the current index,
    or [-1].  The frame that is overwritten holds: the first page, in frame
    order, with no next position, if there is one; otherwise a page whose
    next position is the largest, and the first such page in frame order:
    every earlier frame has a strictly smaller next position, so that of two
    pages with equal next positions the earlier one goes.  With the positions
    of the trace, a page has no next position exactly when it does not occur
    after the current index, and its next position is otherwise the index of
    its next occurrence. *)
Theorem optimal_victim_choice (trace : list string) (numFrames : Z)
    (pagePositions : gmap string (list Z)) (n : nat) (page : string) (st : optState) :
  1 ≤ numFrames →
  trace !! n = Some page →
  optRun numFrames pagePositions 0 (take n trace) optInit = Returned st →
  page ∉ o_pageInMemorySet st →
  ¬ len (o_memoryFrames st) < numFrames →
  let next := nextInPositions pagePositions (Z.of_nat n) in
  ∃ (k : nat) evictedPage st',
    optRun numFrames pagePositions 0 (take (S n) trace) optInit = Returned st'
    ∧ o_memoryFrames st !! k = Some evictedPage
    ∧ o_memoryFrames st' = <[k := page]> (o_memoryFrames st)
    ∧ o_pageInMemorySet st' = {[page]} ∪ (o_pageInMemorySet st ∖ {[evictedPage]})
    ∧ ((next evictedPage = -1
        ∧ ∀ (k' : nat) q, (k' < k)%nat → o_memoryFrames st !! k' = Some q → next q ≠ -1)
       ∨ ((∀ q, q ∈ o_memoryFrames st → next q ≠ -1)
          ∧ (∀ (k' : nat) q, o_memoryFrames st !! k' = Some q → next q ≤ next evictedPage)
          ∧ (∀ (k' : nat) q, (k' < k)%nat → o_memoryFrames st !! k' = Some q →
               next q < next evictedPage)))
    ∧ (pagePositions = buildPagePositions trace →
       ∀ q, (next q = -1 ↔ q ∉ drop (S n) trace)
            ∧ (next q ≠ -1 → nextOccurrenceIs trace n q (Z.to_nat (next q)))).
Proof.
  intros Hn Hpage Hst Hnotin Hfull. cbv zeta.
  destruct (optRun_any_inv numFrames pagePositions (take n trace) [] 0 optInit Hn ltac:(lia))
    as (st0 & Hst0 & Hbk & Hcur); [apply bookkeeping_init; lia|apply cursorsBehind_init|].
  rewrite Hst in Hst0. injection Hst0 as <-.
  destruct (trace_split trace n page Hpage) as [Hsplit Hlen].
  simpl in Hbk. rewrite Z.add_0_l, Hlen in Hcur.
  destruct (optNext_victim numFrames pagePositions (take n trace) (Z.of_nat n) page st
              Hn ltac:(lia) Hbk Hcur Hnotin Hfull)
    as (k & evicted & cur' & Hch & Hev & _ & Hnext).
  set (next := nextInPositions pagePositions (Z.of_nat n)) in *.
  assert (Hnexts : ∀ (k' : nat) q, o_memoryFrames st !! k' = Some q →
            map next (o_memoryFrames st) !! k' = Some (next q)).
  { intros k' q Hq. by rewrite list_lookup_fmap, Hq. }
  exists k, evicted. eexists.
  split.
  { rewrite (take_S_r _ _ _ Hpage), optRun_app, Hst. simpl.
    rewrite Z.add_0_l, Hlen, Hnext. done. }
  split; [done|]. split; [done|]. split; [done|]. split.
  - destruct Hch as [[Hk Hfirst]|(Hno & m & Hk & Hbefore & Hmax)].
    + left. rewrite (Hnexts k evicted Hev) in Hk. injection Hk as Hk.
      split; [done|]. intros k' q Hlt Hq Hnever. apply (Hfirst k' Hlt).
      rewrite (Hnexts k' q Hq). by f_equal.
    + right. rewrite (Hnexts k evicted Hev) in Hk. injection Hk as <-.
      split; [|split].
      * intros q [k' Hq]%list_elem_of_lookup_1 Hnever. apply Hno. rewrite <- Hnever.
        eapply list_elem_of_lookup_2. by apply Hnexts.
      * intros k' q Hq. apply (Hmax k'). by apply Hnexts.
      * intros k' q Hlt Hq. apply (Hbefore k'); [done|]. by apply Hnexts.
  - intros -> q.
    pose proof (nextInPositions_trace (take n trace) page (drop (S n) trace) q) as Hq.
    rewrite <- Hsplit, Hlen in Hq. fold next in Hq. rewrite Hq.
    assert (Hb : 0 ≤ Z.of_nat n + 1) by lia.
    split; [by apply nextPosOf_never|].
    intros Hsome.
    pose proof (nextPosOf_is (take n trace) page (drop (S n) trace) q) as Hocc.
    rewrite Hlen, <- Hsplit in Hocc. specialize (Hocc Hsome).
    replace (length (take n trace)) with n in Hocc; [done|].
    unfold len in Hlen. lia.
Qed.

Lemma optimal_victim_choice_witness :
  (tiedTrace !! 2%nat = Some "C"%string
   ∧ optRun 2 tiedPositions 0 (take 2 tiedTrace) optInit = Returned tiedAfter2
   ∧ nextInPositions tiedPositions 2 "A" = 5
   ∧ nextInPositions tiedPositions 2 "B" = 5
   ∧ ∃ st', optRun 2 tiedPositions 0 (take 3 tiedTrace) optInit = Returned st'
            ∧ o_memoryFrames st' = ["C"; "B"]%string)
  ∧ (textbook !! 5%nat = Some "D"%string
     ∧ optRun 3 (buildPagePositions textbook) 0 (take 5 textbook) optInit
       = Returned textbookAfter5
     ∧ (∃ st', optRun 3 (buildPagePositions textbook) 0 (take 6 textbook) optInit
               = Returned st'
               ∧ o_memoryFrames st' = ["A"; "B"; "D"]%string)
     ∧ nextOccurrenceIs textbook 5 "C" 8).
Proof.
  split.
  - assert (H2 : tiedTrace !! 2%nat = Some "C"%string) by reflexivity.
    assert (Hst : optRun 2 tiedPositions 0 (take 2 tiedTrace) optInit = Returned tiedAfter2)
      by (vm_compute; reflexivity).
    split; [exact H2|]. split; [exact Hst|].
    split; [vm_compute; reflexivity|]. split; [vm_compute; reflexivity|].
    destruct (optimal_victim_choice tiedTrace 2 tiedPositions 2 "C" tiedAfter2)
      as (k & ev & st' & Hrun & Hev & Hframes & _ & Hchoice & _).
    + lia.
    + exact H2.
    + exact Hst.
    + apply (bool_decide_unpack _). vm_compute. exact I.
    + unfold len. simpl. lia.
    + exists st'. split; [exact Hrun|]. rewrite Hframes.
      destruct k as [|[|k]]; [reflexivity| |discriminate Hev].
      exfalso. injection Hev as <-.
      destruct Hchoice as [[Hnever _]|(_ & _ & Hbefore)].
      * vm_compute in Hnever. discriminate Hnever.
      * specialize (Hbefore 0%nat "A"%string ltac:(lia) eq_refl).
        vm_compute in Hbefore. discriminate Hbefore.
  - assert (H5 : textbook !! 5%nat = Some "D"%string) by reflexivity.
    assert (Hst : optRun 3 (buildPagePositions textbook) 0 (take 5 textbook) optInit
                  = Returned textbookAfter5) by (vm_compute; reflexivity).
    split; [exact H5|]. split; [exact Hst|].
    destruct (optimal_victim_choice textbook 3 (buildPagePositions textbook) 5 "D"
                textbookAfter5)
      as (k & ev & st' & Hrun & Hev & Hframes & _ & Hchoice & Htrace).
    + lia.
    + exact H5.
    + exact Hst.
    + apply (bool_decide_unpack _). vm_compute. exact I.
    + unfold len. simpl. lia.
    + split.
      * exists st'. split; [exact Hrun|]. rewrite Hframes.
        assert (Hmax : nextInPositions (buildPagePositions textbook) 5 "C"
                       ≤ nextInPositions (buildPagePositions textbook) 5 ev).
        { destruct Hchoice as [[Hnever _]|(_ & Hmax & _)].
          - destruct k as [|[|[|k]]]; [| | |discriminate Hev];
              injection Hev as <-; vm_compute in Hnever; discriminate Hnever.
          - apply (Hmax 2%nat). reflexivity. }
        destruct k as [|[|[|k]]]; [| |reflexivity|discriminate Hev];
          injection Hev as <-; vm_compute in Hmax; exfalso; apply Hmax; reflexivity.
      * apply (proj2 (Htrace eq_refl "C"%string)). vm_compute. discriminate.
Defined.

(** C6: the preprocessing maps every page of the trace to the strictly
    ascending list of exactly the indices at which it occurs, leaves every
    other page absent, maps the empty trace to the empty mapping, and is one
    pass: a further reference only appends its index to its page's list. *)
Theorem positions_of_trace (trace : list string) (p : string) :
  (p ∈ trace →
     ∃ l, buildPagePositions trace !! p = Some l
          ∧ StronglySorted Z.lt l
          ∧ ∀ j, j ∈ l ↔ 0 ≤ j ∧ trace !! Z.to_nat j = Some p)
  ∧ (p ∉ trace → buildPagePositions trace !! p = None)
  ∧ buildPagePositions [] = ∅
  ∧ buildPagePositions (trace ++ [p])
    = <[p := default [] (buildPagePositions trace !! p) ++ [len trace]]>
        (buildPagePositions trace).
Proof.
  assert (Hlook : buildPagePositions trace !! p
                  = match occFrom 0 trace p with [] => None | l => Some l end).
  { unfold buildPagePositions. rewrite buildPositionsFrom_lookup, lookup_empty.
    by destruct (occFrom 0 trace p). }
  split; [|split; [|split]].
  - intros Hin. exists (occFrom 0 trace p). split; [|split].
    + rewrite Hlook. destruct (occFrom 0 trace p) eqn:E; [|done].
      by apply occFrom_nil in E.
    + apply occFrom_sorted.
    + intros j. rewrite occFrom_elem. by rewrite Z.sub_0_r.
  - intros Hnotin. rewrite Hlook. apply (occFrom_nil trace 0 p) in Hnotin.
    by rewrite Hnotin.
  - reflexivity.
  - unfold buildPagePositions. by rewrite buildPositionsFrom_snoc.
Qed.

Lemma positions_of_trace_witness :
  "A"%string ∈ textbook
  ∧ ∃ l, buildPagePositions textbook !! "A"%string = Some l ∧ StronglySorted Z.lt l.
Proof.
  split; [left|].
  destruct (proj1 (positions_of_trace textbook "A") ltac:(left)) as (l & H1 & H2 & _).
  exists l. split; [exact H1 | exact H2].
Defined.

(** C7: with at least one frame, after every number [n] of references the
    membership set of each simulator mirrors its frames and holds at most
    [numFrames] pages.  The pages that have missed so far, which are the keys
    of [loadCounts], are the distinct pages among the first [n] references,
    and the set holds as many pages as there are of them, up to [numFrames]:
    once [numFrames] distinct pages have been referenced, and so have
    missed, the set holds exactly [numFrames] pages from then on. *)
Theorem resident_count_bounded (trace : list string) (numFrames : Z) (n : nat) :
  1 ≤ numFrames →
  (∃ st, fifoAfter numFrames trace n = Returned st
     ∧ f_pageInMemorySet st = list_to_set (f_memoryFrames st)
     ∧ Z.of_nat (size (f_pageInMemorySet st)) ≤ numFrames
     ∧ dom (loadCounts (f_result st)) = list_to_set (take n trace)
     ∧ Z.of_nat (size (f_pageInMemorySet st))
       = Z.min (distinctPages (take n trace)) numFrames
     ∧ (numFrames ≤ distinctPages (take n trace) →
        ∀ m, (n ≤ m)%nat →
          ∃ st', fifoAfter numFrames trace m = Returned st'
                 ∧ Z.of_nat (size (f_pageInMemorySet st')) = numFrames))
  ∧ (∃ st, optAfter numFrames trace n = Returned st
     ∧ o_pageInMemorySet st = list_to_set (o_memoryFrames st)
     ∧ Z.of_nat (size (o_pageInMemorySet st)) ≤ numFrames
     ∧ dom (loadCounts (o_result st)) = list_to_set (take n trace)
     ∧ Z.of_nat (size (o_pageInMemorySet st))
       = Z.min (distinctPages (take n trace)) numFrames
     ∧ (numFrames ≤ distinctPages (take n trace) →
        ∀ m, (n ≤ m)%nat →
          ∃ st', optAfter numFrames trace m = Returned st'
                 ∧ Z.of_nat (size (o_pageInMemorySet st')) = numFrames)).
Proof.
  intros Hn. split.
  - destruct (fifoAfter_distinct numFrames trace n Hn) as (st & -> & Hinv & Hsize).
    exists st. split; [done|]. split; [apply Hinv|]. split; [lia|].
    split; [apply Hinv|]. split; [done|].
    intros Hfull m Hle.
    destruct (fifoAfter_distinct numFrames trace m Hn) as (st' & -> & _ & Hsize').
    exists st'. split; [done|].
    pose proof (distinctPages_take_mono trace n m Hle). lia.
  - destruct (optAfter_distinct numFrames trace n Hn) as (st & -> & [Hinv _] & Hsize).
    exists st. split; [done|]. split; [apply Hinv|]. split; [lia|].
    split; [apply Hinv|]. split; [done|].
    intros Hfull m Hle.
    destruct (optAfter_distinct numFrames trace m Hn) as (st' & -> & _ & Hsize').
    exists st'. split; [done|].
    pose proof (distinctPages_take_mono trace n m Hle). lia.
Qed.

Lemma resident_count_bounded_witness :
  1 ≤ 3 ∧ 3 ≤ distinctPages (take 3 textbook) ∧ (3 ≤ 7)%nat
  ∧ (∃ st, fifoAfter 3 textbook 2 = Returned st
           ∧ Z.of_nat (size (f_pageInMemorySet st)) = 2)
  ∧ (∃ st', fifoAfter 3 textbook 7 = Returned st'
            ∧ Z.of_nat (size (f_pageInMemorySet st')) = 3)
  ∧ (∃ st', optAfter 3 textbook 7 = Returned st'
            ∧ Z.of_nat (size (o_pageInMemorySet st')) = 3).
Proof.
  assert (Hfull : 3 ≤ distinctPages (take 3 textbook)) by (vm_compute; discriminate).
  split; [lia|]. split; [exact Hfull|]. split; [lia|]. split; [|split].
  - destruct (resident_count_bounded textbook 3 2 ltac:(lia))
      as [(st & H1 & _ & _ & _ & H2 & _) _].
    exists st. split; [exact H1 | exact H2].
  - destruct (resident_count_bounded textbook 3 3 ltac:(lia))
      as [(st & _ & _ & _ & _ & _ & Hstay) _].
    exact (Hstay Hfull 7%nat ltac:(lia)).
  - destruct (resident_count_bounded textbook 3 3 ltac:(lia))
      as [_ (st & _ & _ & _ & _ & _ & Hstay)].
    exact (Hstay Hfull 7%nat ltac:(lia)).
Defined.




(** C9: with at least one frame, each simulator has the same outcome in
    didactic mode as without it, whatever positions the optimal simulator is
    given.  That outcome is a [SimulationResult] for FIFO, and for the
    optimal simulator, given the positions built from the trace, for every
    [numFrames] that [make] accepts, up to [maxFrames]. *)
Theorem didactic_mode_same_result (trace : list string) (numFrames : Z)
    (pagePositions : gmap string (list Z)) :
  1 ≤ numFrames →
  result_of (fifoAlgorithm trace numFrames true)
    = result_of (fifoAlgorithm trace numFrames false)
  ∧ result_of (optimalAlgorithmOptimized trace numFrames pagePositions true)
    = result_of (optimalAlgorithmOptimized trace numFrames pagePositions false)
  ∧ (∃ r, result_of (fifoAlgorithm trace numFrames true) = Returned r)
  ∧ (numFrames ≤ maxFrames →
     ∃ r, result_of (optimalAlgorithmOptimized trace numFrames (buildPagePositions trace)
                       true) = Returned r).
Proof.
  intros Hn. split; [by rewrite !fifo_erase|]. split.
  - destruct (decide (numFrames ≤ maxFrames)).
    + by rewrite !opt_erase by lia.
    + by rewrite !opt_too_many_frames by lia.
  - split.
    + destruct (fifo_returns trace numFrames true Hn) as (st & _ & _ & ->). eauto.
    + intros Hmax. destruct (opt_returns trace numFrames true Hn) as (st & _ & _ & Hres).
      rewrite Hres by done. eauto.
Qed.

Lemma didactic_mode_same_result_witness :
  1 ≤ 3 ∧ 3 ≤ maxFrames
  ∧ result_of (fifoAlgorithm textbook 3 true) = result_of (fifoAlgorithm textbook 3 false)
  ∧ result_of (optimalAlgorithmOptimized textbook 3 (buildPagePositions textbook) true)
    = result_of (optimalAlgorithmOptimized textbook 3 (buildPagePositions textbook) false)
  ∧ (∃ r, result_of (fifoAlgorithm textbook 3 true) = Returned r)
  ∧ (∃ r, result_of (optimalAlgorithmOptimized textbook 3 (buildPagePositions textbook)
                       true) = Returned r).
Proof.
  split; [lia|]. split; [discriminate|].
  destruct (didactic_mode_same_result textbook 3 (buildPagePositions textbook) ltac:(lia))
    as (Hf & Ho & Hrf & Hro).
  split; [exact Hf|]. split; [exact Ho|]. split; [exact Hrf | apply Hro; discriminate].
Defined.

(** C10: with at least one frame, in both simulators the first reference to a
    page is a fault (the page is not resident, [pageFaults] grows by one and
    the page gets load count 1); in the returned result every key of
    [loadCounts] occurs in the trace with a count of at least 1, and
    [pageFaults] is at least the number of distinct pages of the trace.
    FIFO returns such a result for every [numFrames]; the optimal simulator
    for every [numFrames] that [make] accepts, up to [maxFrames], and beyond
    it panics in [make] and returns no result. *)
Theorem first_reference_faults (trace : list string) (numFrames : Z)
    (didacticMode : bool) :
  1 ≤ numFrames →
  (∃ r, result_of (fifoAlgorithm trace numFrames didacticMode) = Returned r
        ∧ (∀ p c, loadCounts r !! p = Some c → p ∈ trace ∧ 1 ≤ c)
        ∧ Z.of_nat (size (list_to_set (C:=gset string) trace)) ≤ pageFaults r)
  ∧ (numFrames ≤ maxFrames →
     ∃ r, result_of (optimalAlgorithmOptimized trace numFrames (buildPagePositions trace)
                       didacticMode) = Returned r
          ∧ (∀ p c, loadCounts r !! p = Some c → p ∈ trace ∧ 1 ≤ c)
          ∧ Z.of_nat (size (list_to_set (C:=gset string) trace)) ≤ pageFaults r)
  ∧ (maxFrames < numFrames →
     result_of (optimalAlgorithmOptimized trace numFrames (buildPagePositions trace)
                  didacticMode) = Panicked MakesliceCapOutOfRange)
  ∧ (∀ (n : nat) page, trace !! n = Some page → page ∉ take n trace →
       ∃ st st', fifoAfter numFrames trace n = Returned st
                 ∧ fifoAfter numFrames trace (S n) = Returned st'
                 ∧ (page ∉ f_pageInMemorySet st)
                 ∧ pageFaults (f_result st') = pageFaults (f_result st) + 1
                 ∧ loadCounts (f_result st') !! page = Some 1)
  ∧ (∀ (n : nat) page, trace !! n = Some page → page ∉ take n trace →
       ∃ st st', optAfter numFrames trace n = Returned st
                 ∧ optAfter numFrames trace (S n) = Returned st'
                 ∧ (page ∉ o_pageInMemorySet st)
                 ∧ pageFaults (o_result st') = pageFaults (o_result st) + 1
                 ∧ loadCounts (o_result st') !! page = Some 1).
Proof.
  intros Hn.
  assert (Hkeys : ∀ S frames r, bookkeeping numFrames trace S frames r →
            (∀ p c, loadCounts r !! p = Some c → p ∈ trace ∧ 1 ≤ c)
            ∧ Z.of_nat (size (list_to_set (C:=gset string) trace)) ≤ pageFaults r).
  { intros S frames r Hbk. split.
    - intros p c Hp. split; [|by eapply (bk_pos _ _ _ _ _ Hbk)].
      assert (p ∈ dom (loadCounts r)) as Hd by (apply elem_of_dom; eauto).
      rewrite (bk_dom _ _ _ _ _ Hbk) in Hd. by apply elem_of_list_to_set in Hd.
    - rewrite <- (bk_dom _ _ _ _ _ Hbk). by eapply bookkeeping_distinct. }
  assert (Hfresh : ∀ (n : nat) page S frames r,
            bookkeeping numFrames (take n trace) S frames r → page ∉ take n trace →
            (page ∉ S) ∧ loadCounts r !! page = None).
  { intros n page S frames r Hbk Hnew. split.
    - intros Hin. apply (bk_seen _ _ _ _ _ Hbk) in Hin. by apply elem_of_list_to_set in Hin.
    - apply not_elem_of_dom. rewrite (bk_dom _ _ _ _ _ Hbk). by rewrite elem_of_list_to_set. }
  split; [|split; [|split; [|split]]].
  - destruct (fifo_returns trace numFrames didacticMode Hn) as (st & _ & Hinv & ->).
    exists (f_result st). split; [done|]. by eapply Hkeys.
  - intros Hmax.
    destruct (opt_returns trace numFrames didacticMode Hn) as (st & _ & [Hinv _] & Hres).
    exists (o_result st). split; [by apply Hres|]. by eapply Hkeys.
  - apply opt_too_many_frames.
  - intros n page Hpage Hnew.
    destruct (fifoAfter_inv numFrames trace n Hn) as (st & Hst & Hinv).
    destruct (Hfresh n page _ _ _ Hinv Hnew) as [Hnotin Hnone].
    destruct (fifoNext_miss numFrames _ page st Hn Hinv Hnotin) as (st' & Hnext & Hres).
    exists st, st'. split; [done|]. split; [by rewrite (fifoAfter_S _ _ _ _ _ Hpage Hst)|].
    split; [done|]. rewrite Hres. split; [done|]. by apply countFault_first.
  - intros n page Hpage Hnew.
    destruct (optAfter_inv numFrames trace n Hn) as (st & Hst & Hinv).
    destruct (Hfresh n page _ _ _ (proj1 Hinv) Hnew) as [Hnotin Hnone].
    destruct (trace_split trace n page Hpage) as [Hsplit Hlen].
    destruct (optNext_miss numFrames _ page (drop (S n) trace) st Hn Hinv Hnotin)
      as (st' & Hnext & Hres).
    rewrite <- Hsplit, Hlen in Hnext.
    exists st, st'. split; [done|]. split; [by rewrite (optAfter_S _ _ _ _ _ Hpage Hst)|].
    split; [done|]. rewrite Hres. split; [done|]. by apply countFault_first.
Qed.

Lemma first_reference_faults_witness :
  (1 ≤ 3 ∧ 3 ≤ maxFrames
   ∧ (∃ r, result_of (fifoAlgorithm textbook 3 false) = Returned r
           ∧ Z.of_nat (size (list_to_set (C:=gset string) textbook)) ≤ pageFaults r)
   ∧ (∃ r, result_of (optimalAlgorithmOptimized textbook 3 (buildPagePositions textbook)
                        false) = Returned r
           ∧ Z.of_nat (size (list_to_set (C:=gset string) textbook)) ≤ pageFaults r))
  ∧ (textbook !! 5%nat = Some "D"%string ∧ ("D"%string ∉ take 5 textbook)
     ∧ ∃ st st', optAfter 3 textbook 5 = Returned st
                 ∧ optAfter 3 textbook 6 = Returned st'
                 ∧ pageFaults (o_result st') = pageFaults (o_result st) + 1
                 ∧ loadCounts (o_result st') !! "D"%string = Some 1)
  ∧ (1 ≤ maxFrames + 1 ∧ maxFrames < maxFrames + 1
     ∧ result_of (optimalAlgorithmOptimized textbook (maxFrames + 1)
                    (buildPagePositions textbook) false)
       = Panicked MakesliceCapOutOfRange).
Proof.
  assert (H5 : textbook !! 5%nat = Some "D"%string) by reflexivity.
  assert (Hnew : "D"%string ∉ take 5 textbook).
  { apply (bool_decide_unpack _). vm_compute. exact I. }
  split; [|split].
  - split; [lia|]. split; [discriminate|].
    destruct (first_reference_faults textbook 3 false ltac:(lia))
      as ((rf & Hrf & _ & Hnf) & Ho & _).
    destruct (Ho ltac:(discriminate)) as (ro & Hro & _ & Hno).
    split; [exists rf | exists ro]; (split; [assumption|assumption]).
  - split; [exact H5|]. split; [exact Hnew|].
    destruct (first_reference_faults textbook 3 false ltac:(lia))
      as (_ & _ & _ & _ & Hfirst).
    destruct (Hfirst 5%nat "D"%string H5 Hnew) as (st & st' & H1 & H2 & _ & H3 & H4).
    exists st, st'. split; [exact H1|]. split; [exact H2|]. split; [exact H3 | exact H4].
  - split; [discriminate|]. split; [reflexivity|].
    destruct (first_reference_faults textbook (maxFrames + 1) false ltac:(discriminate))
      as (_ & _ & Hpanic & _).
    apply Hpanic. reflexivity.
Defined.

(** * Further properties of the code *)

(** ** Optimality among all schedules *)

Lemma lag_shrink rest X Y Y' d : Y' ⊆ Y → lag rest X Y d → lag rest X Y' d.
Proof.
  intros Hsub Hlag m. specialize (Hlag m).
  pose proof (cnt_mono (take m rest) _ _ Hsub). lia.
Qed.

Lemma lag_within rest X Y d : Y ⊆ X → lag rest X Y d.
Proof. intros Hsub m. pose proof (cnt_mono (take m rest) _ _ Hsub). lia. Qed.

Lemma demandSchedule_faults_nonneg cap T refs n :
  demandSchedule cap T refs n → 0 ≤ n.
Proof. induction 1; lia. Qed.

Lemma demandSchedule_cap cap T refs n :
  demandSchedule cap T refs n → 0 ≤ cap ∨ refs = [].
Proof. destruct 1; [by right|left; lia|left; lia]. Qed.

(** The exchange argument against an arbitrary schedule. *)
Lemma opt_le_schedule_from numFrames cap rest : ∀ seen so T n (d : nat),
  1 ≤ numFrames → cap ≤ numFrames → optInv numFrames seen so →
  Z.of_nat (size T) ≤ cap →
  (numFrames ≤ pageFaults (o_result so) ∨ T ⊆ o_pageInMemorySet so) →
  lag rest (o_pageInMemorySet so) T d →
  demandSchedule cap T rest n →
  ∃ so',
    optRun numFrames (buildPagePositions (seen ++ rest)) (len seen) rest so = Returned so'
    ∧ optInv numFrames (seen ++ rest) so'
    ∧ pageFaults (o_result so') - pageFaults (o_result so) ≤ n + Z.of_nat d.
Proof.
  induction rest as [|page rest IH]; intros seen so T n d Hn Hcap Hoinv HsizeT Hfull Hlag Hsched.
  { exists so. simpl. rewrite app_nil_r. apply demandSchedule_faults_nonneg in Hsched.
    split; [done|]. split; [done|]. lia. }
  pose proof (bookkeeping_size _ _ _ _ _ (proj1 Hoinv)) as HszO.
  destruct (optNext_inv numFrames seen page rest so Hn Hoinv) as (so1 & Ho1 & Hoinv1).
  assert (Hgoal : ∀ T1 n1 (d1 : nat),
            Z.of_nat (size T1) ≤ cap →
            (numFrames ≤ pageFaults (o_result so1) ∨ T1 ⊆ o_pageInMemorySet so1) →
            lag rest (o_pageInMemorySet so1) T1 d1 →
            demandSchedule cap T1 rest n1 →
            pageFaults (o_result so1) - pageFaults (o_result so) + n1 + Z.of_nat d1
            ≤ n + Z.of_nat d →
            ∃ so',
              optRun numFrames (buildPagePositions (seen ++ page :: rest)) (len seen)
                (page :: rest) so = Returned so'
              ∧ optInv numFrames (seen ++ page :: rest) so'
              ∧ pageFaults (o_result so') - pageFaults (o_result so) ≤ n + Z.of_nat d).
  { intros T1 n1 d1 Hsz1 Hfull1 Hlag1 Hsched1 Hcount.
    destruct (IH (seen ++ [page]) so1 T1 n1 d1 Hn Hcap Hoinv1 Hsz1 Hfull1 Hlag1 Hsched1)
      as (so' & Hro & Hinv' & Hle).
    rewrite <- app_assoc, len_app in Hro. rewrite <- app_assoc in Hinv'. simpl in Hro, Hinv'.
    exists so'. simpl. rewrite Ho1.
    split; [exact Hro|]. split; [exact Hinv'|]. lia. }
  inversion Hsched as [|T0 T' page0 rest0 n0 HinT HinT' Hsub HszT' Hrest
                       |T0 T' page0 rest0 n0 HoutT HinT' Hsub HszT' Hrest]; subst.
  - (* the schedule hits *)
    destruct (decide (page ∈ o_pageInMemorySet so)) as [HinO|HoutO].
    + rewrite optNext_hit in Ho1 by done. injection Ho1 as <-.
      apply (Hgoal T' n d); [done| |apply (lag_shrink _ _ T); [done|by eapply lag_hit_hit]
                             |done|lia].
      destruct Hfull as [|Hin]; [by left|right; set_solver].
    + destruct (optNext_miss_shape numFrames seen page rest so Hn Hoinv HoutO)
        as (so1' & Ho1' & Hpf & Hshape).
      rewrite Ho1 in Ho1'. injection Ho1' as <-.
      assert (Hne : numFrames ≤ pageFaults (o_result so)).
      { destruct Hfull as [|Hin]; [done|]. exfalso. apply HoutO. by apply Hin. }
      destruct Hshape as [[_ Hroom]|(ev & Hev & Hfar & Hset & Hsize)]; [lia|].
      pose proof (lag_miss_positive page rest _ _ d HoutO HinT Hlag) as Hd.
      destruct d as [|d']; [lia|].
      apply (Hgoal T' n d'); [done|left; lia| |done|lia].
      apply (lag_shrink _ _ T); [done|].
      rewrite Hset. apply lag_miss_hit; try done. lia.
  - (* the schedule misses *)
    destruct (decide (page ∈ o_pageInMemorySet so)) as [HinO|HoutO].
    + rewrite optNext_hit in Ho1 by done. injection Ho1 as <-.
      apply (Hgoal T' n0 (S d)); [done| | |done|lia].
      * destruct Hfull as [|Hin]; [by left|right; set_solver].
      * by apply (lag_hit_miss page rest _ T).
    + destruct (optNext_miss_shape numFrames seen page rest so Hn Hoinv HoutO)
        as (so1' & Ho1' & Hpf & Hshape).
      rewrite Ho1 in Ho1'. injection Ho1' as <-.
      destruct Hshape as [[Hset Hroom]|(ev & Hev & Hfar & Hset & Hsize)].
      * assert (Hin : T ⊆ o_pageInMemorySet so).
        { destruct Hfull as [|Hin]; [lia|done]. }
        apply (Hgoal T' n0 d); [done|right; rewrite Hset; set_solver| |done|lia].
        apply lag_within. rewrite Hset. set_solver.
      * apply (Hgoal T' n0 d); [done|left; lia| |done|lia].
        rewrite Hset.
        replace T' with ({[page]} ∪ (T' ∖ {[page]})) at 1
          by (apply set_eq; intros x; destruct (decide (x = page)); set_solver).
        apply (lag_miss_miss page rest _ T); try done; [set_solver|].
        pose proof (size_remove T' page HinT'). lia.
Qed.

(** The run of the optimal simulator is itself such a schedule. *)
Lemma opt_is_schedule_from numFrames rest : ∀ seen so,
  1 ≤ numFrames → optInv numFrames seen so →
  ∃ so',
    optRun numFrames (buildPagePositions (seen ++ rest)) (len seen) rest so = Returned so'
    ∧ demandSchedule numFrames (o_pageInMemorySet so) rest
        (pageFaults (o_result so') - pageFaults (o_result so)).
Proof.
  induction rest as [|page rest IH]; intros seen so Hn Hoinv.
  { exists so. simpl. split; [done|]. rewrite Z.sub_diag. constructor. }
  destruct (optNext_inv numFrames seen page rest so Hn Hoinv) as (so1 & Ho1 & Hoinv1).
  destruct (IH (seen ++ [page]) so1 Hn Hoinv1) as (so' & Hro & Hsched).
  rewrite <- app_assoc, len_app in Hro. simpl in Hro.
  pose proof (bookkeeping_size _ _ _ _ _ (proj1 Hoinv)) as Hsz.
  pose proof (bookkeeping_size _ _ _ _ _ (proj1 Hoinv1)) as Hsz1.
  exists so'. simpl. rewrite Ho1. split; [exact Hro|].
  destruct (decide (page ∈ o_pageInMemorySet so)) as [Hin|Hout].
  - rewrite optNext_hit in Ho1 by done. injection Ho1 as <-.
    apply (ds_hit _ _ (o_pageInMemorySet so)); [done|done|done|lia|done].
  - destruct (optNext_miss_shape numFrames seen page rest so Hn Hoinv Hout)
      as (so1' & Ho1' & Hpf & Hshape).
    rewrite Ho1 in Ho1'. injection Ho1' as <-.
    replace (pageFaults (o_result so') - pageFaults (o_result so))
      with (pageFaults (o_result so') - pageFaults (o_result so1) + 1) by lia.
    apply (ds_miss _ _ (o_pageInMemorySet so1)); [done| | |lia|done].
    + destruct Hshape as [[-> _]|(ev & _ & _ & -> & _)]; set_solver.
    + destruct Hshape as [[-> _]|(ev & _ & _ & -> & _)]; set_solver.
Qed.

(** So is the run of FIFO. *)
Lemma fifo_is_schedule_from numFrames rest : ∀ seen sf,
  1 ≤ numFrames → fifoInv numFrames seen sf →
  ∃ sf',
    fifoRun numFrames rest sf = Returned sf'
    ∧ demandSchedule numFrames (f_pageInMemorySet sf) rest
        (pageFaults (f_result sf') - pageFaults (f_result sf)).
Proof.
  induction rest as [|page rest IH]; intros seen sf Hn Hfinv.
  { exists sf. simpl. split; [done|]. rewrite Z.sub_diag. constructor. }
  destruct (fifoNext_inv numFrames seen page sf Hn Hfinv) as (sf1 & Hf1 & Hfinv1).
  destruct (IH (seen ++ [page]) sf1 Hn Hfinv1) as (sf' & Hrf & Hsched).
  pose proof (bookkeeping_size _ _ _ _ _ Hfinv) as Hsz.
  pose proof (bookkeeping_size _ _ _ _ _ Hfinv1) as Hsz1.
  exists sf'. simpl. rewrite Hf1. split; [exact Hrf|].
  destruct (decide (page ∈ f_pageInMemorySet sf)) as [Hin|Hout].
  - rewrite fifoNext_hit in Hf1 by done. injection Hf1 as <-.
    apply (ds_hit _ _ (f_pageInMemorySet sf)); [done|done|done|lia|done].
  - destruct (fifoNext_miss_shape numFrames seen page sf Hn Hfinv Hout)
      as (sf1' & Hf1' & Hpf & Hshape).
    rewrite Hf1 in Hf1'. injection Hf1' as <-.
    replace (pageFaults (f_result sf') - pageFaults (f_result sf))
      with (pageFaults (f_result sf') - pageFaults (f_result sf1) + 1) by lia.
    apply (ds_miss _ _ (f_pageInMemorySet sf1)); [done| | |lia|done].
    + destruct Hshape as [[-> _]|(old & _ & -> & _)]; set_solver.
    + destruct Hshape as [[-> _]|(old & _ & -> & _)]; set_solver.
Qed.

(** X1: with at least one frame and no more than [make] accepts, the
    [pageFaults] returned by [optimalAlgorithmOptimized] (given the positions
    of the trace) is the least number of faults with which the trace can be
    served at all: it is the fault count of a schedule for [numFrames]
    frames, and no schedule for at most [numFrames] frames that loads only
    the referenced page has fewer faults. *)
Theorem optimal_is_minimal (trace : list string) (numFrames : Z) (didacticMode : bool) :
  1 ≤ numFrames → numFrames ≤ maxFrames →
  ∃ ro,
    result_of (optimalAlgorithmOptimized trace numFrames (buildPagePositions trace)
                 didacticMode) = Returned ro
    ∧ demandSchedule numFrames ∅ trace (pageFaults ro)
    ∧ ∀ cap n, cap ≤ numFrames → demandSchedule cap ∅ trace n → pageFaults ro ≤ n.
Proof.
  intros Hn Hmax.
  assert (Hinit : optInv numFrames [] optInit) by (apply optInv_init; lia).
  destruct (opt_is_schedule_from numFrames trace [] optInit Hn Hinit) as (so & Hro & Hsched).
  simpl in Hro, Hsched. change (len (@nil string)) with 0 in Hro.
  rewrite Z.sub_0_r in Hsched.
  exists (o_result so). rewrite opt_erase by lia. rewrite Hro. simpl.
  split; [done|]. split; [done|]. intros cap n Hcap Hany.
  destruct (demandSchedule_cap _ _ _ _ Hany) as [Hcap0| ->].
  2:{ simpl in Hro. injection Hro as <-. simpl.
      by apply demandSchedule_faults_nonneg in Hany. }
  destruct (opt_le_schedule_from numFrames cap trace [] optInit ∅ n 0 Hn Hcap Hinit)
    as (so' & Hro' & _ & Hle); [rewrite size_empty; lia|right; set_solver
                                |apply lag_within; set_solver|done|].
  simpl in Hro', Hle. change (len (@nil string)) with 0 in Hro'.
  rewrite Hro in Hro'. injection Hro' as <-. lia.
Qed.

Lemma optimal_is_minimal_witness :
  1 ≤ 2 ∧ 2 ≤ maxFrames
  ∧ ∃ ro,
      result_of (optimalAlgorithmOptimized textbook 2 (buildPagePositions textbook) false)
      = Returned ro
      ∧ demandSchedule 2 ∅ textbook (pageFaults ro)
      ∧ ∀ cap n, cap ≤ 2 → demandSchedule cap ∅ textbook n → pageFaults ro ≤ n.
Proof.
  split; [lia|]. split; [discriminate|].
  apply (optimal_is_minimal textbook 2 false); [lia | discriminate].
Defined.

(** X2: the optimal simulator has no Belady anomaly: with more frames, up
    to the [maxFrames] that [make] accepts, it never returns more faults. *)
Theorem optimal_monotone_in_frames (trace : list string) (fewer more : Z)
    (didacticMode : bool) :
  1 ≤ fewer → fewer ≤ more → more ≤ maxFrames →
  ∃ r1 r2,
    result_of (optimalAlgorithmOptimized trace fewer (buildPagePositions trace)
                 didacticMode) = Returned r1
    ∧ result_of (optimalAlgorithmOptimized trace more (buildPagePositions trace)
                   didacticMode) = Returned r2
    ∧ pageFaults r2 ≤ pageFaults r1.
Proof.
  intros Hfew Hmore Hmax.
  assert (Hinit1 : optInv fewer [] optInit) by (apply optInv_init; lia).
  assert (Hinit2 : optInv more [] optInit) by (apply optInv_init; lia).
  destruct (opt_is_schedule_from fewer trace [] optInit Hfew Hinit1) as (s1 & Hr1 & Hsched).
  simpl in Hr1, Hsched. change (len (@nil string)) with 0 in Hr1.
  rewrite Z.sub_0_r in Hsched.
  destruct (opt_le_schedule_from more fewer trace [] optInit ∅ (pageFaults (o_result s1)) 0
              ltac:(lia) Hmore Hinit2) as (s2 & Hr2 & _ & Hle);
    [rewrite size_empty; lia|right; set_solver|apply lag_within; set_solver|done|].
  simpl in Hr2, Hle. change (len (@nil string)) with 0 in Hr2.
  exists (o_result s1), (o_result s2).
  rewrite !opt_erase by lia. rewrite Hr1, Hr2. simpl.
  split; [done|]. split; [done|]. lia.
Qed.

Lemma optimal_monotone_in_frames_witness :
  1 ≤ 2 ∧ 2 ≤ 3 ∧ 3 ≤ maxFrames
  ∧ ∃ r1 r2,
      result_of (optimalAlgorithmOptimized textbook 2 (buildPagePositions textbook) false)
      = Returned r1
      ∧ result_of (optimalAlgorithmOptimized textbook 3 (buildPagePositions textbook) false)
        = Returned r2
      ∧ pageFaults r2 ≤ pageFaults r1.
Proof.
  split; [lia|]. split; [lia|]. split; [discriminate|].
  apply (optimal_monotone_in_frames textbook 2 3 false); [lia | lia | discriminate].
Defined.

(** ** Runs that never evict *)

Lemma coldInv_hit seen resident frames r page :
  coldInv seen resident frames r → page ∈ resident →
  coldInv (seen ++ [page]) resident frames r.
Proof.
  intros (Hnd & Hmir & Hseen & Hr) Hin.
  assert (Heq : list_to_set (C:=gset string) (seen ++ [page]) = list_to_set seen).
  { rewrite list_to_set_app_L. set_solver. }
  repeat split; try done.
  - by rewrite Heq.
  - unfold coldResult. by rewrite Heq.
Qed.

Lemma coldInv_load seen resident frames r page :
  coldInv seen resident frames r → page ∉ resident →
  coldInv (seen ++ [page]) ({[page]} ∪ resident) (frames ++ [page]) (countFault page r).
Proof.
  intros (Hnd & Hmir & Hseen & Hr) Hout.
  assert (Heq : list_to_set (C:=gset string) (seen ++ [page]) = {[page]} ∪ resident).
  { rewrite list_to_set_app_L. set_solver. }
  repeat split.
  - apply NoDup_app. split; [done|]. split; [|apply NoDup_singleton].
    intros x Hx ->%list_elem_of_singleton. apply Hout. rewrite Hmir. set_solver.
  - rewrite list_to_set_app_L. set_solver.
  - by rewrite Heq.
  - subst r. unfold coldResult, countFault. simpl. rewrite Heq, <- Hseen. f_equal.
    + rewrite size_union by set_solver. rewrite size_singleton. lia.
    + rewrite gset_to_gmap_union_singleton. f_equal.
      by rewrite (proj2 (lookup_gset_to_gmap_None 1 resident page) Hout).
Qed.

Lemma coldInv_room seen rest resident frames r page numFrames :
  coldInv seen resident frames r → page ∉ resident →
  Z.of_nat (size (list_to_set (C:=gset string) (seen ++ page :: rest))) ≤ numFrames →
  len frames < numFrames.
Proof.
  intros (Hnd & Hmir & Hseen & Hr) Hout Hfit.
  assert (size ({[page]} ∪ resident)
          ≤ size (list_to_set (C:=gset string) (seen ++ page :: rest)))%nat.
  { apply subseteq_size. rewrite list_to_set_app_L, list_to_set_cons. set_solver. }
  rewrite size_union, size_singleton in H by set_solver.
  unfold len. rewrite <- (size_list_to_set (C:=gset string) frames), <- Hmir by done. lia.
Qed.

Lemma fifo_never_evicts_from numFrames rest : ∀ seen st,
  (numFrames < 0
   ∨ Z.of_nat (size (list_to_set (C:=gset string) (seen ++ rest))) ≤ numFrames) →
  coldInv seen (f_pageInMemorySet st) (f_memoryFrames st) (f_result st) →
  ∃ st', fifoRun numFrames rest st = Returned st'
         ∧ coldInv (seen ++ rest) (f_pageInMemorySet st') (f_memoryFrames st') (f_result st').
Proof.
  induction rest as [|page rest IH]; intros seen st Hfit Hinv; simpl.
  { exists st. by rewrite app_nil_r. }
  assert (Hnext : ∃ st1, fifoNext numFrames page st = Returned st1
            ∧ coldInv (seen ++ [page]) (f_pageInMemorySet st1) (f_memoryFrames st1)
                (f_result st1)).
  { destruct (decide (page ∈ f_pageInMemorySet st)) as [Hin|Hout].
    - exists st. split; [by apply fifoNext_hit | by apply coldInv_hit].
    - eexists. split; [apply fifoNext_room; [done|] | by apply coldInv_load].
      destruct Hfit as [Hneg|Hfit]; [pose proof (len_nonneg (f_memoryFrames st)); lia|].
      pose proof (coldInv_room _ _ _ _ _ _ _ Hinv Hout Hfit). lia. }
  destruct Hnext as (st1 & -> & Hinv1).
  destruct (IH (seen ++ [page]) st1) as (st' & Hrun & Hinv'); [|done|].
  { by rewrite <- app_assoc. }
  exists st'. split; [done|]. by rewrite <- app_assoc in Hinv'.
Qed.

Lemma opt_never_evicts_from numFrames pagePositions rest : ∀ i seen st,
  Z.of_nat (size (list_to_set (C:=gset string) (seen ++ rest))) ≤ numFrames →
  coldInv seen (o_pageInMemorySet st) (o_memoryFrames st) (o_result st) →
  ∃ st', optRun numFrames pagePositions i rest st = Returned st'
         ∧ coldInv (seen ++ rest) (o_pageInMemorySet st') (o_memoryFrames st') (o_result st').
Proof.
  induction rest as [|page rest IH]; intros i seen st Hfit Hinv; simpl.
  { exists st. by rewrite app_nil_r. }
  assert (Hnext : ∃ st1, optNext numFrames pagePositions i page st = Returned st1
            ∧ coldInv (seen ++ [page]) (o_pageInMemorySet st1) (o_memoryFrames st1)
                (o_result st1)).
  { destruct (decide (page ∈ o_pageInMemorySet st)) as [Hin|Hout].
    - exists st. split; [by apply optNext_hit | by apply coldInv_hit].
    - eexists. split; [apply optNext_room; [done|] | by apply coldInv_load].
      by eapply coldInv_room. }
  destruct Hnext as (st1 & -> & Hinv1).
  destruct (IH (i + 1) (seen ++ [page]) st1) as (st' & Hrun & Hinv'); [|done|].
  { by rewrite <- app_assoc. }
  exists st'. split; [done|]. by rewrite <- app_assoc in Hinv'.
Qed.

Lemma coldInv_init : coldInv [] ∅ [] {| pageFaults := 0; loadCounts := ∅ |}.
Proof.
  split; [constructor|]. split; [done|]. split; [done|].
  unfold coldResult. cbn [list_to_set]. by rewrite size_empty, gset_to_gmap_empty.
Qed.

(** X3: when the distinct pages of the trace fit in [numFrames] frames,
    FIFO returns exactly one fault per distinct page, each page with load
    count 1; so does the optimal simulator, whatever positions it is given,
    for every [numFrames] that [make] accepts, up to [maxFrames]; beyond, it
    panics in [make]. *)
Theorem enough_frames_cold_misses_only (trace : list string) (numFrames : Z)
    (pagePositions : gmap string (list Z)) (didacticMode : bool) :
  Z.of_nat (size (list_to_set (C:=gset string) trace)) ≤ numFrames →
  result_of (fifoAlgorithm trace numFrames didacticMode) = Returned (coldResult trace)
  ∧ (numFrames ≤ maxFrames →
     result_of (optimalAlgorithmOptimized trace numFrames pagePositions didacticMode)
     = Returned (coldResult trace))
  ∧ (maxFrames < numFrames →
     result_of (optimalAlgorithmOptimized trace numFrames pagePositions didacticMode)
     = Panicked MakesliceCapOutOfRange).
Proof.
  intros Hfit. split; [|split].
  - destruct (fifo_never_evicts_from numFrames trace [] fifoInit) as (st & Hrun & Hinv);
      [by right|apply coldInv_init|].
    rewrite fifo_erase, Hrun. simpl. f_equal. apply Hinv.
  - intros Hmax.
    destruct (opt_never_evicts_from numFrames pagePositions trace 0 [] optInit)
      as (st & Hrun & Hinv); [done|apply coldInv_init|].
    rewrite opt_erase by lia. rewrite Hrun. simpl. f_equal. apply Hinv.
  - apply opt_too_many_frames.
Qed.

Lemma enough_frames_cold_misses_only_witness :
  (Z.of_nat (size (list_to_set (C:=gset string) textbook)) ≤ 4 ∧ 4 ≤ maxFrames
   ∧ result_of (fifoAlgorithm textbook 4 false) = Returned (coldResult textbook)
   ∧ result_of (optimalAlgorithmOptimized textbook 4 ∅ false)
     = Returned (coldResult textbook))
  ∧ (Z.of_nat (size (list_to_set (C:=gset string) textbook)) ≤ maxFrames + 1
     ∧ maxFrames < maxFrames + 1
     ∧ result_of (fifoAlgorithm textbook (maxFrames + 1) false)
       = Returned (coldResult textbook)
     ∧ result_of (optimalAlgorithmOptimized textbook (maxFrames + 1) ∅ false)
       = Panicked MakesliceCapOutOfRange).
Proof.
  assert (H : Z.of_nat (size (list_to_set (C:=gset string) textbook)) ≤ 4)
    by (vm_compute; discriminate).
  assert (H' : Z.of_nat (size (list_to_set (C:=gset string) textbook)) ≤ maxFrames + 1)
    by (vm_compute; discriminate).
  split.
  - split; [exact H|]. split; [discriminate|].
    destruct (enough_frames_cold_misses_only textbook 4 ∅ false H) as (Hf & Ho & _).
    split; [exact Hf | apply Ho; discriminate].
  - split; [exact H'|]. split; [reflexivity|].
    destruct (enough_frames_cold_misses_only textbook (maxFrames + 1) ∅ false H')
      as (Hf & _ & Hpanic).
    split; [exact Hf | apply Hpanic; reflexivity].
Defined.

(** X4: [fifoAlgorithm] with a negative [numFrames] never evicts: it returns
    one fault per distinct page of the trace, each page with load count 1. *)
Theorem fifo_negative_frames_unbounded (trace : list string) (numFrames : Z)
    (didacticMode : bool) :
  numFrames < 0 →
  result_of (fifoAlgorithm trace numFrames didacticMode) = Returned (coldResult trace).
Proof.
  intros Hneg.
  destruct (fifo_never_evicts_from numFrames trace [] fifoInit) as (st & Hrun & Hinv);
    [by left|apply coldInv_init|].
  rewrite fifo_erase, Hrun. simpl. f_equal. apply Hinv.
Qed.

Lemma fifo_negative_frames_unbounded_witness :
  -1 < 0
  ∧ result_of (fifoAlgorithm textbook (-1) false) = Returned (coldResult textbook).
Proof. split; [lia | apply (fifo_negative_frames_unbounded textbook (-1) false); lia]. Defined.

(** ** The queue of FIFO *)

Lemma lastn_snoc_room {A} (k : nat) (hist : list A) x :
  (length (lastn k hist) < k)%nat → lastn k (hist ++ [x]) = lastn k hist ++ [x].
Proof.
  unfold lastn. rewrite length_drop, length_app. simpl. intros Hlt.
  replace (length hist + 1 - k)%nat with 0%nat by lia.
  replace (length hist - k)%nat with 0%nat by lia. done.
Qed.

Lemma lastn_snoc_full {A} (k : nat) (hist : list A) x oldest rest :
  lastn k hist = oldest :: rest → length (oldest :: rest) = k →
  lastn k (hist ++ [x]) = rest ++ [x].
Proof.
  unfold lastn. intros Hl Hk.
  assert (Hlen : (k ≤ length hist)%nat).
  { rewrite <- Hl, length_drop in Hk. simpl in Hk. 
    destruct (decide (k ≤ length hist)%nat); [done|].
    apply (f_equal length) in Hl. rewrite length_drop in Hl. simpl in Hl. lia. }
  simpl in Hk. rewrite length_app. simpl.
  replace (length hist + 1 - k)%nat with (S (length hist - k)) by lia.
  rewrite drop_app_le by lia. f_equal.
  replace (S (length hist - k)) with ((length hist - k) + 1)%nat by lia.
  rewrite <- drop_drop, Hl. done.
Qed.

Lemma fifo_queue_from numFrames refs : ∀ seen st hist,
  1 ≤ numFrames → fifoInv numFrames seen st →
  f_memoryFrames st = lastn (Z.to_nat numFrames) hist →
  ∃ st', fifoRun numFrames refs st = Returned st'
         ∧ f_memoryFrames st' = lastn (Z.to_nat numFrames) (hist ++ fifoMisses numFrames refs st)
         ∧ pageFaults (f_result st') - pageFaults (f_result st)
           = len (fifoMisses numFrames refs st).
Proof.
  induction refs as [|page rest IH]; intros seen st hist Hn Hinv Hq; simpl.
  { exists st. rewrite app_nil_r. split; [done|]. split; [done|]. unfold len; simpl. lia. }
  destruct (fifoNext_inv numFrames seen page st Hn Hinv) as (st1 & Hst1 & Hinv1).
  rewrite Hst1.
  assert (Hq1 : f_memoryFrames st1
                = lastn (Z.to_nat numFrames)
                    (hist ++ (if decide (page ∈ f_pageInMemorySet st) then [] else [page]))
                ∧ pageFaults (f_result st1) - pageFaults (f_result st)
                  = len (if decide (page ∈ f_pageInMemorySet st) then [] else [page])).
  { destruct (decide (page ∈ f_pageInMemorySet st)) as [Hin|Hout].
    - rewrite fifoNext_hit in Hst1 by done. injection Hst1 as <-.
      rewrite app_nil_r. split; [done|]. unfold len; simpl. lia.
    - destruct (decide (len (f_memoryFrames st) = numFrames)) as [Hfull|Hroom].
      + destruct (f_memoryFrames st) as [|oldest rest'] eqn:Hfr;
          [unfold len in Hfull; simpl in Hfull; lia|].
        rewrite (fifoNext_evict _ _ _ oldest rest') in Hst1 by (by rewrite ?Hfr).
        injection Hst1 as <-. simpl. split; [|unfold len; simpl; lia].
        symmetry. apply (lastn_snoc_full _ _ _ oldest rest'); [done|].
        unfold len in Hfull. lia.
      + rewrite fifoNext_room in Hst1 by done. injection Hst1 as <-. simpl.
        split; [|unfold len; simpl; lia].
        rewrite Hq. symmetry. apply lastn_snoc_room. rewrite <- Hq.
        pose proof (bk_len _ _ _ _ _ Hinv). unfold len in *. lia. }
  destruct Hq1 as [Hq1 Hpf1].
  destruct (IH (seen ++ [page]) st1 _ Hn Hinv1 Hq1) as (st' & Hrun & Hq' & Hpf').
  exists st'. split; [done|]. rewrite <- app_assoc in Hq'. split; [done|].
  rewrite len_app. lia.
Qed.

(** X5: the queue of FIFO is the arrival order: with at least one frame,
    after every number of references [memoryFrames] is the last [numFrames]
    pages that missed, oldest first, and [pageFaults] is their number. *)
Theorem fifo_queue_is_arrival_order (trace : list string) (numFrames : Z) (n : nat) :
  1 ≤ numFrames →
  ∃ st, fifoAfter numFrames trace n = Returned st
        ∧ f_memoryFrames st
          = lastn (Z.to_nat numFrames) (fifoMisses numFrames (take n trace) fifoInit)
        ∧ pageFaults (f_result st) = len (fifoMisses numFrames (take n trace) fifoInit).
Proof.
  intros Hn.
  destruct (fifo_queue_from numFrames (take n trace) [] fifoInit [] Hn) as (st & Hrun & Hq & Hpf).
  - apply fifoInv_init. lia.
  - done.
  - exists st. simpl in Hq, Hpf. split; [done|]. split; [done|]. lia.
Qed.

Lemma fifo_queue_is_arrival_order_witness :
  1 ≤ 3
  ∧ ∃ st, fifoAfter 3 textbook 7 = Returned st
          ∧ f_memoryFrames st = lastn (Z.to_nat 3) (fifoMisses 3 (take 7 textbook) fifoInit).
Proof.
  split; [lia|].
  destruct (fifo_queue_is_arrival_order textbook 3 7 ltac:(lia)) as (st & H1 & H2 & _).
  exists st. split; [exact H1 | exact H2].
Defined.

(** ** The forward cursors *)

Lemma scanFrames_cursor_mono seen page rest frames : ∀ idx far vic cur q,
  cursorsWithin seen cur → page ∉ frames →
  default 0 (cur !! q)
  ≤ default 0 (snd (scanFrames (buildPagePositions (seen ++ page :: rest)) (len seen)
                      frames idx far vic cur) !! q).
Proof.
  induction frames as [|f frames IH]; intros idx far vic cur q Hcur Hnotin;
    cbn [scanFrames]; [simpl; lia|].
  apply not_elem_of_cons in Hnotin as [Hne Hnotin].
  rewrite (nextUse_spec seen page rest cur f Hcur) by congruence.
  pose proof (cursorsWithin_insert seen cur f Hcur) as Hcur'.
  assert (Hstep : default 0 (cur !! q)
                  ≤ default 0 (<[f:=len (occFrom 0 seen f)]> cur !! q)).
  { destruct (decide (f = q)) as [->|Hfq].
    - rewrite lookup_insert_eq. simpl. apply Hcur.
    - rewrite lookup_insert_ne by done. lia. }
  destruct (nextPosOf (len seen + 1) rest f =? -1); [exact Hstep|].
  destruct (nextPosOf (len seen + 1) rest f >? far);
    (etrans; [exact Hstep | by apply IH]).
Qed.

Lemma optNext_cursor_mono numFrames seen page rest st st' q :
  optInv numFrames seen st →
  optNext numFrames (buildPagePositions (seen ++ page :: rest)) (len seen) page st
  = Returned st' →
  default 0 (o_nextUseCursor st !! q) ≤ default 0 (o_nextUseCursor st' !! q).
Proof.
  intros [Hbk Hcur] Hnext. unfold optNext in Hnext.
  destruct (decide (page ∈ o_pageInMemorySet st)) as [Hin|Hout];
    [injection Hnext as <-; lia|].
  destruct (len (o_memoryFrames st) <? numFrames); [injection Hnext as <-; simpl; lia|].
  cbv zeta in Hnext.
  destruct (index (o_memoryFrames st) _) as [ev|]; [|done].
  injection Hnext as <-. simpl. apply scanFrames_cursor_mono; [done|].
  rewrite (bk_mirror _ _ _ _ _ Hbk) in Hout. set_solver.
Qed.

Lemma optAfter_cursor_mono numFrames trace (n k : nat) q :
  1 ≤ numFrames →
  ∃ st st', optAfter numFrames trace n = Returned st
            ∧ optAfter numFrames trace (n + k) = Returned st'
            ∧ default 0 (o_nextUseCursor st !! q) ≤ default 0 (o_nextUseCursor st' !! q).
Proof.
  intros Hn. induction k as [|k (st & st' & Hst & Hst' & Hle)].
  - destruct (optAfter_inv numFrames trace n Hn) as (st & Hst & _).
    exists st, st. rewrite Nat.add_0_r. split; [done|]. split; [done|]. lia.
  - destruct (optAfter_inv numFrames trace (n + S k) Hn) as (st2 & Hst2 & _).
    exists st, st2. split; [done|]. split; [done|].
    destruct (trace !! (n + k)%nat) as [page|] eqn:Hpage.
    + destruct (optAfter_inv numFrames trace (n + k) Hn) as (st1 & Hst1 & Hinv1).
      rewrite Hst' in Hst1. injection Hst1 as <-.
      replace (n + S k)%nat with (S (n + k)) in Hst2 by lia.
      rewrite (optAfter_S _ _ _ _ _ Hpage Hst') in Hst2.
      destruct (trace_split trace (n + k) page Hpage) as [Hsplit Hlen].
      pose proof (optNext_cursor_mono numFrames (take (n + k) trace) page
                    (drop (S (n + k)) trace) st' st2 q Hinv1) as Hmono.
      rewrite <- Hsplit, Hlen in Hmono. specialize (Hmono Hst2). lia.
    + apply lookup_ge_None in Hpage. unfold optAfter in *.
      rewrite take_ge in Hst2, Hst' by lia. rewrite Hst' in Hst2. injection Hst2 as <-. done.
Qed.

(** X6: the forward cursor of every page, in the run of the optimal simulator
    with at least one frame: it starts at 0, never decreases, never exceeds
    the length of the page's position list, and only passes positions that
    are already behind the current index. *)
Theorem cursors_monotone_and_within (trace : list string) (numFrames : Z) (n m : nat)
    (q : string) :
  1 ≤ numFrames → (n ≤ m)%nat →
  ∃ st st',
    optAfter numFrames trace n = Returned st
    ∧ optAfter numFrames trace m = Returned st'
    ∧ 0 ≤ default 0 (o_nextUseCursor st !! q)
    ∧ default 0 (o_nextUseCursor st !! q) ≤ default 0 (o_nextUseCursor st' !! q)
    ∧ default 0 (o_nextUseCursor st' !! q)
      ≤ len (default [] (buildPagePositions trace !! q))
    ∧ ∀ (k : nat) pos,
        Z.of_nat k < default 0 (o_nextUseCursor st' !! q) →
        default [] (buildPagePositions trace !! q) !! k = Some pos →
        pos < Z.of_nat m.
Proof.
  intros Hn Hle.
  destruct (optAfter_cursor_mono numFrames trace n (m - n) q Hn)
    as (st & st' & Hst & Hst' & Hmono).
  replace (n + (m - n))%nat with m in Hst' by lia.
  destruct (optAfter_inv numFrames trace n Hn) as (st0 & Hst0 & [_ Hcur]).
  rewrite Hst in Hst0. injection Hst0 as <-.
  destruct (optAfter_inv numFrames trace m Hn) as (st1 & Hst1 & [_ Hcur']).
  rewrite Hst' in Hst1. injection Hst1 as <-.
  exists st, st'. split; [done|]. split; [done|].
  specialize (Hcur q). specialize (Hcur' q).
  rewrite buildPagePositions_lookup.
  assert (Hsplit : occFrom 0 trace q
                   = occFrom 0 (take m trace) q
                     ++ occFrom (0 + len (take m trace)) (drop m trace) q)
    by (by rewrite <- occFrom_app, take_drop).
  rewrite Hsplit, len_app.
  pose proof (len_nonneg (occFrom (0 + len (take m trace)) (drop m trace) q)).
  split; [lia|]. split; [done|]. split; [lia|].
  intros k pos Hk Hpos. rewrite lookup_app_l in Hpos by (unfold len in *; lia).
  apply list_elem_of_lookup_2, occFrom_bounds in Hpos.
  assert (len (take m trace) ≤ Z.of_nat m) by (unfold len; rewrite length_take; lia).
  lia.
Qed.

Lemma cursors_monotone_and_within_witness :
  1 ≤ 3 ∧ (6 ≤ 9)%nat
  ∧ ∃ st st',
      optAfter 3 textbook 6 = Returned st
      ∧ optAfter 3 textbook 9 = Returned st'
      ∧ default 0 (o_nextUseCursor st !! "A"%string)
        ≤ default 0 (o_nextUseCursor st' !! "A"%string).
Proof.
  split; [lia|]. split; [lia|].
  destruct (cursors_monotone_and_within textbook 3 6 9 "A" ltac:(lia) ltac:(lia))
    as (st & st' & H1 & H2 & _ & H3 & _).
  exists st, st'. split; [exact H1|]. split; [exact H2 | exact H3].
Defined.

(** ** The didactic narration *)

Lemma fifo_step_silent numFrames i page st out :
  snd (fifoStep numFrames false i page st out) = out.
Proof.
  unfold fifoStep. unfold_M. simpl.
  destruct (decide (page ∈ f_pageInMemorySet st)); simpl; [done|].
  destruct (len (f_memoryFrames st) =? numFrames); simpl; [|done].
  by destruct (f_memoryFrames st).
Qed.

Lemma fifo_loop_silent numFrames refs : ∀ i st out,
  snd (fifoLoop numFrames false i refs st out) = out.
Proof.
  induction refs as [|page rest IH]; intros i st out; [done|].
  simpl. unfold mbind, M_bind, bind.
  pose proof (fifo_step_silent numFrames i page st out) as E.
  destruct (fifoStep numFrames false i page st out) as [[st'|p|c] out'];
    simpl in E; subst out'; [apply IH|done|done].
Qed.

Lemma opt_step_silent numFrames pagePositions i page st out :
  snd (optStep numFrames pagePositions false i page st out) = out.
Proof.
  unfold optStep. unfold_M. simpl.
  destruct (decide (page ∈ o_pageInMemorySet st)); simpl; [done|].
  destruct (len (o_memoryFrames st) <? numFrames); simpl; [done|].
  destruct (scanFrames pagePositions i (o_memoryFrames st) 0 (-1) (-1)
              (o_nextUseCursor st)) as [v cur]; simpl.
  by destruct (index (o_memoryFrames st) v).
Qed.

Lemma opt_loop_silent numFrames pagePositions refs : ∀ i st out,
  snd (optLoop numFrames pagePositions false i refs st out) = out.
Proof.
  induction refs as [|page rest IH]; intros i st out; [done|].
  simpl. unfold mbind, M_bind, bind.
  pose proof (opt_step_silent numFrames pagePositions i page st out) as E.
  destruct (optStep numFrames pagePositions false i page st out) as [[st'|p|c] out'];
    simpl in E; subst out'; [apply IH|done|done].
Qed.

(** X7: without the didactic mode neither simulator prints anything, for
    every trace, every [numFrames] (also when the call panics) and every
    positions map. *)
Theorem silent_without_didactic_mode (trace : list string) (numFrames : Z)
    (pagePositions : gmap string (list Z)) :
  printed_by (fifoAlgorithm trace numFrames false) = []
  ∧ printed_by (optimalAlgorithmOptimized trace numFrames pagePositions false) = [].
Proof.
  split.
  - unfold printed_by, fifoAlgorithm, mbind, M_bind, bind.
    pose proof (fifo_loop_silent numFrames trace 0 fifoInit []) as E.
    destruct (fifoLoop numFrames false 0 trace fifoInit []) as [[st'|p|c] out']; exact E.
  - unfold printed_by, optimalAlgorithmOptimized, mbind, M_bind, bind.
    destruct (decide (0 ≤ numFrames ≤ maxFrames)) as [Hok|Hbad].
    + rewrite makeslice_accepts by done.
      pose proof (opt_loop_silent numFrames pagePositions trace 0 optInit []) as E.
      destruct (optLoop numFrames pagePositions false 0 trace optInit [])
        as [[st'|p|c] out']; exact E.
    + rewrite makeslice_panics by lia. done.
Qed.

Lemma stepsOf_app out1 out2 : stepsOf (out1 ++ out2) = stepsOf out1 ++ stepsOf out2.
Proof.
  induction out1 as [|l out1 IH]; [done|]. destruct l; simpl; by rewrite ?IH.
Qed.

Lemma countLines_app kind out1 out2 :
  countLines kind (out1 ++ out2) = countLines kind out1 + countLines kind out2.
Proof. induction out1 as [|l out1 IH]; simpl; [done|]. rewrite IH. lia. Qed.

Ltac narration :=
  unfold narrates; rewrite ?stepsOf_app, ?countLines_app; simpl;
  rewrite ?app_nil_r; repeat split; lia.

Lemma fifo_step_narrates numFrames i page st out st' out' :
  fifoStep numFrames true i page st out = (Returned st', out') →
  narrates FIFO i page (pageFaults (f_result st') - pageFaults (f_result st)) out out'.
Proof.
  unfold fifoStep. unfold_M. simpl.
  destruct (decide (page ∈ f_pageInMemorySet st)); simpl.
  { intros [= <- <-]. narration. }
  destruct (len (f_memoryFrames st) =? numFrames); simpl.
  - destruct (f_memoryFrames st) as [|e rest]; simpl; [done|].
    destruct (bool_decide (e ≠ EmptyString)); simpl; intros [= <- <-]; simpl; narration.
  - intros [= <- <-]. simpl. narration.
Qed.

Lemma opt_step_narrates numFrames pagePositions i page st out st' out' :
  optStep numFrames pagePositions true i page st out = (Returned st', out') →
  narrates Otimo i page (pageFaults (o_result st') - pageFaults (o_result st)) out out'.
Proof.
  unfold optStep. unfold_M. simpl.
  destruct (decide (page ∈ o_pageInMemorySet st)); simpl.
  { intros [= <- <-]. narration. }
  destruct (len (o_memoryFrames st) <? numFrames); simpl.
  { intros [= <- <-]. simpl. narration. }
  destruct (scanFrames pagePositions i (o_memoryFrames st) 0 (-1) (-1)
              (o_nextUseCursor st)) as [v cur]; simpl.
  destruct (index (o_memoryFrames st) v) as [e|]; simpl; [|done].
  destruct (bool_decide (e ≠ EmptyString)); simpl; intros [= <- <-]; simpl; narration.
Qed.

Lemma narratesAll_cons alg i page rest f1 f2 out out1 out' :
  narrates alg i page f1 out out1 → narratesAll alg (i + 1) rest f2 out1 out' →
  narratesAll alg i (page :: rest) (f1 + f2) out out'.
Proof.
  intros (H1 & H2 & H3 & H4 & H5) (G1 & G2 & G3 & G4 & G5).
  unfold narratesAll. simpl. rewrite G1, H1, <- app_assoc. simpl.
  replace (len (page :: rest)) with (len rest + 1) by (unfold len; simpl; lia).
  repeat split; try done; lia.
Qed.

Lemma fifo_loop_narrates numFrames refs : ∀ i st out st' out',
  fifoLoop numFrames true i refs st out = (Returned st', out') →
  narratesAll FIFO i refs (pageFaults (f_result st') - pageFaults (f_result st)) out out'.
Proof.
  induction refs as [|page rest IH]; intros i st out st' out'; simpl.
  { intros [= <- <-]. unfold narratesAll. simpl. rewrite app_nil_r.
    unfold len; simpl. repeat split; lia. }
  unfold mbind, M_bind, bind.
  destruct (fifoStep numFrames true i page st out) as [[st1|p|c] out1] eqn:Hstep;
    [|done|done].
  intros Hloop. apply fifo_step_narrates in Hstep. apply IH in Hloop.
  replace (pageFaults (f_result st') - pageFaults (f_result st))
    with ((pageFaults (f_result st1) - pageFaults (f_result st))
          + (pageFaults (f_result st') - pageFaults (f_result st1))) by lia.
  by eapply narratesAll_cons.
Qed.

Lemma opt_loop_narrates numFrames pagePositions refs : ∀ i st out st' out',
  optLoop numFrames pagePositions true i refs st out = (Returned st', out') →
  narratesAll Otimo i refs (pageFaults (o_result st') - pageFaults (o_result st)) out out'.
Proof.
  induction refs as [|page rest IH]; intros i st out st' out'; simpl.
  { intros [= <- <-]. unfold narratesAll. simpl. rewrite app_nil_r.
    unfold len; simpl. repeat split; lia. }
  unfold mbind, M_bind, bind.
  destruct (optStep numFrames pagePositions true i page st out) as [[st1|p|c] out1] eqn:Hstep;
    [|done|done].
  intros Hloop. apply opt_step_narrates in Hstep. apply IH in Hloop.
  replace (pageFaults (o_result st') - pageFaults (o_result st))
    with ((pageFaults (o_result st1) - pageFaults (o_result st))
          + (pageFaults (o_result st') - pageFaults (o_result st1))) by lia.
  by eapply narratesAll_cons.
Qed.

(** X8: the didactic narration agrees with the result.  Whenever a simulator
    returns in didactic mode, whatever the other one does, its output has
    one step header per reference, numbered from 1 in trace order, one memory
    line per reference, exactly [pageFaults] fault lines and as many
    inserted-page lines, and a hit line for every other reference. *)
Theorem narration_agrees_with_result (trace : list string) (numFrames : Z)
    (pagePositions : gmap string (list Z)) :
  (∀ rf, result_of (fifoAlgorithm trace numFrames true) = Returned rf →
     let out := printed_by (fifoAlgorithm trace numFrames true) in
     stepsOf out = headersFrom FIFO 0 trace
     ∧ countLines isFault out = pageFaults rf
     ∧ countLines isInserted out = pageFaults rf
     ∧ countLines isHit out = len trace - pageFaults rf
     ∧ countLines isMemory out = len trace)
  ∧ (∀ ro, result_of (optimalAlgorithmOptimized trace numFrames pagePositions true)
           = Returned ro →
       let out := printed_by (optimalAlgorithmOptimized trace numFrames pagePositions true) in
       stepsOf out = headersFrom Otimo 0 trace
       ∧ countLines isFault out = pageFaults ro
       ∧ countLines isInserted out = pageFaults ro
       ∧ countLines isHit out = len trace - pageFaults ro
       ∧ countLines isMemory out = len trace).
Proof.
  split.
  - intros rf Hf.
    unfold result_of, printed_by, fifoAlgorithm, mbind, M_bind, bind in *.
    destruct (fifoLoop numFrames true 0 trace fifoInit []) as [[st|p|c] out] eqn:Hloop;
      [|done|done].
    simpl in *. injection Hf as <-.
    apply fifo_loop_narrates in Hloop as (H1 & H2 & H3 & H4 & H5). simpl in *.
    clear - H1 H2 H3 H4 H5. repeat split; try done; lia.
  - intros ro Ho.
    unfold result_of, printed_by, optimalAlgorithmOptimized, mbind, M_bind, bind in *.
    destruct (decide (0 ≤ numFrames ≤ maxFrames)) as [Hok|Hbad].
    2:{ rewrite makeslice_panics in Ho by lia. done. }
    rewrite makeslice_accepts in * by done.
    destruct (optLoop numFrames pagePositions true 0 trace optInit [])
      as [[st|p|c] out] eqn:Hloop; [|done|done].
    simpl in *. injection Ho as <-.
    apply opt_loop_narrates in Hloop as (H1 & H2 & H3 & H4 & H5). simpl in *.
    clear - H1 H2 H3 H4 H5. repeat split; try done; lia.
Qed.

Lemma narration_agrees_with_result_witness :
  (result_of (fifoAlgorithm textbook (-1) true) = Returned (coldResult textbook)
   ∧ stepsOf (printed_by (fifoAlgorithm textbook (-1) true)) = headersFrom FIFO 0 textbook
   ∧ countLines isFault (printed_by (fifoAlgorithm textbook (-1) true)) = 4
   ∧ countLines isHit (printed_by (fifoAlgorithm textbook (-1) true)) = 6)
  ∧ (result_of (optimalAlgorithmOptimized textbook 3 (buildPagePositions textbook) true)
     = Returned textbookOptimalResult
     ∧ countLines isFault
         (printed_by (optimalAlgorithmOptimized textbook 3 (buildPagePositions textbook)
                        true)) = 5
     ∧ countLines isHit
         (printed_by (optimalAlgorithmOptimized textbook 3 (buildPagePositions textbook)
                        true)) = 5).
Proof.
  assert (Hf : result_of (fifoAlgorithm textbook (-1) true) = Returned (coldResult textbook))
    by (vm_compute; reflexivity).
  assert (Ho : result_of (optimalAlgorithmOptimized textbook 3 (buildPagePositions textbook)
                            true) = Returned textbookOptimalResult)
    by (vm_compute; reflexivity).
  split.
  - split; [exact Hf|].
    destruct (proj1 (narration_agrees_with_result textbook (-1) ∅) _ Hf)
      as (H1 & H2 & _ & H3 & _).
    split; [exact H1|]. split; [exact H2 | exact H3].
  - split; [exact Ho|].
    destruct (proj2 (narration_agrees_with_result textbook 3 (buildPagePositions textbook))
                _ Ho) as (_ & H1 & _ & H2 & _).
    split; [exact H1 | exact H2].
Defined.

(** ** Counters against the trace *)

Lemma timesReferenced_cons p page refs :
  timesReferenced p (page :: refs)
  = (if decide (page = p) then 1 else 0) + timesReferenced p refs.
Proof.
  unfold timesReferenced, len. rewrite filter_cons.
  destruct (decide (page = p)); simpl; lia.
Qed.

Lemma timesReferenced_nonneg p refs : 0 ≤ timesReferenced p refs.
Proof. apply len_nonneg. Qed.

Lemma fifoNext_counted numFrames page st st' :
  fifoNext numFrames page st = Returned st' → countedOnce page (f_result st) (f_result st').
Proof.
  unfold fifoNext, countedOnce.
  destruct (decide _); [intros [= <-]; by left|].
  destruct (_ =? _); [|intros [= <-]; by right].
  destruct (f_memoryFrames st); [done|]. intros [= <-]. by right.
Qed.

Lemma optNext_counted numFrames pagePositions i page st st' :
  optNext numFrames pagePositions i page st = Returned st' →
  countedOnce page (o_result st) (o_result st').
Proof.
  unfold optNext, countedOnce.
  destruct (decide _); [intros [= <-]; by left|].
  destruct (_ <? _); [intros [= <-]; by right|].
  cbv zeta. destruct (index _ _); [|done]. intros [= <-]. by right.
Qed.

Lemma countedWithin_nil r : countedWithin [] r r.
Proof.
  split; [unfold len; simpl; lia|]. intros p. unfold timesReferenced, len. simpl. lia.
Qed.

Lemma countedWithin_cons page refs r r1 r' :
  countedOnce page r r1 → countedWithin refs r1 r' → countedWithin (page :: refs) r r'.
Proof.
  intros Hone [Hpf Hlc].
  assert (Hstep : pageFaults r ≤ pageFaults r1 ≤ pageFaults r + 1
            ∧ ∀ p, default 0 (loadCounts r !! p) ≤ default 0 (loadCounts r1 !! p)
                   ≤ default 0 (loadCounts r !! p) + (if decide (page = p) then 1 else 0)).
  { destruct Hone as [->| ->].
    - split; [lia|]. intros p. destruct (decide (page = p)); lia.
    - simpl. split; [lia|]. intros p. destruct (decide (page = p)) as [->|Hne].
      + rewrite lookup_insert_eq. simpl. lia.
      + rewrite lookup_insert_ne by done. lia. }
  destruct Hstep as [Hpf1 Hlc1]. split.
  - replace (len (page :: refs)) with (len refs + 1) by (unfold len; simpl; lia). lia.
  - intros p. specialize (Hlc p). specialize (Hlc1 p).
    rewrite timesReferenced_cons. lia.
Qed.

Lemma fifoRun_counted numFrames refs : ∀ st st',
  fifoRun numFrames refs st = Returned st' →
  countedWithin refs (f_result st) (f_result st').
Proof.
  induction refs as [|page rest IH]; intros st st'; simpl.
  - intros [= <-]. apply countedWithin_nil.
  - destruct (fifoNext numFrames page st) as [st1|?|?] eqn:Hnext; [|done|done].
    intros Hrun. eapply countedWithin_cons; [by eapply fifoNext_counted | by apply IH].
Qed.

Lemma optRun_counted numFrames pagePositions refs : ∀ i st st',
  optRun numFrames pagePositions i refs st = Returned st' →
  countedWithin refs (o_result st) (o_result st').
Proof.
  induction refs as [|page rest IH]; intros i st st'; simpl.
  - intros [= <-]. apply countedWithin_nil.
  - destruct (optNext numFrames pagePositions i page st) as [st1|?|?] eqn:Hnext;
      [|done|done].
    intros Hrun. eapply countedWithin_cons; [by eapply optNext_counted | by eapply IH].
Qed.

(** X9: whenever a simulator returns, for every [numFrames], mode and
    positions map, [pageFaults] is between 0 and the length of the trace and
    the load count of every page is between 0 and the number of references
    to that page (0 for a page that is never referenced). *)
Theorem counters_within_trace (trace : list string) (numFrames : Z)
    (pagePositions : gmap string (list Z)) (didacticMode : bool) (r : SimulationResult) :
  result_of (fifoAlgorithm trace numFrames didacticMode) = Returned r
  ∨ result_of (optimalAlgorithmOptimized trace numFrames pagePositions didacticMode)
    = Returned r →
  0 ≤ pageFaults r ≤ len trace
  ∧ ∀ p, 0 ≤ default 0 (loadCounts r !! p) ≤ timesReferenced p trace.
Proof.
  assert (Hfrom : ∀ r', countedWithin trace {| pageFaults := 0; loadCounts := ∅ |} r' →
            0 ≤ pageFaults r' ≤ len trace
            ∧ ∀ p, 0 ≤ default 0 (loadCounts r' !! p) ≤ timesReferenced p trace).
  { intros r' [Hpf Hlc]. simpl in *. split; [lia|]. intros p. specialize (Hlc p).
    rewrite lookup_empty in Hlc. simpl in Hlc. lia. }
  intros [Hf|Ho].
  - rewrite fifo_erase in Hf.
    destruct (fifoRun numFrames trace fifoInit) as [st|?|?] eqn:Hrun; [|done|done].
    injection Hf as <-. apply Hfrom. by apply (fifoRun_counted _ _ _ _ Hrun).
  - destruct (Z.ltb_spec numFrames 0) as [Hneg|Hnn].
    { by rewrite opt_negative_frames in Ho. }
    destruct (Z.ltb_spec maxFrames numFrames) as [Hbig|Hmax].
    { by rewrite opt_too_many_frames in Ho. }
    rewrite opt_erase in Ho by done.
    destruct (optRun numFrames pagePositions 0 trace optInit) as [st|?|?] eqn:Hrun;
      [|done|done].
    injection Ho as <-. apply Hfrom. by apply (optRun_counted _ _ _ _ _ _ Hrun).
Qed.

Lemma counters_within_trace_witness :
  (result_of (fifoAlgorithm textbook 3 false) = Returned textbookFifoResult
   ∨ result_of (optimalAlgorithmOptimized textbook 3 ∅ false) = Returned textbookFifoResult)
  ∧ 0 ≤ pageFaults textbookFifoResult ≤ len textbook.
Proof.
  assert (H : result_of (fifoAlgorithm textbook 3 false) = Returned textbookFifoResult
              ∨ result_of (optimalAlgorithmOptimized textbook 3 ∅ false)
                = Returned textbookFifoResult)
    by (left; vm_compute; reflexivity).
  split; [exact H|].
  exact (proj1 (counters_within_trace textbook 3 ∅ false textbookFifoResult H)).
Defined.

(** ** The optimal simulator on positions that are not those of the trace *)

Lemma index_Some_elem {A} (s : list A) (i : Z) (x : A) : index s i = Some x → x ∈ s.
Proof.
  unfold index. destruct (i <? 0); [done|]. apply list_elem_of_lookup_2.
Qed.

Lemma nextUse_ge pagePositions cur i f :
  positionsValid pagePositions → -1 ≤ snd (nextUse pagePositions cur i f).
Proof.
  intros Hvalid. unfold nextUse. cbv zeta. simpl.
  destruct (_ <? _); [|lia].
  destruct (pagePositions !! f) as [l|] eqn:Hl; simpl.
  - destruct (index l _) as [pos|] eqn:Hpos; simpl; [|lia].
    apply index_Some_elem in Hpos. by eapply Hvalid.
  - unfold index. destruct (_ <? 0); simpl; lia.
Qed.

Lemma scanFrames_range pagePositions i frames : ∀ idx far vic cur,
  let v := fst (scanFrames pagePositions i frames idx far vic cur) in
  v = vic ∨ idx ≤ v < idx + len frames.
Proof.
  induction frames as [|f frames IH]; intros idx far vic cur; cbv zeta; cbn [scanFrames].
  { by left. }
  destruct (nextUse pagePositions cur i f) as [c np].
  replace (len (f :: frames)) with (len frames + 1) by (unfold len; simpl; lia).
  pose proof (len_nonneg frames).
  destruct (np =? -1); [right; simpl; lia|].
  destruct (np >? far).
  - destruct (IH (idx + 1) np idx (<[f:=c]> cur)) as [->|?]; right; lia.
  - destruct (IH (idx + 1) far vic (<[f:=c]> cur)) as [->|?]; [by left|right; lia].
Qed.

Lemma scanFrames_in_range pagePositions i frames cur :
  positionsValid pagePositions → frames ≠ [] →
  0 ≤ fst (scanFrames pagePositions i frames 0 (-1) (-1) cur) < len frames.
Proof.
  intros Hvalid Hne. destruct frames as [|f frames]; [done|]. cbn [scanFrames].
  pose proof (nextUse_ge pagePositions cur i f Hvalid) as Hge.
  destruct (nextUse pagePositions cur i f) as [c np]. simpl in Hge.
  replace (len (f :: frames)) with (len frames + 1) by (unfold len; simpl; lia).
  pose proof (len_nonneg frames).
  destruct (Z.eqb_spec np (-1)); [simpl; lia|].
  destruct (Z.gtb_spec np (-1)); [|lia].
  destruct (scanFrames_range pagePositions i frames (0 + 1) np 0 (<[f:=c]> cur)) as [->|?];
    lia.
Qed.

Lemma optNext_any_positions numFrames pagePositions seen i page st :
  1 ≤ numFrames → positionsValid pagePositions →
  bookkeeping numFrames seen (o_pageInMemorySet st) (o_memoryFrames st) (o_result st) →
  ∃ st', optNext numFrames pagePositions i page st = Returned st'
    ∧ bookkeeping numFrames (seen ++ [page]) (o_pageInMemorySet st') (o_memoryFrames st')
        (o_result st')
    ∧ ((page ∈ o_pageInMemorySet st ∧ st' = st)
       ∨ ((page ∉ o_pageInMemorySet st)
          ∧ pageFaults (o_result st') = pageFaults (o_result st) + 1
          ∧ page ∈ o_pageInMemorySet st'
          ∧ o_pageInMemorySet st' ⊆ {[page]} ∪ o_pageInMemorySet st)).
Proof.
  intros Hn Hvalid Hbk.
  destruct (decide (page ∈ o_pageInMemorySet st)) as [Hin|Hout].
  { exists st. split; [by apply optNext_hit|]. split; [by apply bookkeeping_hit|by left]. }
  pose proof Hbk as [Hnd Hmir Hlen _ _ _ _ _].
  assert (Hpf : page ∉ o_memoryFrames st) by (rewrite Hmir in Hout; set_solver).
  destruct (decide (len (o_memoryFrames st) < numFrames)) as [Hroom|Hfull].
  - eexists. split; [by apply optNext_room|]. split; [|right; simpl; set_solver].
    apply (bookkeeping_fault_common _ _ _ _ _ _ _ _ Hbk); simpl.
    + apply NoDup_app. split; [done|]. split; [|apply NoDup_singleton].
      intros x Hx ->%list_elem_of_singleton. done.
    + rewrite Hmir, list_to_set_app_L. set_solver.
    + set_solver.
    + rewrite len_app. unfold len at 2. simpl. lia.
    + done.
  - assert (Hne : o_memoryFrames st ≠ []).
    { intros Hnil. rewrite Hnil in Hfull. unfold len in Hfull. simpl in Hfull. lia. }
    pose proof (scanFrames_in_range pagePositions i (o_memoryFrames st)
                  (o_nextUseCursor st) Hvalid Hne) as Hrange.
    unfold optNext. destruct (decide _); [done|].
    destruct (Z.ltb_spec (len (o_memoryFrames st)) numFrames); [lia|]. cbv zeta.
    set (scan := scanFrames pagePositions i (o_memoryFrames st) 0 (-1) (-1)
                   (o_nextUseCursor st)) in *.
    assert (is_Some (o_memoryFrames st !! Z.to_nat (fst scan))) as [ev Hev].
    { apply lookup_lt_is_Some. unfold len in Hrange. lia. }
    unfold index. destruct (Z.ltb_spec (fst scan) 0); [lia|]. rewrite Hev.
    eexists. split; [done|]. split; [|right; simpl; set_solver].
    apply (bookkeeping_fault_common _ _ _ _ _ _ _ _ Hbk); simpl.
    + by eapply NoDup_replace.
    + rewrite Hmir. symmetry. by apply list_to_set_replace.
    + set_solver.
    + unfold len in *. rewrite length_insert. lia.
    + done.
Qed.

Lemma optRun_any_positions numFrames pagePositions refs : ∀ seen i st,
  1 ≤ numFrames → positionsValid pagePositions →
  bookkeeping numFrames seen (o_pageInMemorySet st) (o_memoryFrames st) (o_result st) →
  ∃ st', optRun numFrames pagePositions i refs st = Returned st'
    ∧ bookkeeping numFrames (seen ++ refs) (o_pageInMemorySet st') (o_memoryFrames st')
        (o_result st')
    ∧ demandSchedule numFrames (o_pageInMemorySet st) refs
        (pageFaults (o_result st') - pageFaults (o_result st)).
Proof.
  induction refs as [|page rest IH]; intros seen i st Hn Hvalid Hbk; simpl.
  { exists st. rewrite app_nil_r, Z.sub_diag. split; [done|]. split; [done|constructor]. }
  destruct (optNext_any_positions numFrames pagePositions seen i page st Hn Hvalid Hbk)
    as (st1 & -> & Hbk1 & Hshape).
  destruct (IH (seen ++ [page]) (i + 1) st1 Hn Hvalid Hbk1) as (st' & Hrun & Hbk' & Hsched).
  exists st'. split; [done|]. rewrite <- app_assoc in Hbk'. split; [done|].
  pose proof (bookkeeping_size _ _ _ _ _ Hbk1) as Hsz1.
  destruct Hshape as [[Hin ->]|(Hout & Hpf & Hin' & Hsub)].
  - apply (ds_hit _ _ (o_pageInMemorySet st)); [done|done|done|lia|done].
  - replace (pageFaults (o_result st') - pageFaults (o_result st))
      with (pageFaults (o_result st') - pageFaults (o_result st1) + 1) by lia.
    apply (ds_miss _ _ (o_pageInMemorySet st1)); [done|done|done|lia|done].
Qed.

(** X10: given any positions map without an entry below [-1], also one that
    does not belong to the trace, the optimal simulator with at least one
    frame, and no more than [make] accepts, returns (the victim index is
    always within the frames), counts its faults consistently, and returns
    no fewer faults than with the positions of the trace. *)
Theorem optimal_tolerates_any_positions (trace : list string) (numFrames : Z)
    (pagePositions : gmap string (list Z)) (didacticMode : bool) :
  1 ≤ numFrames → numFrames ≤ maxFrames → positionsValid pagePositions →
  ∃ r best,
    result_of (optimalAlgorithmOptimized trace numFrames pagePositions didacticMode)
    = Returned r
    ∧ result_of (optimalAlgorithmOptimized trace numFrames (buildPagePositions trace)
                   didacticMode) = Returned best
    ∧ pageFaults best ≤ pageFaults r
    ∧ pageFaults r = sumValues (loadCounts r)
    ∧ dom (loadCounts r) = list_to_set trace.
Proof.
  intros Hn Hmax Hvalid.
  destruct (optRun_any_positions numFrames pagePositions trace [] 0 optInit Hn Hvalid)
    as (st & Hrun & Hbk & Hsched); [apply bookkeeping_init; lia|].
  simpl in Hbk, Hsched. rewrite Z.sub_0_r in Hsched.
  assert (Hinit : optInv numFrames [] optInit) by (apply optInv_init; lia).
  destruct (opt_le_schedule_from numFrames numFrames trace [] optInit ∅
              (pageFaults (o_result st)) 0 Hn ltac:(lia) Hinit)
    as (sb & Hrb & _ & Hle); [rewrite size_empty; lia|right; set_solver
                              |apply lag_within; set_solver|done|].
  simpl in Hrb, Hle. change (len (@nil string)) with 0 in Hrb.
  exists (o_result st), (o_result sb). rewrite !opt_erase by lia. rewrite Hrun, Hrb. simpl.
  split; [done|]. split; [done|]. split; [lia|]. split; apply Hbk.
Qed.

Lemma optimal_tolerates_any_positions_witness :
  1 ≤ 3 ∧ 3 ≤ maxFrames ∧ positionsValid ∅
  ∧ ∃ r best,
      result_of (optimalAlgorithmOptimized textbook 3 ∅ false) = Returned r
      ∧ result_of (optimalAlgorithmOptimized textbook 3 (buildPagePositions textbook) false)
        = Returned best
      ∧ pageFaults best ≤ pageFaults r
      ∧ pageFaults r = sumValues (loadCounts r)
      ∧ dom (loadCounts r) = list_to_set textbook.
Proof.
  assert (Hvalid : positionsValid ∅).
  { intros p l pos Hp. rewrite lookup_empty in Hp. discriminate Hp. }
  split; [lia|]. split; [discriminate|]. split; [exact Hvalid|].
  apply (optimal_tolerates_any_positions textbook 3 ∅ false);
    [lia | discriminate | exact Hvalid].
Defined.

(** ** parseMemorySize (main.go 24-44) *)

Lemma parseDigits_digits ds : ∀ acc,
  Forall isDigit ds →
  parseDigits acc ds = Some (fold_left (λ a c, 10 * a + default 0 (digitValue c)) ds acc).
Proof.
  induction ds as [|c ds IH]; intros acc Hall; simpl; [done|].
  apply Forall_cons in Hall as [[d Hd] Hall]. rewrite Hd. simpl. by apply IH.
Qed.

Lemma ParseInt_digits ds :
  ds ≠ [] → Forall isDigit ds → decimalValue ds < 2 ^ 63 →
  ParseInt (String.string_of_list_ascii ds) = Some (decimalValue ds).
Proof.
  intros Hne Hall Hfit. unfold ParseInt, bytes.
  rewrite String.list_ascii_of_string_of_list_ascii.
  destruct ds as [|c ds]; [done|]. cbv zeta.
  pose proof (Forall_inv Hall) as [d Hd].
  assert (Hminus : c ≠ minusSign) by (intros ->; vm_compute in Hd; discriminate Hd).
  assert (Hplus : c ≠ plusSign) by (intros ->; vm_compute in Hd; discriminate Hd).
  rewrite (bool_decide_eq_false_2 _ Hminus), (bool_decide_eq_false_2 _ Hplus).
  cbn [orb negb andb]. rewrite (parseDigits_digits _ 0 Hall). fold (decimalValue (c :: ds)).
  destruct (Z.leb_spec (2 ^ 63) (decimalValue (c :: ds))); [lia|done].
Qed.

Lemma bytes_of_list l : bytes (String.string_of_list_ascii l) = l.
Proof. apply String.list_ascii_of_string_of_list_ascii. Qed.

Lemma HasSuffix_app ds suf :
  HasSuffix (String.string_of_list_ascii (ds ++ bytes suf)) suf = true.
Proof.
  unfold HasSuffix, bytes. rewrite String.list_ascii_of_string_of_list_ascii.
  apply bool_decide_eq_true_2. by exists ds.
Qed.

Lemma TrimSuffix_app ds suf :
  TrimSuffix (String.string_of_list_ascii (ds ++ bytes suf)) suf = String.string_of_list_ascii ds.
Proof.
  unfold TrimSuffix. rewrite HasSuffix_app. unfold bytes.
  rewrite String.list_ascii_of_string_of_list_ascii, length_app.
  replace (length ds + length (String.list_ascii_of_string suf) - length (String.list_ascii_of_string suf))%nat
    with (length ds) by lia.
  by rewrite take_app_length.
Qed.

Lemma HasSuffix_other ds suf other :
  length (bytes suf) = length (bytes other) → bytes suf ≠ bytes other →
  HasSuffix (String.string_of_list_ascii (ds ++ bytes other)) suf = false.
Proof.
  intros Hlen Hne. unfold HasSuffix. rewrite bytes_of_list.
  apply bool_decide_eq_false_2. intros [k Hk].
  apply app_inj_2 in Hk as [_ Hk]; [|done]. by apply Hne.
Qed.

Lemma HasSuffix_digits ds suf c :
  Forall isDigit ds → last (bytes suf) = Some c → ¬ isDigit c →
  HasSuffix (String.string_of_list_ascii ds) suf = false.
Proof.
  intros Hall Hlast Hnot. unfold HasSuffix. rewrite bytes_of_list.
  apply bool_decide_eq_false_2. intros [k ->].
  apply Forall_app in Hall as [_ Hall]. apply Hnot.
  rewrite Forall_forall in Hall. apply Hall.
  apply last_Some in Hlast as [l' ->]. set_solver.
Qed.

Lemma decimalValue_nonneg ds : 0 ≤ decimalValue ds.
Proof.
  unfold decimalValue.
  assert (H : ∀ acc, 0 ≤ acc →
            0 ≤ fold_left (λ a c, 10 * a + default 0 (digitValue c)) ds acc).
  { induction ds as [|c ds IH]; intros acc Hacc; simpl; [done|]. apply IH.
    unfold digitValue. cbv zeta.
    destruct (Z.leb_spec 48 (Z.of_N (Ascii.N_of_ascii c))); simpl; [|lia].
    destruct (Z.leb_spec (Z.of_N (Ascii.N_of_ascii c)) 57); simpl; lia. }
  by apply H.
Qed.

Lemma wrap64_small z : - 2 ^ 63 ≤ z < 2 ^ 63 → wrap64 z = z.
Proof. intros Hz. unfold wrap64. rewrite Z.mod_small; lia. Qed.

Lemma letter_B_not_digit : ¬ isDigit (Ascii.ascii_of_nat 66).
Proof. intros [d Hd]. vm_compute in Hd. discriminate Hd. Qed.

(** X11: [parseMemorySize] on a decimal number followed by nothing, [KB],
    [MB] or [GB] (after upper-casing and trimming) returns the number times
    1, 1024, 1024² or 1024³ in 64-bit arithmetic, with no error; the product
    is exact when it is below 2^63 and wraps around otherwise. *)
Theorem parseMemorySize_units (ToUpper TrimSpace : string → string) (sizeStr : string)
    (ds : list Ascii.ascii) (unit : string) (multiplier : Z) :
  ToUpper (TrimSpace sizeStr) = String.string_of_list_ascii (ds ++ bytes unit) →
  ds ≠ [] → Forall isDigit ds → decimalValue ds < 2 ^ 63 →
  unitMultiplier unit = Some multiplier →
  parseMemorySize ToUpper TrimSpace sizeStr
  = (wrap64 (decimalValue ds * multiplier), None)
  ∧ (decimalValue ds * multiplier < 2 ^ 63 →
     fst (parseMemorySize ToUpper TrimSpace sizeStr) = decimalValue ds * multiplier).
Proof.
  intros Hnorm Hne Hall Hfit Hunit.
  assert (Hparse : parseMemorySize ToUpper TrimSpace sizeStr
                   = (wrap64 (decimalValue ds * multiplier), None)).
  { unfold parseMemorySize. cbv zeta. rewrite Hnorm. unfold unitMultiplier in Hunit.
    assert (HB : ∀ suf, last (bytes suf) = Some (Ascii.ascii_of_nat 66) →
              HasSuffix (String.string_of_list_ascii ds) suf = false).
    { intros suf Hlast. eapply HasSuffix_digits; eauto using letter_B_not_digit. }
    destruct (decide (unit = EmptyString)) as [->|_].
    { injection Hunit as <-. change (bytes EmptyString) with (@nil Ascii.ascii).
      rewrite app_nil_r, !HB by reflexivity.
      by rewrite (ParseInt_digits ds Hne Hall Hfit). }
    destruct (decide (unit = "KB"%string)) as [->|_].
    { injection Hunit as <-. rewrite HasSuffix_app, TrimSuffix_app.
      by rewrite (ParseInt_digits ds Hne Hall Hfit). }
    destruct (decide (unit = "MB"%string)) as [->|_].
    { injection Hunit as <-.
      rewrite (HasSuffix_other ds "KB" "MB") by (reflexivity || discriminate).
      rewrite HasSuffix_app, TrimSuffix_app.
      by rewrite (ParseInt_digits ds Hne Hall Hfit). }
    destruct (decide (unit = "GB"%string)) as [->|_]; [|done].
    injection Hunit as <-.
    rewrite (HasSuffix_other ds "KB" "GB") by (reflexivity || discriminate).
    rewrite (HasSuffix_other ds "MB" "GB") by (reflexivity || discriminate).
    rewrite HasSuffix_app, TrimSuffix_app.
    by rewrite (ParseInt_digits ds Hne Hall Hfit). }
  split; [exact Hparse|]. intros Hsmall. rewrite Hparse. simpl.
  apply wrap64_small. pose proof (decimalValue_nonneg ds).
  assert (0 < multiplier).
  { unfold unitMultiplier in Hunit. repeat case_decide; simplify_eq; lia. }
  nia.
Qed.

Lemma parseMemorySize_units_witness :
  parseMemorySize (λ s, s) (λ s, s) "8MB" = (8 * 1024 * 1024, None).
Proof.
  refine (proj1 (parseMemorySize_units (λ s, s) (λ s, s) "8MB" (bytes "8") "MB"
                   (1024 * 1024) _ _ _ _ _)).
  - reflexivity.
  - discriminate.
  - repeat constructor. vm_compute. eauto.
  - vm_compute. reflexivity.
  - reflexivity.
Defined.

(** ** main (main.go 187-258) *)

Lemma mainProgram_commandLine ToUpper TrimSpace readLines prog didacticMode filePath
    memorySizeStr :
  (didacticMode = false → filePath ≠ "--didatico"%string) →
  mainProgram ToUpper TrimSpace readLines (commandLine prog didacticMode filePath memorySizeStr)
  = (let physicalMemoryBytes := fst (parseMemorySize ToUpper TrimSpace memorySizeStr) in
     if physicalMemoryBytes <? pageSizeBytes then exit 1
     else match readLines filePath with
          | None => exit 1
          | Some pageReferences =>
              optimalResult ← optimalAlgorithmOptimized pageReferences
                                (Z.quot physicalMemoryBytes pageSizeBytes)
                                (buildPagePositions pageReferences) didacticMode;
              fifoResult ← fifoAlgorithm pageReferences
                             (Z.quot physicalMemoryBytes pageSizeBytes) didacticMode;
              ret (optimalResult, fifoResult)
          end).
Proof.
  intros Hflag. unfold mainProgram, commandLine. destruct didacticMode; simpl.
  - done.
  - rewrite bool_decide_eq_false_2; [done|]. intros [= Heq]. by apply Hflag.
Qed.



Lemma parseMemorySize_error ToUpper TrimSpace sizeStr :
  snd (parseMemorySize ToUpper TrimSpace sizeStr) ≠ None →
  fst (parseMemorySize ToUpper TrimSpace sizeStr) = 0.
Proof.
  unfold parseMemorySize. cbv zeta.
  destruct (if HasSuffix _ _ then _ else _) as [multiplier trimmed].
  by destruct (ParseInt trimmed).
Qed.

(** X13: a memory size that [parseMemorySize] rejects, and whose error [main]
    discards, makes [main] exit with status 1, as does every size below one
    page; the file is not looked at. *)
Theorem main_rejects_bad_memory_size (ToUpper TrimSpace : string → string)
    (readLines : string → option (list string)) (prog : string) (didacticMode : bool)
    (filePath memorySizeStr : string) :
  (didacticMode = false → filePath ≠ "--didatico"%string) →
  snd (parseMemorySize ToUpper TrimSpace memorySizeStr) ≠ None
  ∨ fst (parseMemorySize ToUpper TrimSpace memorySizeStr) < pageSizeBytes →
  result_of (mainProgram ToUpper TrimSpace readLines
               (commandLine prog didacticMode filePath memorySizeStr)) = Exited 1.
Proof.
  intros Hflag Hbad. rewrite mainProgram_commandLine by done. cbv zeta.
  assert (fst (parseMemorySize ToUpper TrimSpace memorySizeStr) < pageSizeBytes) as Hlt.
  { destruct Hbad as [Herr|Hlt]; [|done].
    rewrite (parseMemorySize_error _ _ _ Herr). reflexivity. }
  unfold result_of.
  destruct (Z.ltb_spec (fst (parseMemorySize ToUpper TrimSpace memorySizeStr)) pageSizeBytes);
    [reflexivity|lia].
Qed.

Lemma main_rejects_bad_memory_size_witness :
  result_of (mainProgram (λ s, s) (λ s, s) (λ _, None)
               (commandLine "simulator" false "pages.txt" "8TB")) = Exited 1.
Proof.
  apply (main_rejects_bad_memory_size (λ s, s) (λ s, s) (λ _, None)
           "simulator" false "pages.txt" "8TB").
  - intros _. discriminate.
  - left. vm_compute. discriminate.
Defined.



(** ** The per-page table of main (main.go 241-246, 283-297) *)

Lemma sort_Permutation (l : list string) : merge_sort String.leb l ≡ₚ l.
Proof. apply (merge_sort_Permutation String.le). Qed.

Lemma sort_unique (l k : list string) :
  l ≡ₚ k → merge_sort String.leb l = merge_sort String.leb k.
Proof.
  intros H. apply (Sorted_unique String.le); try apply (Sorted_merge_sort String.le).
  by rewrite !sort_Permutation.
Qed.

Lemma sumList_lookups (l : list string) : ∀ m : gmap string Z,
  NoDup l → (∀ p, p ∈ l ↔ p ∈ dom m) →
  sumList ((λ p, default 0 (m !! p)) <$> l) = sumValues m.
Proof.
  induction l as [|p l IH]; intros m Hnd Hdom; simpl.
  - assert (m = ∅) as ->; [|by rewrite sumValues_empty].
    apply map_empty. intros q. apply not_elem_of_dom. rewrite <- Hdom. apply not_elem_of_nil.
  - apply NoDup_cons in Hnd as [Hp Hnd].
    assert (p ∈ dom m) as [v Hv]%elem_of_dom by (apply Hdom; left).
    rewrite Hv. simpl.
    assert (Hm : sumValues m = v + sumValues (delete p m)).
    { rewrite <- (insert_delete_id m p v Hv) at 1.
      apply sumValues_insert_fresh, lookup_delete_eq. }
    rewrite Hm. f_equal.
    rewrite <- (IH (delete p m) Hnd).
    + unfold sumList. f_equal. apply list_fmap_ext. intros i q Hq.
      rewrite lookup_delete_ne; [done|]. intros ->. apply Hp.
      by eapply list_elem_of_lookup_2.
    + intros q. rewrite dom_delete_L, elem_of_difference, <- Hdom, elem_of_cons.
      split; [intros Hq; split; [by right|]; intros ->%elem_of_singleton; done|].
      intros [[->|Hq] Hne]; [|done]. exfalso. apply Hne. by apply elem_of_singleton.
Qed.

(** X15: the per-page table that [main] prints after a run with at least one
    frame and no more than [make] accepts, where both simulators return.
    Whatever the order in which the distinct pages leave the map, the table
    is the same; its pages are the distinct pages of the trace in ascending
    order, each once; every load count in it is at least 1; and each column
    adds up to the fault total of its simulator. *)
Theorem load_table_consistent (trace order : list string) (numFrames : Z)
    (didacticMode : bool) :
  1 ≤ numFrames → numFrames ≤ maxFrames → enumerates trace order →
  ∃ optimalResult fifoResult,
    result_of (optimalAlgorithmOptimized trace numFrames (buildPagePositions trace)
                 didacticMode) = Returned optimalResult
    ∧ result_of (fifoAlgorithm trace numFrames didacticMode) = Returned fifoResult
    ∧ let rows := loadTable order optimalResult fifoResult in
      (∀ order', enumerates trace order' →
         loadTable order' optimalResult fifoResult = rows)
      ∧ StronglySorted String.le (rows.*1.*1)
      ∧ NoDup (rows.*1.*1)
      ∧ (∀ p, p ∈ rows.*1.*1 ↔ p ∈ trace)
      ∧ (∀ page optimalLoads fifoLoads, (page, optimalLoads, fifoLoads) ∈ rows →
           1 ≤ optimalLoads ∧ 1 ≤ fifoLoads)
      ∧ sumList (rows.*1.*2) = pageFaults optimalResult
      ∧ sumList (rows.*2) = pageFaults fifoResult.
Proof.
  intros Hn Hmax [Hnd Henum].
  destruct (opt_returns trace numFrames didacticMode Hn) as (so & _ & [Hobk _] & Hres).
  rewrite (Hres Hmax). clear Hres.
  destruct (fifo_returns trace numFrames didacticMode Hn) as (sf & _ & Hfbk & ->).
  exists (o_result so), (f_result sf). split; [done|]. split; [done|]. cbv zeta.
  assert (Hcols : ∀ l : list string,
            let rows := (λ page, (page, default 0 (loadCounts (o_result so) !! page),
                                  default 0 (loadCounts (f_result sf) !! page))) <$> l in
            rows.*1.*1 = l
            ∧ rows.*1.*2 = (λ p, default 0 (loadCounts (o_result so) !! p)) <$> l
            ∧ rows.*2 = (λ p, default 0 (loadCounts (f_result sf) !! p)) <$> l).
  { induction l as [|x l IH]; [done|]. cbv zeta in *. rewrite !fmap_cons.
    destruct IH as (-> & -> & ->). done. }
  unfold loadTable.
  destruct (Hcols (merge_sort String.leb order)) as (-> & -> & ->).
  set (sorted := merge_sort String.leb order).
  assert (Hperm : sorted ≡ₚ order) by apply sort_Permutation.
  assert (Hin : ∀ p, p ∈ sorted ↔ p ∈ trace) by (intros p; by rewrite Hperm).
  assert (Hdom : ∀ r S frames, bookkeeping numFrames trace S frames r →
            ∀ p, p ∈ sorted ↔ p ∈ dom (loadCounts r)).
  { intros r S frames Hbk p. rewrite (bk_dom _ _ _ _ _ Hbk), elem_of_list_to_set. apply Hin. }
  assert (Hsnd : NoDup sorted) by (by rewrite Hperm).
  split; [|split; [|split; [|split; [|split; [|split]]]]].
  - intros order' [Hnd' Henum']. f_equal. apply sort_unique.
    apply NoDup_Permutation; [done|done|]. intros p. by rewrite Henum, Henum'.
  - apply (StronglySorted_merge_sort String.le).
  - done.
  - done.
  - intros page a b (p & [= -> -> ->] & Hp)%list_elem_of_fmap.
    assert (Hpos : ∀ r S frames, bookkeeping numFrames trace S frames r →
              1 ≤ default 0 (loadCounts r !! p)).
    { intros r S frames Hbk. pose proof (proj1 (Hdom _ _ _ Hbk p) Hp) as Hd.
      apply elem_of_dom in Hd as [c Hc].
      rewrite Hc. simpl. by eapply (bk_pos _ _ _ _ _ Hbk). }
    split; [by eapply Hpos | by eapply Hpos].
  - rewrite (bk_sum _ _ _ _ _ Hobk).
    apply (sumList_lookups sorted (loadCounts (o_result so)) Hsnd (Hdom _ _ _ Hobk)).
  - rewrite (bk_sum _ _ _ _ _ Hfbk).
    apply (sumList_lookups sorted (loadCounts (f_result sf)) Hsnd (Hdom _ _ _ Hfbk)).
Qed.

Lemma load_table_consistent_witness :
  1 ≤ 3 ∧ 3 ≤ maxFrames ∧ enumerates textbook ["D"; "B"; "A"; "C"]%string
  ∧ ∃ optimalResult fifoResult,
      result_of (optimalAlgorithmOptimized textbook 3 (buildPagePositions textbook) false)
      = Returned optimalResult
      ∧ result_of (fifoAlgorithm textbook 3 false) = Returned fifoResult
      ∧ StronglySorted String.le
          ((loadTable ["D"; "B"; "A"; "C"]%string optimalResult fifoResult).*1.*1)
      ∧ sumList ((loadTable ["D"; "B"; "A"; "C"]%string optimalResult fifoResult).*1.*2)
        = pageFaults optimalResult
      ∧ sumList ((loadTable ["D"; "B"; "A"; "C"]%string optimalResult fifoResult).*2)
        = pageFaults fifoResult.
Proof.
  assert (Henum : enumerates textbook ["D"; "B"; "A"; "C"]%string).
  { split; [apply (bool_decide_unpack _); vm_compute; exact I|].
    intros p. unfold textbook. rewrite !elem_of_cons, !elem_of_nil. tauto. }
  split; [lia|]. split; [discriminate|]. split; [exact Henum|].
  destruct (load_table_consistent textbook ["D"; "B"; "A"; "C"]%string 3 false
              ltac:(lia) ltac:(discriminate) Henum)
    as (ro & rf & H1 & H2 & _ & H3 & _ & _ & _ & H4 & H5).
  exists ro, rf. split; [exact H1|]. split; [exact H2|]. split; [exact H3|].
  split; [exact H4 | exact H5].
Defined.

(** ** The page just referenced *)

Lemma fifoNext_resident numFrames page st st' :
  fifoNext numFrames page st = Returned st' → page ∈ f_pageInMemorySet st'.
Proof.
  unfold fifoNext. destruct (decide _); [by intros [= <-]|].
  destruct (_ =? _); [|intros [= <-]; simpl; set_solver].
  destruct (f_memoryFrames st); [done|]. intros [= <-]. simpl. set_solver.
Qed.

Lemma optNext_resident numFrames pagePositions i page st st' :
  optNext numFrames pagePositions i page st = Returned st' → page ∈ o_pageInMemorySet st'.
Proof.
  unfold optNext. destruct (decide _); [by intros [= <-]|].
  destruct (_ <? _); [intros [= <-]; simpl; set_solver|].
  cbv zeta. destruct (index _ _); [|done]. intros [= <-]. simpl. set_solver.
Qed.

(** X16: in both simulators, with at least one frame, the page of a reference
    is resident once the reference has been served, so that a reference to
    the same page as the one before is a hit: it changes nothing. *)
Theorem repeated_reference_hits (trace : list string) (numFrames : Z) (n : nat)
    (page : string) :
  1 ≤ numFrames → trace !! n = Some page →
  (∃ st, fifoAfter numFrames trace (S n) = Returned st
         ∧ page ∈ f_pageInMemorySet st
         ∧ (trace !! S n = Some page → fifoAfter numFrames trace (S (S n)) = Returned st))
  ∧ (∃ st, optAfter numFrames trace (S n) = Returned st
           ∧ page ∈ o_pageInMemorySet st
           ∧ (trace !! S n = Some page → optAfter numFrames trace (S (S n)) = Returned st)).
Proof.
  intros Hn Hpage. split.
  - destruct (fifoAfter_inv numFrames trace n Hn) as (st0 & Hst0 & _).
    destruct (fifoAfter_inv numFrames trace (S n) Hn) as (st & Hst & _).
    exists st. split; [done|].
    assert (Hin : page ∈ f_pageInMemorySet st).
    { rewrite (fifoAfter_S _ _ _ _ _ Hpage Hst0) in Hst. by eapply fifoNext_resident. }
    split; [done|]. intros Hnext.
    rewrite (fifoAfter_S _ _ _ _ _ Hnext Hst). by apply fifoNext_hit.
  - destruct (optAfter_inv numFrames trace n Hn) as (st0 & Hst0 & _).
    destruct (optAfter_inv numFrames trace (S n) Hn) as (st & Hst & _).
    exists st. split; [done|].
    assert (Hin : page ∈ o_pageInMemorySet st).
    { rewrite (optAfter_S _ _ _ _ _ Hpage Hst0) in Hst. by eapply optNext_resident. }
    split; [done|]. intros Hnext.
    rewrite (optAfter_S _ _ _ _ _ Hnext Hst). by apply optNext_hit.
Qed.

Lemma repeated_reference_hits_witness :
  1 ≤ 3 ∧ textbook !! 5%nat = Some "D"%string
  ∧ ∃ st, fifoAfter 3 textbook 6 = Returned st ∧ "D"%string ∈ f_pageInMemorySet st.
Proof.
  assert (H5 : textbook !! 5%nat = Some "D"%string) by reflexivity.
  split; [lia|]. split; [exact H5|].
  destruct (repeated_reference_hits textbook 3 5 "D" ltac:(lia) H5)
    as [(st & H1 & H2 & _) _].
  exists st. split; [exact H1 | exact H2].
Defined.

(** ** The size of the position index *)

Lemma sumValues_len_insert (m : gmap string (list Z)) page i :
  sumValues (len <$> <[page := default [] (m !! page) ++ [i]]> m)
  = sumValues (len <$> m) + 1.
Proof.
  rewrite fmap_insert, sumValues_insert, lookup_fmap, len_app.
  destruct (m !! page) as [l|]; simpl; unfold len; simpl; lia.
Qed.

(** X17: the position lists built by [main] hold each index of the trace
    exactly once: their lengths add up to the length of the trace. *)
Theorem positions_total_length (trace : list string) :
  sumValues (len <$> buildPagePositions trace) = len trace.
Proof.
  induction trace as [|page trace IH] using rev_ind.
  - unfold buildPagePositions. simpl. by rewrite fmap_empty, sumValues_empty.
  - unfold buildPagePositions in *. rewrite buildPositionsFrom_snoc.
    rewrite sumValues_len_insert, IH, len_app. unfold len at 3. simpl. lia.
Qed.
